(** * pixiv-X-local-viewer: the ingestion pipeline and the stream engine of
    [server.py], embedded in Rocq.

    File and folder names are byte strings ([string]); the character
    classes of the regular expressions ([\d], [\s]) and [str.lower] are taken
    on ASCII.  Paths follow POSIX [os.path].  What the standard library and
    SQLite do outside the program (MD5, [stat], JSON decoding, [LIKE], URL
    quoting) enters as a parameter; a call that may raise returns an option.
    Tables are lists of rows in rowid order, and writes to the database
    succeed.  Where SQL leaves the order of rows with equal sort keys open,
    rowid order is taken; no property below depends on it. *)

From Stdlib Require Import List String Ascii ZArith Lia Bool Arith Permutation.
Import ListNotations.
Open Scope string_scope.
Open Scope Z_scope.

(** ** Strings *)

Definition is_digit (c : ascii) : bool :=
  let n := nat_of_ascii c in (48 <=? n)%nat && (n <=? 57)%nat.

(** [str.isspace] / [\s] on ASCII: TAB..CR, FS..US and the space. *)
Definition is_space (c : ascii) : bool :=
  let n := nat_of_ascii c in
  ((9 <=? n)%nat && (n <=? 13)%nat) || ((28 <=? n)%nat && (n <=? 32)%nat).

Definition lower_ascii (c : ascii) : ascii :=
  let n := nat_of_ascii c in
  if (65 <=? n)%nat && (n <=? 90)%nat then ascii_of_nat (n + 32) else c.

(** [s.lower()] *)
Fixpoint lower (s : string) : string :=
  match s with
  | EmptyString => EmptyString
  | String c r => String (lower_ascii c) (lower r)
  end.

(** [s.startswith(p)] *)
Definition startswith (s p : string) : bool := String.prefix p s.

(** [s.endswith(suf)] *)
Definition endswith (s suf : string) : bool :=
  let n := String.length s in
  let m := String.length suf in
  (m <=? n)%nat && String.eqb (substring (n - m) m s) suf.

(** [s.endswith((a, b, ...))] with a tuple of suffixes *)
Definition endswith_any (s : string) (sufs : list string) : bool :=
  existsb (endswith s) sufs.

(** [x in xs] for a set or a list of strings *)
Definition mem (x : string) (xs : list string) : bool :=
  existsb (String.eqb x) xs.

Definition chars (s : string) : list ascii := list_ascii_of_string s.
Definition str (l : list ascii) : string := string_of_list_ascii l.

(** The longest run of digits at the head of [l], and what follows it. *)
Fixpoint span_digits (l : list ascii) : list ascii * list ascii :=
  match l with
  | c :: r =>
      if is_digit c
      then let (d, r') := span_digits r in (c :: d, r')
      else ([], l)
  | [] => ([], [])
  end.

(** [int(s)] for a string of ASCII digits. *)
Definition int_of_digits (l : list ascii) : Z :=
  fold_left (fun acc c => 10 * acc + (Z.of_nat (nat_of_ascii c) - 48)) l 0.

(** ** The regular expressions of [scan_worker] *)

(** [re.findall(r'(\d{14,})', s)]: the maximal digit runs of length at least
    14, left to right.  [cur] holds the digits of the run being read, last
    one first. *)
Definition emit_run14 (cur : list ascii) : list string :=
  if (14 <=? List.length cur)%nat then [str (rev cur)] else [].

Fixpoint findall_digits14_aux (cur l : list ascii) : list string :=
  match l with
  | [] => emit_run14 cur
  | c :: r =>
      if is_digit c then findall_digits14_aux (c :: cur) r
      else emit_run14 cur ++ findall_digits14_aux [] r
  end.

Definition findall_digits14 (s : string) : list string :=
  findall_digits14_aux [] (chars s).

(** [tweet_id_pattern.search(f)], group 1, for
    [tweet_id_pattern = re.compile(r'_(\d{14,})(_|\.)')]: the leftmost
    underscore followed by at least 14 digits and then by [_] or [.]; the
    greedy digit group can only stop at the end of the run, since the next
    character has to be a non-digit. *)
Definition is_tweet_id_end (l : list ascii) : bool :=
  match l with
  | c :: _ => Ascii.eqb c "_" || Ascii.eqb c "."
  | [] => false
  end.

Fixpoint tweet_id_search (l : list ascii) : option string :=
  match l with
  | [] => None
  | c :: r =>
      if Ascii.eqb c "_" then
        let (d, rest) := span_digits r in
        if (14 <=? List.length d)%nat && is_tweet_id_end rest
        then Some (str d)
        else tweet_id_search r
      else tweet_id_search r
  end.

Definition tweet_id_of (f : string) : option string := tweet_id_search (chars f).

(** [$] of Python's [re] also matches just before one final newline. *)
Definition strip_final_newline (rl : list ascii) : list ascii :=
  match rl with
  | c :: r => if Ascii.eqb c "010" then r else rl
  | [] => []
  end.

(** [re.search(r'[\-_](\d{3,})$', folder_name)], group 1: the trailing digit
    run, when it has 3 digits or more and a [-] or [_] stands before it. *)
Definition pixiv_folder_match (folder_name : string) : option string :=
  let (d, before) := span_digits (strip_final_newline (rev (chars folder_name))) in
  match before with
  | c :: _ =>
      if (3 <=? List.length d)%nat && (Ascii.eqb c "-" || Ascii.eqb c "_")
      then Some (str (rev d)) else None
  | [] => None
  end.

Definition is_author_sep (c : ascii) : bool :=
  is_space c || Ascii.eqb c "-" || Ascii.eqb c "_".

Fixpoint drop_while (p : ascii -> bool) (l : list ascii) : list ascii :=
  match l with
  | c :: r => if p c then drop_while p r else l
  | [] => []
  end.

(** [s.strip()] *)
Definition strip (l : list ascii) : list ascii :=
  rev (drop_while is_space (rev (drop_while is_space l))).

(** [re.match(r'^(.*?)[\s\-_]*(\d+)$', folder_name)], group 1: the lazy
    prefix is the shortest one, so what it leaves is the whole trailing digit
    run and every separator before it; [.] does not match a newline. *)
Definition author_match (folder_name : string) : option (list ascii) :=
  let (d, before) := span_digits (strip_final_newline (rev (chars folder_name))) in
  match d with
  | [] => None
  | _ :: _ =>
      let g1 := rev (drop_while is_author_sep before) in
      if existsb (Ascii.eqb "010") g1 then None else Some g1
  end.

(** [author_match.group(1).strip() if (author_match and
    author_match.group(1).strip()) else folder_name] *)
Definition author_name_of (folder_name : string) : string :=
  match author_match folder_name with
  | Some g1 =>
      match strip g1 with
      | [] => folder_name
      | a => str a
      end
  | None => folder_name
  end.

(** [pixiv_file_pattern.search(mf)] for
    [pixiv_file_pattern = re.compile(r'^(\d{5,})(?:_p(\d+))?')]:
    groups 1 and 2. *)
Definition pixiv_file_match (mf : string) : option (string * option string) :=
  let (d, rest) := span_digits (chars mf) in
  if (5 <=? List.length d)%nat then
    Some (str d,
          match rest with
          | u :: p :: r =>
              if Ascii.eqb u "_" && Ascii.eqb p "p" then
                match fst (span_digits r) with
                | [] => None
                | pd => Some (str pd)
                end
              else None
          | _ => None
          end)
  else None.

(** ** Paths *)

(** [os.path.join(root, f)] for a file name [f] without a separator. *)
Definition path_join (root f : string) : string :=
  if String.eqb root "" then f
  else if endswith root "/" then root ++ f
  else root ++ "/" ++ f.

Fixpoint basename_aux (cur l : list ascii) : list ascii :=
  match l with
  | [] => rev cur
  | c :: r => if Ascii.eqb c "/" then basename_aux [] r else basename_aux (c :: cur) r
  end.

(** [os.path.basename(root)]: what follows the last [/]. *)
Definition basename (root : string) : string := str (basename_aux [] (chars root)).

(** [root.split(os.sep)] *)
Fixpoint split_sep_aux (cur l : list ascii) : list string :=
  match l with
  | [] => [str (rev cur)]
  | c :: r =>
      if Ascii.eqb c "/" then str (rev cur) :: split_sep_aux [] r
      else split_sep_aux (c :: cur) r
  end.

Definition split_sep (root : string) : list string := split_sep_aux [] (chars root).

(** ** The store: the five tables of [init_db] *)

Record pixiv_work := {
  pw_id : string; pw_title : string; pw_author : string; pw_timestamp : Z;
  pw_total_pages : Z; pw_is_liked : Z; pw_folder_name : string; pw_file_mtime : Z }.

Record pixiv_page := {
  pp_work_id : string; pp_page_num : Z; pp_file_path : string; pp_media_type : string }.

Record tweet := {
  tw_id : string; tw_timestamp : Z; tw_user_name : string; tw_text : string;
  tw_json_path : string; tw_tweet_url : string; tw_avatar_url : string;
  tw_folder_name : string; tw_file_mtime : Z; tw_is_liked : Z }.

Record tweet_medium := {
  tm_tweet_id : string; tm_file_path : string; tm_media_type : string }.

Record other_work := {
  ow_id : string; ow_filename : string; ow_folder_name : string; ow_file_path : string;
  ow_media_type : string; ow_file_mtime : Z; ow_is_liked : Z }.

(** Rows are kept in insertion (rowid) order. *)
Record store := {
  pixiv_works : list pixiv_work;
  pixiv_pages : list pixiv_page;
  tweets : list tweet;
  tweet_media : list tweet_medium;
  other_works : list other_work }.

Definition empty_store : store :=
  {| pixiv_works := []; pixiv_pages := []; tweets := []; tweet_media := [];
     other_works := [] |}.

(** [INSERT OR IGNORE] into a table whose [id] is the primary key: a row whose
    id is already there is dropped. *)
Definition insert_or_ignore {A} (key : A -> string) (tbl : list A) (row : A) : list A :=
  if mem (key row) (map key tbl) then tbl else tbl ++ [row].

(** [c.executemany("INSERT OR IGNORE INTO ... VALUES (...)", rows)] *)
Definition executemany_insert {A} (key : A -> string) (tbl rows : list A) : list A :=
  fold_left (insert_or_ignore key) rows tbl.

(** ** The classifier worker *)

(** What [scan_worker] reads from a sidecar once [json.load] has succeeded:
    [raw_ts] coerced by [int] (0 when that fails), [user], [text],
    [data.get('url')] when it is truthy, and [av_url]. *)
Record sidecar := {
  sc_timestamp : Z; sc_user : string; sc_text : string;
  sc_url : option string; sc_avatar : string }.

(** The world outside the program.  [getmtime_ms p] is
    [int(os.path.getmtime(p) * 1000)], [load_sidecar p] is [open] and
    [json.load] followed by the field look-ups; [None] stands for a raised
    exception. *)
Record Env := {
  md5_hex : string -> string;
  getmtime_ms : string -> option Z;
  load_sidecar : string -> option sidecar }.

Definition media_exts : list string := [".jpg"; ".jpeg"; ".png"; ".gif"; ".mp4"; ".webm"].
Definition video_exts : list string := [".mp4"; ".webm"].

(** ['video' if mf.lower().endswith(('.mp4', '.webm')) else 'image'] *)
Definition media_type_of (mf : string) : string :=
  if endswith_any (lower mf) video_exts then "video" else "image".

(** [files = [f for f in files if not f.startswith('.')]] *)
Definition visible_files (files : list string) : list string :=
  filter (fun f => negb (startswith f ".")) files.

Definition is_json_file (f : string) : bool := endswith (lower f) ".json".
Definition is_media_file (f : string) : bool :=
  negb (is_json_file f) && endswith_any (lower f) media_exts.

Definition json_files_of (files : list string) : list string :=
  filter is_json_file (visible_files files).
Definition media_files_of (files : list string) : list string :=
  filter is_media_file (visible_files files).

Definition opt_string_eqb (a : option string) (b : string) : bool :=
  match a with Some x => String.eqb x b | None => false end.

(** [media_map_for_tweets.get(tid, [])]: the media files whose name gives
    [tid], in the order of [media_files]. *)
Definition media_for_tweet (media_files : list string) (tid : string) : list string :=
  filter (fun f => opt_string_eqb (tweet_id_of f) tid) media_files.

(** Lines 136-171: one sidecar.  The state is [(tweet_buffer, used_media)]. *)
Definition tweet_state : Type := list (tweet * list tweet_medium) * list string.

Definition tweet_step (E : Env) (root folder_name : string) (existing_tweets : list string)
    (media_files : list string) (st : tweet_state) (jf : string) : tweet_state :=
  let (tweet_buffer, used_media) := st in
  match findall_digits14 jf with
  | [] => st
  | tid :: _ =>
      if mem tid existing_tweets
      then (tweet_buffer, (used_media ++ media_for_tweet media_files tid)%list)
      else
        let full_path := path_join root jf in
        match load_sidecar E full_path with
        | None => st
        | Some data =>
            match getmtime_ms E full_path with
            | None => st
            | Some mtime =>
                let user := sc_user data in
                let t_url :=
                  match sc_url data with
                  | Some u => u
                  | None => "https://twitter.com/" ++ user ++ "/status/" ++ tid
                  end in
                let t_media :=
                  map (fun mf => {| tm_tweet_id := tid;
                                    tm_file_path := path_join root mf;
                                    tm_media_type := media_type_of mf |})
                      (media_for_tweet media_files tid) in
                ((tweet_buffer ++
                   [({| tw_id := tid; tw_timestamp := sc_timestamp data;
                        tw_user_name := user; tw_text := sc_text data;
                        tw_json_path := full_path; tw_tweet_url := t_url;
                        tw_avatar_url := sc_avatar data;
                        tw_folder_name := folder_name; tw_file_mtime := mtime;
                        tw_is_liked := 0 |}, t_media)])%list,
                 (used_media ++ media_for_tweet media_files tid)%list)
            end
        end
  end.

Definition tweet_phase (E : Env) (root folder_name : string) (existing_tweets : list string)
    (json_files media_files : list string) : tweet_state :=
  fold_left (tweet_step E root folder_name existing_tweets media_files) json_files ([], []).

(** One entry of [pixiv_buffer]; a page is [(p_num, full_path, m_type)]. *)
Record bucket := {
  bk_title : string; bk_author : string; bk_timestamp : Z; bk_folder : string;
  bk_pages : list (Z * string * string) }.

(** [pixiv_buffer] is a dict, read back in insertion order by [.items()]. *)
Definition pixiv_buffer : Type := list (string * bucket).

Definition bucket_add_page (mtime : Z) (page : Z * string * string) (b : bucket) : bucket :=
  {| bk_title := bk_title b; bk_author := bk_author b;
     bk_timestamp := if bk_timestamp b <? mtime then mtime else bk_timestamp b;
     bk_folder := bk_folder b;
     bk_pages := bk_pages b ++ [page] |}.

(** Lines 199-208: create the bucket of [wid] when it is missing, then raise
    its timestamp and append the page. *)
Fixpoint buffer_add (wid : string) (fresh : bucket) (mtime : Z) (page : Z * string * string)
    (buf : pixiv_buffer) : pixiv_buffer :=
  match buf with
  | [] => [(wid, bucket_add_page mtime page fresh)]
  | (k, b) :: r =>
      if String.eqb k wid then (k, bucket_add_page mtime page b) :: r
      else (k, b) :: buffer_add wid fresh mtime page r
  end.

(** Lines 181-189: the work id and the raw page number of a media file. *)
Definition resolve_work (E : Env) (pixiv_author_id mf : string) : string * Z :=
  match pixiv_file_match mf with
  | Some (wid, pg_str) =>
      (wid, match pg_str with Some d => int_of_digits (chars d) | None => 0 end)
  | None =>
      ("folder_" ++ pixiv_author_id ++ "_" ++ substring 0 8 (md5_hex E mf), 0)
  end.

Definition pixiv_state : Type := pixiv_buffer * list string.

(** Lines 178-209: one media file of an artwork folder; [None] is the
    exception of an unguarded [os.path.getmtime]. *)
Definition pixiv_step (E : Env) (root folder_name pixiv_author_id author_name : string)
    (existing_pixiv : list string) (st : pixiv_state) (mf : string) : option pixiv_state :=
  let (buf, used_media) := st in
  if mem mf used_media then Some st
  else
    let (wid, p_num) := resolve_work E pixiv_author_id mf in
    if mem wid existing_pixiv then Some (buf, (used_media ++ [mf])%list)
    else
      let full_path := path_join root mf in
      match getmtime_ms E full_path with
      | None => None
      | Some mtime =>
          let fresh := {| bk_title := mf; bk_author := author_name; bk_timestamp := mtime;
                          bk_folder := folder_name; bk_pages := [] |} in
          Some (buffer_add wid fresh mtime (p_num, full_path, media_type_of mf) buf,
                (used_media ++ [mf])%list)
      end.

(** A [for] loop whose body may raise. *)
Definition fold_opt {S A} (step : S -> A -> option S) (l : list A) (init : S) : option S :=
  fold_left (fun st a => match st with Some s => step s a | None => None end) l (Some init).

(** Lines 212-223: one media file of the fallback. *)
Definition other_step (E : Env) (root folder_name : string) (existing_others used_media : list string)
    (other_buffer : list other_work) (mf : string) : option (list other_work) :=
  if mem mf used_media then Some other_buffer
  else
    let full_path := path_join root mf in
    let file_id := md5_hex E full_path in
    if mem file_id existing_others then Some other_buffer
    else
      match getmtime_ms E full_path with
      | None => None
      | Some mtime =>
          Some (other_buffer ++
                  [{| ow_id := file_id; ow_filename := mf; ow_folder_name := folder_name;
                      ow_file_path := full_path; ow_media_type := media_type_of mf;
                      ow_file_mtime := mtime; ow_is_liked := 0 |}])%list
      end.

(** The argument tuple of [scan_worker]. *)
Record task := {
  t_root : string; t_files : list string;
  t_existing_pixiv : list string; t_existing_tweets : list string;
  t_existing_others : list string }.

Definition worker_result : Type :=
  list (tweet * list tweet_medium) * pixiv_buffer * list other_work.

(** Lines 173-209 *)
Definition pixiv_phase (E : Env) (root folder_name : string) (existing_pixiv : list string)
    (media_files used_media : list string) : option pixiv_state :=
  match pixiv_folder_match folder_name with
  | Some pixiv_author_id =>
      fold_opt (pixiv_step E root folder_name pixiv_author_id (author_name_of folder_name)
                  existing_pixiv)
               media_files ([], used_media)
  | None => Some ([], used_media)
  end.

(** [scan_worker(args)]; [None] when it raises. *)
Definition scan_worker (E : Env) (args : task) : option worker_result :=
  let root := t_root args in
  let folder_name := basename root in
  let json_files := json_files_of (t_files args) in
  let media_files := media_files_of (t_files args) in
  let (tweet_buffer, used_media) :=
    tweet_phase E root folder_name (t_existing_tweets args) json_files media_files in
  match pixiv_phase E root folder_name (t_existing_pixiv args) media_files used_media with
  | None => None
  | Some (pixiv_buf, used_media') =>
      match fold_opt (other_step E root folder_name (t_existing_others args) used_media')
                     media_files [] with
      | None => None
      | Some other_buffer => Some (tweet_buffer, pixiv_buf, other_buffer)
      end
  end.

(** ** The scan orchestrator *)

(** [l.sort(key=...)] is stable; [le x y] decides that [x] may stand before
    [y].  Later elements are inserted first, so that among equal keys the
    earlier element ends up in front. *)
Fixpoint insert_by {A} (le : A -> A -> bool) (x : A) (l : list A) : list A :=
  match l with
  | [] => [x]
  | y :: r => if le x y then x :: l else y :: insert_by le x r
  end.

Definition stable_sort {A} (le : A -> A -> bool) (l : list A) : list A :=
  fold_right (insert_by le) [] l.

Definition raw_page_num (p : Z * string * string) : Z := fst (fst p).

Definition page_le (a b : Z * string * string) : bool := raw_page_num a <=? raw_page_num b.

(** Lines 278-281: [data["pages"].sort(key=lambda x: x[0])], then
    [final_pages] by [enumerate]. *)
Definition final_pages_of (wid : string) (pages : list (Z * string * string)) : list pixiv_page :=
  map (fun ip : nat * (Z * string * string) =>
         let (i, p) := ip in
         {| pp_work_id := wid; pp_page_num := Z.of_nat i;
            pp_file_path := snd (fst p); pp_media_type := snd p |})
      (combine (seq 0 (List.length pages)) (stable_sort page_le pages)).

(** Line 282: the row of the work. *)
Definition work_row_of (wid : string) (data : bucket) : pixiv_work :=
  {| pw_id := wid; pw_title := bk_title data; pw_author := bk_author data;
     pw_timestamp := bk_timestamp data;
     pw_total_pages := Z.of_nat (List.length (final_pages_of wid (bk_pages data)));
     pw_is_liked := 0; pw_folder_name := bk_folder data;
     pw_file_mtime := bk_timestamp data |}.

(** The status strings: [""], [f"{len(tasks)} フォルダ..."], the running
    counter, [f"完了: P.. / T.. / O.. (Del:..)"] and [f"エラー: {e}"]. *)
Inductive status :=
| MsgNone
| MsgFolders (n : Z)
| MsgProgress (p t o : Z)
| MsgDone (p t o deleted : Z)
| MsgError (e : string).

(** The local variables of [run_scan] inside the [try]. *)
Record scan_state := {
  ss_db : store;
  b_pix_w : list pixiv_work; b_pix_p : list pixiv_page;
  b_tweets : list tweet; b_tweet_m : list tweet_medium;
  b_others : list other_work;
  cnt_t : Z; cnt_p : Z; cnt_o : Z;
  ss_msg : status }.

Definition BATCH : nat := 200.

(** The two [executemany] of lines 290-291. *)
Definition write_tweets (db : store) (rows : list tweet) (media : list tweet_medium) : store :=
  {| pixiv_works := pixiv_works db; pixiv_pages := pixiv_pages db;
     tweets := executemany_insert tw_id (tweets db) rows;
     tweet_media := tweet_media db ++ media;
     other_works := other_works db |}.

(** Lines 295-296 *)
Definition write_pixiv (db : store) (rows : list pixiv_work) (pages : list pixiv_page) : store :=
  {| pixiv_works := executemany_insert pw_id (pixiv_works db) rows;
     pixiv_pages := pixiv_pages db ++ pages;
     tweets := tweets db; tweet_media := tweet_media db;
     other_works := other_works db |}.

(** Line 300 *)
Definition write_others (db : store) (rows : list other_work) : store :=
  {| pixiv_works := pixiv_works db; pixiv_pages := pixiv_pages db;
     tweets := tweets db; tweet_media := tweet_media db;
     other_works := executemany_insert ow_id (other_works db) rows |}.

(** Lines 272-287: the result of one task goes into the buffers. *)
Definition absorb (r : worker_result) (s : scan_state) : scan_state :=
  let '(t_buf, p_buf, o_buf) := r in
  {| ss_db := ss_db s;
     b_pix_w := b_pix_w s ++ map (fun wd => work_row_of (fst wd) (snd wd)) p_buf;
     b_pix_p := b_pix_p s ++ flat_map (fun wd => final_pages_of (fst wd) (bk_pages (snd wd))) p_buf;
     b_tweets := b_tweets s ++ map fst t_buf;
     b_tweet_m := b_tweet_m s ++ flat_map snd t_buf;
     b_others := b_others s ++ o_buf;
     cnt_t := cnt_t s + Z.of_nat (List.length t_buf);
     cnt_p := cnt_p s + Z.of_nat (List.length p_buf);
     cnt_o := cnt_o s + Z.of_nat (List.length o_buf);
     ss_msg := ss_msg s |}.

(** Lines 289-292 *)
Definition flush_tweets_if (full : bool) (s : scan_state) : scan_state :=
  if full then
    {| ss_db := write_tweets (ss_db s) (b_tweets s) (b_tweet_m s);
       b_pix_w := b_pix_w s; b_pix_p := b_pix_p s;
       b_tweets := []; b_tweet_m := [];
       b_others := b_others s;
       cnt_t := cnt_t s; cnt_p := cnt_p s; cnt_o := cnt_o s; ss_msg := ss_msg s |}
  else s.

(** Lines 294-297 *)
Definition flush_pixiv_if (full : bool) (s : scan_state) : scan_state :=
  if full then
    {| ss_db := write_pixiv (ss_db s) (b_pix_w s) (b_pix_p s);
       b_pix_w := []; b_pix_p := [];
       b_tweets := b_tweets s; b_tweet_m := b_tweet_m s;
       b_others := b_others s;
       cnt_t := cnt_t s; cnt_p := cnt_p s; cnt_o := cnt_o s; ss_msg := ss_msg s |}
  else s.

(** Lines 299-301 *)
Definition flush_others_if (full : bool) (s : scan_state) : scan_state :=
  if full then
    {| ss_db := write_others (ss_db s) (b_others s);
       b_pix_w := b_pix_w s; b_pix_p := b_pix_p s;
       b_tweets := b_tweets s; b_tweet_m := b_tweet_m s;
       b_others := [];
       cnt_t := cnt_t s; cnt_p := cnt_p s; cnt_o := cnt_o s; ss_msg := ss_msg s |}
  else s.

(** Lines 303-304 *)
Definition report_progress (s : scan_state) : scan_state :=
  if (cnt_t s + cnt_p s + cnt_o s) mod 100 =? 0 then
    {| ss_db := ss_db s;
       b_pix_w := b_pix_w s; b_pix_p := b_pix_p s;
       b_tweets := b_tweets s; b_tweet_m := b_tweet_m s;
       b_others := b_others s;
       cnt_t := cnt_t s; cnt_p := cnt_p s; cnt_o := cnt_o s;
       ss_msg := MsgProgress (cnt_p s) (cnt_t s) (cnt_o s) |}
  else s.

(** The body of [for future in as_completed(futures)]: a task that raised
    is logged as a task error and leaves the state as it was. *)
Definition on_completed (E : Env) (s : scan_state) (t : task) : scan_state :=
  match scan_worker E t with
  | None => s
  | Some r =>
      let s1 := absorb r s in
      let s2 := flush_tweets_if (BATCH <=? List.length (b_tweets s1))%nat s1 in
      let s3 := flush_pixiv_if (BATCH <=? List.length (b_pix_w s2))%nat s2 in
      let s4 := flush_others_if (BATCH <=? List.length (b_others s3))%nat s3 in
      report_progress s4
  end.

Definition nonempty {A} (l : list A) : bool :=
  match l with [] => false | _ :: _ => true end.

(** Lines 309-318: what is left in the buffers. *)
Definition flush_rest (s : scan_state) : scan_state :=
  flush_others_if (nonempty (b_others s))
    (flush_pixiv_if (nonempty (b_pix_w s))
       (flush_tweets_if (nonempty (b_tweets s)) s)).

(** The sub-selects of the reconciliation [DELETE]. *)
Definition claimed (db : store) (path : string) : bool :=
  mem path (map pp_file_path (pixiv_pages db)) || mem path (map tm_file_path (tweet_media db)).

(** Lines 321-326: [DELETE FROM other_works WHERE file_path IN (...) OR
    file_path IN (...)], with [c.rowcount]. *)
Definition reconcile (db : store) : store * Z :=
  let kept := filter (fun o => negb (claimed db (ow_file_path o))) (other_works db) in
  ({| pixiv_works := pixiv_works db; pixiv_pages := pixiv_pages db;
      tweets := tweets db; tweet_media := tweet_media db;
      other_works := kept |},
   Z.of_nat (List.length (other_works db)) - Z.of_nat (List.length kept)).

(** [any(p.startswith('.') and len(p) > 1 for p in parts)] *)
Definition in_hidden_dir (root : string) : bool :=
  existsb (fun p => startswith p "." && (1 <? String.length p)%nat) (split_sep root).

(** Lines 241-253: the snapshot of the ids and one task per directory that
    [os.walk] yields, given as [(root, files)]. *)
Definition make_tasks (walk : list (string * list string)) (db : store) : list task :=
  flat_map (fun rf : string * list string =>
              let (root, files) := rf in
              if negb (nonempty files) || in_hidden_dir root then []
              else [{| t_root := root; t_files := files;
                       t_existing_pixiv := map pw_id (pixiv_works db);
                       t_existing_tweets := map tw_id (tweets db);
                       t_existing_others := map ow_id (other_works db) |}])
           walk.

Definition scan_start (ntasks : nat) (db : store) : scan_state :=
  {| ss_db := db; b_pix_w := []; b_pix_p := []; b_tweets := []; b_tweet_m := [];
     b_others := []; cnt_t := 0; cnt_p := 0; cnt_o := 0;
     ss_msg := MsgFolders (Z.of_nat ntasks) |}.

(** Lines 239-331, the [try] block of [run_scan] when nothing in it raises:
    [completed] lists the tasks in the order in which [as_completed] hands
    them over. *)
Definition run_scan_body (E : Env) (completed : list task) (db : store) : store * status :=
  let s := flush_rest (fold_left (on_completed E) completed (scan_start (List.length completed) db)) in
  let (db', deleted_count) := reconcile (ss_db s) in
  (db', MsgDone (cnt_p s) (cnt_t s) (cnt_o s) deleted_count).

(** A pass over the directories [walk]: the pool may complete the tasks in
    any order. *)
Definition scan_of (E : Env) (walk : list (string * list string)) (db db' : store) : Prop :=
  exists completed,
    Permutation completed (make_tasks walk db) /\ db' = fst (run_scan_body E completed db).

(** ** The like toggle *)

Definition set_liked_pixiv (v : Z) (w : pixiv_work) : pixiv_work :=
  {| pw_id := pw_id w; pw_title := pw_title w; pw_author := pw_author w;
     pw_timestamp := pw_timestamp w; pw_total_pages := pw_total_pages w;
     pw_is_liked := v; pw_folder_name := pw_folder_name w; pw_file_mtime := pw_file_mtime w |}.

Definition set_liked_tweet (v : Z) (t : tweet) : tweet :=
  {| tw_id := tw_id t; tw_timestamp := tw_timestamp t; tw_user_name := tw_user_name t;
     tw_text := tw_text t; tw_json_path := tw_json_path t; tw_tweet_url := tw_tweet_url t;
     tw_avatar_url := tw_avatar_url t; tw_folder_name := tw_folder_name t;
     tw_file_mtime := tw_file_mtime t; tw_is_liked := v |}.

Definition set_liked_other (v : Z) (o : other_work) : other_work :=
  {| ow_id := ow_id o; ow_filename := ow_filename o; ow_folder_name := ow_folder_name o;
     ow_file_path := ow_file_path o; ow_media_type := ow_media_type o;
     ow_file_mtime := ow_file_mtime o; ow_is_liked := v |}.

(** [UPDATE t SET is_liked = ? WHERE id = ?] *)
Definition update_liked {A} (key : A -> string) (set : Z -> A -> A) (v : Z) (id : string)
    (tbl : list A) : list A :=
  map (fun r => if String.eqb (key r) id then set v r else r) tbl.

(** [toggle_like(type, id, req)]: the store after it and the response. *)
Definition toggle_like (type id : string) (liked : bool) (db : store) : store * string :=
  let val := if liked then 1 else 0 in
  (if String.eqb type "pixiv" then
     {| pixiv_works := update_liked pw_id set_liked_pixiv val id (pixiv_works db);
        pixiv_pages := pixiv_pages db; tweets := tweets db;
        tweet_media := tweet_media db; other_works := other_works db |}
   else if String.eqb type "tweet" then
     {| pixiv_works := pixiv_works db; pixiv_pages := pixiv_pages db;
        tweets := update_liked tw_id set_liked_tweet val id (tweets db);
        tweet_media := tweet_media db; other_works := other_works db |}
   else
     {| pixiv_works := pixiv_works db; pixiv_pages := pixiv_pages db;
        tweets := tweets db; tweet_media := tweet_media db;
        other_works := update_liked ow_id set_liked_other val id (other_works db) |},
   "ok").

(** ** The stream engine *)

Inductive cmp_op := OpLe | OpGt | OpGe | OpLt.
Inductive sort_order := ASC | DESC.

Definition op_sql (op : cmp_op) : string :=
  match op with OpLe => "<=" | OpGt => ">" | OpGe => ">=" | OpLt => "<" end.

Definition order_sql (o : sort_order) : string :=
  match o with ASC => "ASC" | DESC => "DESC" end.

(** Lines 437-468 of [fetch_ids]: [op] and [order_s].  The first assignment
    (lines 437-438) is overwritten on every branch of the [if] that follows. *)
Definition select_op (sort fetch_dir : string) : cmp_op * sort_order :=
  if String.eqb sort "asc" then
    if String.eqb fetch_dir "older" then (OpGe, ASC) else (OpLt, DESC)
  else
    if String.eqb fetch_dir "older" then (OpLe, DESC) else (OpGt, ASC).

Inductive table := PixivWorks | Tweets | OtherWorks.

Definition table_name (t : table) : string :=
  match t with PixivWorks => "pixiv_works" | Tweets => "tweets" | OtherWorks => "other_works" end.

Definition type_label (t : table) : string :=
  match t with PixivWorks => "pixiv" | Tweets => "tweet" | OtherWorks => "other" end.

(** The entries that [build_query] appends to [where]. *)
Inductive cond :=
| CFolder (folder : string)
| CQuery (q : string)
| CLiked
| CFalse
| CNoMedia
| CVideo
| CImage
| CMtime (op : cmp_op) (target : Z).

(** The SQL text of an entry, for the table it is built for. *)
Definition cond_sql (t : table) (c : cond) : string :=
  match c with
  | CFolder _ => "folder_name = ?"
  | CQuery _ =>
      match t with
      | PixivWorks => "(title LIKE ? OR author LIKE ?)"
      | Tweets => "(text LIKE ? OR user_name LIKE ?)"
      | OtherWorks => "(filename LIKE ?)"
      end
  | CLiked => "is_liked = 1"
  | CFalse => "1=0"
  | CNoMedia => "NOT EXISTS (SELECT 1 FROM tweet_media WHERE tweet_id = tweets.id)"
  | CVideo =>
      match t with
      | PixivWorks => "EXISTS (SELECT 1 FROM pixiv_pages p WHERE p.work_id = pixiv_works.id AND p.media_type = 'video')"
      | Tweets => "EXISTS (SELECT 1 FROM tweet_media m WHERE m.tweet_id = tweets.id AND m.media_type = 'video')"
      | OtherWorks => "media_type = 'video'"
      end
  | CImage =>
      match t with
      | PixivWorks => "NOT EXISTS (SELECT 1 FROM pixiv_pages p WHERE p.work_id = pixiv_works.id AND p.media_type = 'video')"
      | Tweets => "EXISTS (SELECT 1 FROM tweet_media m WHERE m.tweet_id = tweets.id) AND NOT EXISTS (SELECT 1 FROM tweet_media m WHERE m.tweet_id = tweets.id AND m.media_type = 'video')"
      | OtherWorks => "media_type = 'image'"
      end
  | CMtime op _ => "file_mtime " ++ op_sql op ++ " ?"
  end.

(** A Python string used as a condition: [None] and [""] are false. *)
Definition truthy (s : option string) : option string :=
  match s with
  | Some x => if String.eqb x "" then None else Some x
  | None => None
  end.

(** The query parameters of [get_stream]. *)
Record stream_params := {
  sp_limit : Z; sp_offset : Z; sp_source : string; sp_q : option string;
  sp_sort : string; sp_folder : option string; sp_filter_type : string;
  sp_target_date : option Z; sp_direction : string }.

(** [build_query(table, type_label)]: the list [where]. *)
Definition build_query (P : stream_params) (op : cmp_op) (fetch_target : option Z)
    (t : table) : list cond :=
  (match truthy (sp_folder P) with
   | Some f => if String.eqb f "ALL" then [] else [CFolder f]
   | None => []
   end ++
   match truthy (sp_q P) with
   | Some q => [CQuery q]
   | None => []
   end ++
   (if String.eqb (sp_filter_type P) "liked" then [CLiked]
    else if String.eqb (sp_filter_type P) "text" then
      match t with Tweets => [CNoMedia] | _ => [CFalse] end
    else if String.eqb (sp_filter_type P) "video" then [CVideo]
    else if String.eqb (sp_filter_type P) "image" then [CImage]
    else []) ++
   match fetch_target with
   | Some target => [CMtime op target]
   | None => []
   end)%list.

(** A row of one of the three top-level tables. *)
Inductive row :=
| RowP (w : pixiv_work)
| RowT (t : tweet)
| RowO (o : other_work).

Definition rows_of (db : store) (t : table) : list row :=
  match t with
  | PixivWorks => map RowP (pixiv_works db)
  | Tweets => map RowT (tweets db)
  | OtherWorks => map RowO (other_works db)
  end.

Definition row_id (r : row) : string :=
  match r with RowP w => pw_id w | RowT t => tw_id t | RowO o => ow_id o end.
Definition row_mtime (r : row) : Z :=
  match r with RowP w => pw_file_mtime w | RowT t => tw_file_mtime t | RowO o => ow_file_mtime o end.
Definition row_folder (r : row) : string :=
  match r with RowP w => pw_folder_name w | RowT t => tw_folder_name t | RowO o => ow_folder_name o end.
Definition row_liked (r : row) : Z :=
  match r with RowP w => pw_is_liked w | RowT t => tw_is_liked t | RowO o => ow_is_liked o end.

Definition pages_of (db : store) (wid : string) : list pixiv_page :=
  filter (fun p => String.eqb (pp_work_id p) wid) (pixiv_pages db).
Definition media_of (db : store) (tid : string) : list tweet_medium :=
  filter (fun m => String.eqb (tm_tweet_id m) tid) (tweet_media db).

Definition cmp_holds (op : cmp_op) (x target : Z) : bool :=
  match op with
  | OpLe => x <=? target
  | OpGt => target <? x
  | OpGe => target <=? x
  | OpLt => x <? target
  end.

(** What SQLite answers for an entry of [where] on a row; [like pat s] is
    its [s LIKE pat]. *)
Definition eval_cond (like : string -> string -> bool) (db : store) (r : row) (c : cond) : bool :=
  match c with
  | CFolder f => String.eqb (row_folder r) f
  | CQuery q =>
      let pat := "%" ++ q ++ "%" in
      match r with
      | RowP w => like pat (pw_title w) || like pat (pw_author w)
      | RowT t => like pat (tw_text t) || like pat (tw_user_name t)
      | RowO o => like pat (ow_filename o)
      end
  | CLiked => row_liked r =? 1
  | CFalse => false
  | CNoMedia =>
      match r with
      | RowT t => negb (nonempty (media_of db (tw_id t)))
      | _ => false
      end
  | CVideo =>
      match r with
      | RowP w => existsb (fun p => String.eqb (pp_media_type p) "video") (pages_of db (pw_id w))
      | RowT t => existsb (fun m => String.eqb (tm_media_type m) "video") (media_of db (tw_id t))
      | RowO o => String.eqb (ow_media_type o) "video"
      end
  | CImage =>
      match r with
      | RowP w => negb (existsb (fun p => String.eqb (pp_media_type p) "video") (pages_of db (pw_id w)))
      | RowT t => nonempty (media_of db (tw_id t))
                  && negb (existsb (fun m => String.eqb (tm_media_type m) "video") (media_of db (tw_id t)))
      | RowO o => String.eqb (ow_media_type o) "image"
      end
  | CMtime op target => cmp_holds op (row_mtime r) target
  end.

(** An element of [results]: [(t_type, id, sort_key)]. *)
Definition item : Type := string * string * Z.
Definition item_key (x : item) : Z := snd x.

Definition key_le (o : sort_order) (a b : item) : bool :=
  match o with
  | ASC => item_key a <=? item_key b
  | DESC => item_key b <=? item_key a
  end.

(** [LIMIT n]: a negative [n] is no limit. *)
Definition sql_limit {A} (n : Z) (l : list A) : list A :=
  if n <? 0 then l else firstn (Z.to_nat n) l.

(** A bound of a Python slice, clamped to [0 .. len]. *)
Definition slice_bound (len i : Z) : Z :=
  if i <? 0 then Z.max 0 (len + i) else Z.min i len.

(** [l[a:b]] *)
Definition py_slice {A} (a b : Z) (l : list A) : list A :=
  let len := Z.of_nat (List.length l) in
  let lo := slice_bound len a in
  let hi := slice_bound len b in
  firstn (Z.to_nat (hi - lo)) (skipn (Z.to_nat lo) l).

(** Lines 511-514 for one table: the rows that pass [where], ordered by
    [sort_key] and cut by [LIMIT].  Rows with equal keys are kept in rowid
    order, which SQL leaves open. *)
Definition family_query (like : string -> string -> bool) (db : store) (P : stream_params)
    (op : cmp_op) (order_s : sort_order) (fetch_limit : Z) (fetch_target : option Z)
    (t : table) : list item :=
  let where_ := build_query P op fetch_target t in
  let hits := filter (fun r => forallb (eval_cond like db r) where_) (rows_of db t) in
  sql_limit (fetch_limit + sp_offset P)
    (stable_sort (key_le order_s)
       (map (fun r => (type_label t, row_id r, row_mtime r)) hits)).

(** Lines 506-509 *)
Definition tables_of (source : string) : list table :=
  ((if mem source ["all"; "pixiv"] then [PixivWorks] else []) ++
   (if mem source ["all"; "tweets"] then [Tweets] else []) ++
   (if mem source ["all"; "others"] then [OtherWorks] else []))%list.

(** [fetch_ids(fetch_dir, fetch_limit, fetch_target)] *)
Definition fetch_ids (like : string -> string -> bool) (db : store) (P : stream_params)
    (fetch_dir : string) (fetch_limit : Z) (fetch_target : option Z) : list item :=
  let (op, order_s) := select_op (sp_sort P) fetch_dir in
  let results :=
    flat_map (family_query like db P op order_s fetch_limit fetch_target)
             (tables_of (sp_source P)) in
  py_slice (sp_offset P) (sp_offset P + fetch_limit) (stable_sort (key_le order_s) results).

(** Lines 524-546: [final_ids]. *)
Definition final_ids (like : string -> string -> bool) (db : store) (P : stream_params) : list item :=
  match sp_target_date P with
  | Some target_date =>
      if String.eqb (sp_direction P) "around" then
        let half := sp_limit P / 2 in
        let newer_list := fetch_ids like db P "newer" half (Some target_date) in
        let older_list := fetch_ids like db P "older" half (Some target_date) in
        if String.eqb (sp_sort P) "desc"
        then (rev newer_list ++ older_list)%list
        else (newer_list ++ rev older_list)%list
      else if String.eqb (sp_direction P) "newer" then
        let ids := fetch_ids like db P "newer" (sp_limit P) (Some target_date) in
        if String.eqb (sp_sort P) "desc" then rev ids else ids
      else fetch_ids like db P "older" (sp_limit P) (Some target_date)
  | None =>
      if String.eqb (sp_direction P) "newer" then
        let ids := fetch_ids like db P "newer" (sp_limit P) None in
        if String.eqb (sp_sort P) "desc" then rev ids else ids
      else fetch_ids like db P "older" (sp_limit P) None
  end.

(** An entry of a record's [media] array. *)
Record medium := { m_url : string; m_type : string; m_index : option Z }.

(** The hydrated records, one shape per family. *)
Inductive record :=
| RecPixiv (id title author : string) (timestamp : Z) (is_liked : bool) (folder : string)
           (media : list medium) (pixiv_url : string)
| RecTweet (id : string) (timestamp : Z) (user_name text tweet_url avatar_url folder : string)
           (is_liked : bool) (media : list medium)
| RecOther (id : string) (timestamp : Z) (title folder : string) (is_liked : bool)
           (media : list medium).

Definition rec_type (r : record) : string :=
  match r with RecPixiv _ _ _ _ _ _ _ _ => "pixiv" | RecTweet _ _ _ _ _ _ _ _ _ => "tweet"
             | RecOther _ _ _ _ _ _ => "other" end.

Definition rec_media (r : record) : list medium :=
  match r with
  | RecPixiv _ _ _ _ _ _ media _ => media
  | RecTweet _ _ _ _ _ _ _ _ media => media
  | RecOther _ _ _ _ _ media => media
  end.

(** Lines 550-579 for one element of [final_ids]; [to_url] is the local
    function of that name. *)
Definition hydrate (to_url : string -> string) (db : store) (x : item) : list record :=
  let '(r_type, r_id, _) := x in
  if String.eqb r_type "pixiv" then
    match find (fun w => String.eqb (pw_id w) r_id) (pixiv_works db) with
    | None => []
    | Some w =>
        let pages :=
          map (fun p => {| m_url := to_url (pp_file_path p); m_type := pp_media_type p;
                           m_index := Some (pp_page_num p) |})
              (stable_sort (fun a b => pp_page_num a <=? pp_page_num b) (pages_of db r_id)) in
        [RecPixiv (pw_id w) (pw_title w) (pw_author w) (pw_file_mtime w)
                  (negb (pw_is_liked w =? 0)) (pw_folder_name w) pages
                  ("https://www.pixiv.net/artworks/" ++ pw_id w)]
    end
  else if String.eqb r_type "tweet" then
    match find (fun t => String.eqb (tw_id t) r_id) (tweets db) with
    | None => []
    | Some t =>
        let media :=
          map (fun m => {| m_url := to_url (tm_file_path m); m_type := tm_media_type m;
                           m_index := None |})
              (media_of db r_id) in
        [RecTweet (tw_id t) (tw_file_mtime t) (tw_user_name t) (tw_text t) (tw_tweet_url t)
                  (tw_avatar_url t) (tw_folder_name t) (negb (tw_is_liked t =? 0)) media]
    end
  else if String.eqb r_type "other" then
    match find (fun o => String.eqb (ow_id o) r_id) (other_works db) with
    | None => []
    | Some o =>
        [RecOther (ow_id o) (ow_file_mtime o) (ow_filename o) (ow_folder_name o)
                  (negb (ow_is_liked o =? 0))
                  [{| m_url := to_url (ow_file_path o); m_type := ow_media_type o;
                      m_index := None |}]]
    end
  else [].

(** [get_stream(...)]: [final_data]. *)
Definition get_stream (like : string -> string -> bool) (to_url : string -> string)
    (db : store) (P : stream_params) : list record :=
  flat_map (hydrate to_url db) (final_ids like db P).

(** ** The scan flag: [run_scan] as threads over the module globals *)

(** [is_scanning], [scan_status_msg] and the database file. *)
Record globals := {
  is_scanning : bool;
  scan_status_msg : status;
  g_db : store }.

(** Where a thread started on [run_scan] stands: before [with scan_lock]
    (line 232), inside the [try] (lines 238-331), before the [finally]
    (line 337), or back from the call. *)
Inductive pc := AtLock | InTry | InFinally | Returned.

Definition pc_active (p : pc) : bool :=
  match p with InTry | InFinally => true | _ => false end.

Record system := {
  sys_g : globals;
  sys_threads : list pc }.

Fixpoint set_pc (i : nat) (p : pc) (ths : list pc) : list pc :=
  match ths, i with
  | [], _ => []
  | _ :: r, O => p :: r
  | x :: r, S j => x :: set_pc j p r
  end.

Definition is_final (m : status) : bool :=
  match m with MsgDone _ _ _ _ | MsgError _ => true | _ => false end.

Definition init_system : system :=
  {| sys_g := {| is_scanning := false; scan_status_msg := MsgNone; g_db := empty_store |};
     sys_threads := [] |}.

(** One atomic action of the process.  [step_spawn]: [lifespan] or [set_path]
    starts a thread on [run_scan].  [step_drop] and [step_enter]: the block
    under [scan_lock] (lines 232-234).  [step_work]: a batch commit or a
    progress message inside the [try].  [step_done]: line 330.
    [step_error]: line 334.  [step_finally]: line 337.  [step_like]: a
    [toggle_like] request served meanwhile. *)
Inductive step : system -> system -> Prop :=
| step_spawn g ths :
    step {| sys_g := g; sys_threads := ths |}
         {| sys_g := g; sys_threads := ths ++ [AtLock] |}
| step_drop g ths i :
    nth_error ths i = Some AtLock -> is_scanning g = true ->
    step {| sys_g := g; sys_threads := ths |}
         {| sys_g := g; sys_threads := set_pc i Returned ths |}
| step_enter g ths i :
    nth_error ths i = Some AtLock -> is_scanning g = false ->
    step {| sys_g := g; sys_threads := ths |}
         {| sys_g := {| is_scanning := true; scan_status_msg := scan_status_msg g;
                        g_db := g_db g |};
            sys_threads := set_pc i InTry ths |}
| step_work g ths i db' msg' :
    nth_error ths i = Some InTry -> is_final msg' = false ->
    step {| sys_g := g; sys_threads := ths |}
         {| sys_g := {| is_scanning := is_scanning g; scan_status_msg := msg'; g_db := db' |};
            sys_threads := ths |}
| step_done g ths i p t o d :
    nth_error ths i = Some InTry ->
    step {| sys_g := g; sys_threads := ths |}
         {| sys_g := {| is_scanning := is_scanning g;
                        scan_status_msg := MsgDone p t o d; g_db := g_db g |};
            sys_threads := set_pc i InFinally ths |}
| step_error g ths i e :
    nth_error ths i = Some InTry ->
    step {| sys_g := g; sys_threads := ths |}
         {| sys_g := {| is_scanning := is_scanning g;
                        scan_status_msg := MsgError e; g_db := g_db g |};
            sys_threads := set_pc i InFinally ths |}
| step_finally g ths i :
    nth_error ths i = Some InFinally ->
    step {| sys_g := g; sys_threads := ths |}
         {| sys_g := {| is_scanning := false; scan_status_msg := scan_status_msg g;
                        g_db := g_db g |};
            sys_threads := set_pc i Returned ths |}
| step_like g ths type id liked :
    step {| sys_g := g; sys_threads := ths |}
         {| sys_g := {| is_scanning := is_scanning g; scan_status_msg := scan_status_msg g;
                        g_db := fst (toggle_like type id liked (g_db g)) |};
            sys_threads := ths |}.

Inductive sys_reachable : system -> Prop :=
| sys_reach_init : sys_reachable init_system
| sys_reach_step s s' : sys_reachable s -> step s s' -> sys_reachable s'.

(** The number of threads inside a scan pass. *)
Definition active_scans (s : system) : nat :=
  List.length (filter pc_active (sys_threads s)).

(** ** The stores the program builds *)

(** From the empty database of [init_db], by scan passes and like toggles. *)
Inductive reachable : store -> Prop :=
| reach_init : reachable empty_store
| reach_scan E walk db db' : reachable db -> scan_of E walk db db' -> reachable db'
| reach_like type id liked db : reachable db -> reachable (fst (toggle_like type id liked db)).

(** * Properties *)

(** ** The patterns on sample names *)

Example sidecar_id_first_run :
  findall_digits14 "a_20230101123456789_b_99999999999999.json"
  = ["20230101123456789"; "99999999999999"].
Proof. reflexivity. Qed.

Example tweet_id_needs_underscore :
  tweet_id_of "photo_20230101123456789_1.jpg" = Some "20230101123456789" /\
  tweet_id_of "v_20230101123456789.mp4" = Some "20230101123456789" /\
  tweet_id_of "IMG20230101123456789.jpg" = None /\
  tweet_id_of "x_20230101123456789-1.jpg" = None /\
  tweet_id_of "x_1234567890123_1.jpg" = None.
Proof. repeat split. Qed.

Example pixiv_folder_names :
  pixiv_folder_match "artist_123" = Some "123" /\
  pixiv_folder_match "artist-4567" = Some "4567" /\
  pixiv_folder_match "artist_12" = None /\
  pixiv_folder_match "artist123" = None /\
  author_name_of "artist name - _123" = "artist name" /\
  author_name_of "_123" = "_123".
Proof. repeat split. Qed.

Example pixiv_file_names :
  pixiv_file_match "12345_p12.jpg" = Some ("12345", Some "12") /\
  pixiv_file_match "12345_p.jpg" = Some ("12345", None) /\
  pixiv_file_match "123456.jpg" = Some ("123456", None) /\
  pixiv_file_match "1234_p1.jpg" = None /\
  pixiv_file_match "cover.jpg" = None.
Proof. repeat split. Qed.

Example paths_and_kinds :
  path_join "/r/a_1" "f.jpg" = "/r/a_1/f.jpg" /\ basename "/r/a_1" = "a_1" /\
  in_hidden_dir "/r/.cache/x" = true /\ in_hidden_dir "./r/x" = false /\
  media_type_of "Clip.WEBM" = "video" /\ media_type_of "pic.gif" = "image" /\
  is_media_file "notes.json" = false /\ is_media_file "a.JPEG" = true.
Proof. repeat split. Qed.

Example python_slices :
  py_slice 1 3 [10; 20; 30; 40] = [20; 30] /\ py_slice 0 (-1) [10; 20; 30; 40] = [10; 20; 30] /\
  py_slice (-2) 5 [10; 20; 30; 40] = [30; 40] /\ py_slice 3 1 [10; 20; 30; 40] = [] /\
  sql_limit (-1) [1; 2; 3] = [1; 2; 3] /\ sql_limit 2 [1; 2; 3] = [1; 2].
Proof. repeat split. Qed.

(** ** Lists, membership, the stable sort and slices *)

Lemma mem_In x xs : mem x xs = true <-> In x xs.
Proof.
  unfold mem. rewrite existsb_exists. split.
  - intros [y [Hy Heq]]. apply String.eqb_eq in Heq. now subst.
  - intros H. exists x. split; [assumption | apply String.eqb_refl].
Qed.

Lemma mem_false x xs : mem x xs = false <-> ~ In x xs.
Proof.
  rewrite <- mem_In. destruct (mem x xs); split; intros; congruence.
Qed.

Lemma mem_app x xs ys : mem x (xs ++ ys) = mem x xs || mem x ys.
Proof. unfold mem. apply existsb_app. Qed.

Lemma insert_by_perm {A} (le : A -> A -> bool) x l :
  Permutation (insert_by le x l) (x :: l).
Proof.
  induction l as [|y r IH]; simpl; [reflexivity|].
  destruct (le x y); [reflexivity|].
  rewrite IH. apply perm_swap.
Qed.

Lemma stable_sort_perm {A} (le : A -> A -> bool) l : Permutation (stable_sort le l) l.
Proof.
  induction l as [|x r IH]; simpl; [constructor|].
  rewrite insert_by_perm. now constructor.
Qed.

Lemma stable_sort_In {A} (le : A -> A -> bool) l x : In x (stable_sort le l) <-> In x l.
Proof.
  split; apply Permutation_in; [|symmetry]; apply stable_sort_perm.
Qed.

Lemma stable_sort_length {A} (le : A -> A -> bool) l :
  List.length (stable_sort le l) = List.length l.
Proof. apply Permutation_length, stable_sort_perm. Qed.

(** [ordered le l]: every element may stand before each later one. *)
Inductive ordered {A} (le : A -> A -> bool) : list A -> Prop :=
| ordered_nil : ordered le []
| ordered_cons x l : Forall (fun y => le x y = true) l -> ordered le l -> ordered le (x :: l).

Section SortOrder.
Context {A : Type} (le : A -> A -> bool).
Hypothesis le_total : forall x y, le x y = true \/ le y x = true.
Hypothesis le_trans : forall x y z, le x y = true -> le y z = true -> le x z = true.

Lemma insert_by_ordered x l : ordered le l -> ordered le (insert_by le x l).
Proof.
  induction 1 as [|y r Hy Hr IH]; simpl.
  - constructor; constructor.
  - destruct (le x y) eqn:Hxy.
    + constructor; [|now constructor].
      constructor; [assumption|].
      eapply Forall_impl; [|exact Hy]. intros z Hz. now apply le_trans with y.
    + constructor; [|assumption].
      apply Forall_forall. intros z Hz.
      apply (Permutation_in _ (insert_by_perm le x r)) in Hz.
      destruct Hz as [<-|Hz].
      * destruct (le_total x y); congruence.
      * rewrite Forall_forall in Hy. now apply Hy.
Qed.

Lemma stable_sort_ordered l : ordered le (stable_sort le l).
Proof.
  induction l; simpl; [constructor | now apply insert_by_ordered].
Qed.

End SortOrder.

Lemma ordered_app_inv {A} (le : A -> A -> bool) l1 l2 :
  ordered le (l1 ++ l2) -> ordered le l1 /\ ordered le l2.
Proof.
  induction l1 as [|x r IH]; simpl; intros H.
  - split; [constructor | assumption].
  - inversion H as [|? ? Hall Hord]; subst.
    destruct (IH Hord) as [H1 H2]. split; [|assumption].
    constructor; [|assumption].
    apply Forall_app in Hall. tauto.
Qed.

Lemma ordered_firstn {A} (le : A -> A -> bool) n l : ordered le l -> ordered le (firstn n l).
Proof.
  intros H. rewrite <- (firstn_skipn n l) in H. now apply ordered_app_inv in H.
Qed.

Lemma ordered_skipn {A} (le : A -> A -> bool) n l : ordered le l -> ordered le (skipn n l).
Proof.
  intros H. rewrite <- (firstn_skipn n l) in H. now apply ordered_app_inv in H.
Qed.

Lemma key_le_total o x y : key_le o x y = true \/ key_le o y x = true.
Proof. destruct o; simpl; rewrite !Z.leb_le; lia. Qed.

Lemma key_le_trans o x y z : key_le o x y = true -> key_le o y z = true -> key_le o x z = true.
Proof. destruct o; simpl; rewrite !Z.leb_le; lia. Qed.

Lemma In_firstn {A} n (l : list A) x : In x (firstn n l) -> In x l.
Proof. intros H. rewrite <- (firstn_skipn n l). apply in_or_app. now left. Qed.

Lemma In_skipn {A} n (l : list A) x : In x (skipn n l) -> In x l.
Proof. intros H. rewrite <- (firstn_skipn n l). apply in_or_app. now right. Qed.

Lemma sql_limit_In {A} n (l : list A) x : In x (sql_limit n l) -> In x l.
Proof. unfold sql_limit. destruct (n <? 0); [easy | apply In_firstn]. Qed.

Lemma sql_limit_ordered {A} (le : A -> A -> bool) n l :
  ordered le l -> ordered le (sql_limit n l).
Proof. unfold sql_limit. destruct (n <? 0); [easy | apply ordered_firstn]. Qed.

Lemma py_slice_In {A} a b (l : list A) x : In x (py_slice a b l) -> In x l.
Proof. unfold py_slice. intros H. now apply In_firstn, In_skipn in H. Qed.

Lemma py_slice_ordered {A} (le : A -> A -> bool) a b l :
  ordered le l -> ordered le (py_slice a b l).
Proof. intros H. unfold py_slice. now apply ordered_firstn, ordered_skipn. Qed.

(** A slice [l[a:a+n]] with [0 <= n] holds at most [n] elements, whatever
    the sign of [a]. *)
Lemma py_slice_length {A} a n (l : list A) :
  0 <= n -> Z.of_nat (List.length (py_slice a (a + n) l)) <= n.
Proof.
  intros Hn. unfold py_slice, slice_bound.
  rewrite length_firstn, length_skipn.
  set (len := Z.of_nat (List.length l)).
  assert (0 <= len) by (unfold len; lia).
  destruct (a <? 0) eqn:Ha; destruct (a + n <? 0) eqn:Hb;
    rewrite ?Z.ltb_lt, ?Z.ltb_ge in *; lia.
Qed.

(** ** The stream engine: operator, ordering and filters *)

Lemma build_query_mtime P op target t :
  In (CMtime op target) (build_query P op (Some target) t).
Proof.
  unfold build_query. rewrite !in_app_iff. right. right. right. now left.
Qed.

(** Every element of a family query comes from a row of that table which
    passes each entry of [where]. *)
Lemma family_query_inv like db P op order_s fetch_limit fetch_target t x :
  In x (family_query like db P op order_s fetch_limit fetch_target t) ->
  exists r, In r (rows_of db t) /\ x = (type_label t, row_id r, row_mtime r) /\
            forall c, In c (build_query P op fetch_target t) -> eval_cond like db r c = true.
Proof.
  unfold family_query. intros H.
  apply sql_limit_In, stable_sort_In, in_map_iff in H.
  destruct H as [r [<- Hr]]. apply filter_In in Hr. destruct Hr as [Hr Hall].
  exists r. repeat split; [assumption|].
  rewrite forallb_forall in Hall. exact Hall.
Qed.

Lemma family_query_ordered like db P op order_s fetch_limit fetch_target t :
  ordered (key_le order_s) (family_query like db P op order_s fetch_limit fetch_target t).
Proof.
  unfold family_query. apply sql_limit_ordered, stable_sort_ordered.
  - apply key_le_total.
  - apply key_le_trans.
Qed.

Lemma fetch_ids_inv like db P fetch_dir fetch_limit fetch_target x :
  In x (fetch_ids like db P fetch_dir fetch_limit fetch_target) ->
  exists t r, In t (tables_of (sp_source P)) /\ In r (rows_of db t) /\
              x = (type_label t, row_id r, row_mtime r) /\
              forall c, In c (build_query P (fst (select_op (sp_sort P) fetch_dir)) fetch_target t) ->
                        eval_cond like db r c = true.
Proof.
  unfold fetch_ids. destruct (select_op (sp_sort P) fetch_dir) as [op order_s]. simpl.
  intros H. apply py_slice_In, stable_sort_In, in_flat_map in H.
  destruct H as [t [Ht Hx]]. apply family_query_inv in Hx.
  destruct Hx as [r [Hr [Hx Hc]]]. now exists t, r.
Qed.

Lemma fetch_ids_ordered like db P fetch_dir fetch_limit fetch_target :
  ordered (key_le (snd (select_op (sp_sort P) fetch_dir)))
          (fetch_ids like db P fetch_dir fetch_limit fetch_target).
Proof.
  unfold fetch_ids. destruct (select_op (sp_sort P) fetch_dir) as [op order_s]. simpl.
  apply py_slice_ordered, stable_sort_ordered.
  - apply key_le_total.
  - apply key_le_trans.
Qed.

Lemma fetch_ids_cmp like db P fetch_dir fetch_limit target :
  Forall (fun x => cmp_holds (fst (select_op (sp_sort P) fetch_dir)) (item_key x) target = true)
         (fetch_ids like db P fetch_dir fetch_limit (Some target)).
Proof.
  apply Forall_forall. intros x Hx. apply fetch_ids_inv in Hx.
  destruct Hx as [t' [r [_ [_ [-> Hc]]]]].
  exact (Hc _ (build_query_mtime P _ target t')).
Qed.


(** ** The like toggle *)

Lemma update_liked_absent {A} (key : A -> string) set v id (tbl : list A) :
  ~ In id (map key tbl) -> update_liked key set v id tbl = tbl.
Proof.
  unfold update_liked. induction tbl as [|r tl IH]; simpl; intros H; [reflexivity|].
  destruct (String.eqb_spec (key r) id) as [Heq|Hne]; [tauto|].
  f_equal. apply IH. tauto.
Qed.

(** C9.  A like toggle whose family string is neither ["pixiv"] nor
    ["tweet"] answers ["ok"], leaves the artwork and post tables as they are,
    sets the liked flag of exactly the [other_works] rows with the given id,
    and changes nothing at all when no such row exists. *)
Theorem toggle_like_unknown_family :
  forall type id liked db,
    type <> "pixiv" -> type <> "tweet" ->
    let db' := fst (toggle_like type id liked db) in
    snd (toggle_like type id liked db) = "ok" /\
    pixiv_works db' = pixiv_works db /\ pixiv_pages db' = pixiv_pages db /\
    tweets db' = tweets db /\ tweet_media db' = tweet_media db /\
    other_works db' =
      map (fun o => if String.eqb (ow_id o) id
                    then set_liked_other (if liked then 1 else 0) o else o)
          (other_works db) /\
    (~ In id (map ow_id (other_works db)) -> db' = db).
Proof.
  intros type id liked db Hp Ht. unfold toggle_like. simpl.
  apply String.eqb_neq in Hp, Ht. rewrite Hp, Ht. simpl.
  repeat split.
  intros Habs. rewrite update_liked_absent by assumption. now destruct db.
Qed.

Lemma toggle_like_unknown_family_witness :
  let db := {| pixiv_works := []; pixiv_pages := []; tweets := []; tweet_media := [];
               other_works := [{| ow_id := "a1"; ow_filename := "x.png"; ow_folder_name := "d";
                                  ow_file_path := "/r/d/x.png"; ow_media_type := "image";
                                  ow_file_mtime := 7; ow_is_liked := 0 |}] |} in
  map ow_is_liked (other_works (fst (toggle_like "artwork" "a1" true db))) = [1] /\
  fst (toggle_like "artwork" "zz" true db) = db.
Proof.
  intros db.
  destruct (toggle_like_unknown_family "artwork" "a1" true db) as [_ [_ [_ [_ [_ [Ho _]]]]]];
    [discriminate | discriminate |].
  destruct (toggle_like_unknown_family "artwork" "zz" true db) as [_ [_ [_ [_ [_ [_ Hz]]]]]];
    [discriminate | discriminate |].
  split.
  - rewrite Ho. reflexivity.
  - apply Hz. simpl. intros [H|[]]. discriminate.
Defined.

(** ** What a scan pass writes *)

(** The results of the tasks that did not raise, in completion order. *)
Definition results_of (E : Env) (completed : list task) : list worker_result :=
  flat_map (fun t => match scan_worker E t with Some r => [r] | None => [] end) completed.

Definition res_tweets (r : worker_result) : list tweet := map fst (fst (fst r)).
Definition res_tweet_media (r : worker_result) : list tweet_medium := flat_map snd (fst (fst r)).
Definition res_works (r : worker_result) : list pixiv_work :=
  map (fun wd => work_row_of (fst wd) (snd wd)) (snd (fst r)).
Definition res_pages (r : worker_result) : list pixiv_page :=
  flat_map (fun wd => final_pages_of (fst wd) (bk_pages (snd wd))) (snd (fst r)).
Definition res_others (r : worker_result) : list other_work := snd r.

(** The database once every row of [rs] is written, batches put aside. *)
Definition written (db : store) (rs : list worker_result) : store :=
  {| pixiv_works := executemany_insert pw_id (pixiv_works db) (flat_map res_works rs);
     pixiv_pages := pixiv_pages db ++ flat_map res_pages rs;
     tweets := executemany_insert tw_id (tweets db) (flat_map res_tweets rs);
     tweet_media := tweet_media db ++ flat_map res_tweet_media rs;
     other_works := executemany_insert ow_id (other_works db) (flat_map res_others rs) |}.

(** The database of a loop state once its buffers are flushed. *)
Definition settled (s : scan_state) : store :=
  write_others (write_pixiv (write_tweets (ss_db s) (b_tweets s) (b_tweet_m s))
                            (b_pix_w s) (b_pix_p s))
               (b_others s).

(** Media and pages never wait in a buffer without a row of their owner. *)
Definition buffers_paired (s : scan_state) : Prop :=
  (b_tweets s = [] -> b_tweet_m s = []) /\ (b_pix_w s = [] -> b_pix_p s = []).

Lemma executemany_insert_app {A} (key : A -> string) tbl a b :
  executemany_insert key tbl (a ++ b) = executemany_insert key (executemany_insert key tbl a) b.
Proof. unfold executemany_insert. apply fold_left_app. Qed.

Lemma store_eta db :
  {| pixiv_works := pixiv_works db; pixiv_pages := pixiv_pages db; tweets := tweets db;
     tweet_media := tweet_media db; other_works := other_works db |} = db.
Proof. now destruct db. Qed.

Lemma written_nil db : written db [] = db.
Proof. unfold written. simpl. rewrite !app_nil_r. apply store_eta. Qed.

Lemma written_app db rs1 rs2 : written db (rs1 ++ rs2) = written (written db rs1) rs2.
Proof.
  unfold written. simpl. rewrite !flat_map_app, !executemany_insert_app, !app_assoc.
  reflexivity.
Qed.

Lemma settled_absorb r s : settled (absorb r s) = written (settled s) [r].
Proof.
  destruct r as [[t_buf p_buf] o_buf]. unfold settled, written, absorb, write_others,
    write_pixiv, write_tweets, res_works, res_pages, res_tweets, res_tweet_media, res_others.
  simpl. rewrite !app_nil_r, !executemany_insert_app, !app_assoc. reflexivity.
Qed.

Lemma paired_absorb r s : buffers_paired s -> buffers_paired (absorb r s).
Proof.
  destruct r as [[t_buf p_buf] o_buf]. unfold buffers_paired, absorb. simpl.
  intros [Ht Hp]. split; intros H; apply app_eq_nil in H; destruct H as [H1 H2].
  - rewrite (Ht H1). apply map_eq_nil in H2. now subst.
  - rewrite (Hp H1). apply map_eq_nil in H2. now subst.
Qed.

Lemma settled_flush_tweets b s : settled (flush_tweets_if b s) = settled s.
Proof. destruct b; [|reflexivity]. unfold settled, write_others, write_pixiv, write_tweets.
  simpl. now rewrite app_nil_r. Qed.

Lemma settled_flush_pixiv b s : settled (flush_pixiv_if b s) = settled s.
Proof. destruct b; [|reflexivity]. unfold settled, write_others, write_pixiv, write_tweets.
  simpl. now rewrite app_nil_r. Qed.

Lemma settled_flush_others b s : settled (flush_others_if b s) = settled s.
Proof. destruct b; reflexivity. Qed.

Lemma settled_report s : settled (report_progress s) = settled s.
Proof. unfold report_progress. now destruct (_ =? 0). Qed.

Lemma paired_flush_tweets b s : buffers_paired s -> buffers_paired (flush_tweets_if b s).
Proof. destruct b; [|easy]. unfold buffers_paired. simpl. tauto. Qed.

Lemma paired_flush_pixiv b s : buffers_paired s -> buffers_paired (flush_pixiv_if b s).
Proof. destruct b; [|easy]. unfold buffers_paired. simpl. tauto. Qed.

Lemma paired_flush_others b s : buffers_paired s -> buffers_paired (flush_others_if b s).
Proof. destruct b; [|easy]. unfold buffers_paired. simpl. tauto. Qed.

Lemma paired_report s : buffers_paired s -> buffers_paired (report_progress s).
Proof. unfold report_progress. now destruct (_ =? 0). Qed.

Lemma on_completed_settled E s t :
  buffers_paired s ->
  settled (on_completed E s t)
  = written (settled s) (match scan_worker E t with Some r => [r] | None => [] end)
  /\ buffers_paired (on_completed E s t).
Proof.
  intros Hp. unfold on_completed. destruct (scan_worker E t) as [r|].
  - split.
    + now rewrite settled_report, settled_flush_others, settled_flush_pixiv,
        settled_flush_tweets, settled_absorb.
    + now apply paired_report, paired_flush_others, paired_flush_pixiv,
        paired_flush_tweets, paired_absorb.
  - split; [now rewrite written_nil | assumption].
Qed.

Lemma loop_settled E completed s :
  buffers_paired s ->
  settled (fold_left (on_completed E) completed s) = written (settled s) (results_of E completed)
  /\ buffers_paired (fold_left (on_completed E) completed s).
Proof.
  revert s. induction completed as [|t r IH]; simpl; intros s Hp.
  - split; [now rewrite written_nil | assumption].
  - destruct (on_completed_settled E s t Hp) as [Hs Hp'].
    destruct (IH _ Hp') as [Hs' Hp'']. split; [|assumption].
    rewrite Hs', Hs. unfold results_of. simpl. now rewrite written_app.
Qed.

Lemma flush_rest_settled s : buffers_paired s -> ss_db (flush_rest s) = settled s.
Proof.
  intros [Ht Hp]. unfold flush_rest, settled.
  destruct s as [db pw pp tw tm ow ct cp co msg]. simpl in *.
  destruct tw as [|t tw]; [rewrite (Ht eq_refl)|];
    (destruct pw as [|w pw]; [rewrite (Hp eq_refl)|]);
    destruct ow as [|o ow]; simpl;
    unfold write_others, write_pixiv, write_tweets; simpl;
    rewrite ?app_nil_r; try reflexivity; now destruct db.
Qed.

(** The batches do not show in the outcome: a pass leaves the reconciled
    database with the rows of all results written in completion order. *)
Lemma run_scan_body_written E completed db :
  fst (run_scan_body E completed db) = fst (reconcile (written db (results_of E completed))).
Proof.
  unfold run_scan_body.
  set (s0 := scan_start (List.length completed) db).
  assert (Hp0 : buffers_paired s0) by (split; reflexivity).
  destruct (loop_settled E completed s0 Hp0) as [Hs Hp].
  rewrite <- flush_rest_settled in Hs by assumption.
  assert (Hs0 : settled s0 = db).
  { unfold settled, s0, write_others, write_pixiv, write_tweets. simpl.
    rewrite !app_nil_r. apply store_eta. }
  rewrite Hs0 in Hs. rewrite Hs.
  now destruct (reconcile _).
Qed.

(** ** Reconciliation *)

Lemma reconcile_tables db :
  pixiv_works (fst (reconcile db)) = pixiv_works db /\
  pixiv_pages (fst (reconcile db)) = pixiv_pages db /\
  tweets (fst (reconcile db)) = tweets db /\
  tweet_media (fst (reconcile db)) = tweet_media db /\
  other_works (fst (reconcile db))
  = filter (fun o => negb (claimed db (ow_file_path o))) (other_works db).
Proof. repeat split. Qed.

Lemma claimed_iff db p :
  claimed db p = true <->
  In p (map pp_file_path (pixiv_pages db)) \/ In p (map tm_file_path (tweet_media db)).
Proof. unfold claimed. now rewrite orb_true_iff, !mem_In. Qed.

Lemma claimed_reconcile db p : claimed (fst (reconcile db)) p = claimed db p.
Proof. reflexivity. Qed.

Lemma reconcile_exclusive db p :
  claimed db p = true -> ~ In p (map ow_file_path (other_works (fst (reconcile db)))).
Proof.
  intros Hc Hin. apply in_map_iff in Hin. destruct Hin as [o [<- Ho]].
  simpl in Ho. apply filter_In in Ho. destruct Ho as [_ Ho].
  rewrite Hc in Ho. discriminate.
Qed.

(** C5.  In the database a completed scan pass leaves behind, a file path
    that occurs in a [pixiv_pages] row or in a [tweet_media] row occurs in no
    [other_works] row. *)
Theorem exclusive_classification :
  forall E completed db p,
    let db' := fst (run_scan_body E completed db) in
    In p (map pp_file_path (pixiv_pages db')) \/ In p (map tm_file_path (tweet_media db')) ->
    ~ In p (map ow_file_path (other_works db')).
Proof.
  intros E completed db p db' H. subst db'.
  rewrite run_scan_body_written in *.
  apply reconcile_exclusive. rewrite <- claimed_reconcile. now apply claimed_iff.
Qed.

(** A small world for the examples: every file can be read, the hash is
    a tag in front of the text. *)
Definition demo_env : Env :=
  {| md5_hex := fun s => "md5:" ++ s;
     getmtime_ms := fun _ => Some 1000;
     load_sidecar := fun _ => Some {| sc_timestamp := 5; sc_user := "u"; sc_text := "t";
                                      sc_url := None; sc_avatar := "" |} |}.

(** A database in which a file was filed as unclassified before its sidecar
    arrived. *)
Definition stale_store : store :=
  {| pixiv_works := []; pixiv_pages := []; tweets := []; tweet_media := [];
     other_works :=
       [{| ow_id := "md5:/r/tw/photo_20230101123456789_1.jpg";
           ow_filename := "photo_20230101123456789_1.jpg"; ow_folder_name := "tw";
           ow_file_path := "/r/tw/photo_20230101123456789_1.jpg";
           ow_media_type := "image"; ow_file_mtime := 1000; ow_is_liked := 0 |}] |}.

Definition tweet_walk : list (string * list string) :=
  [("/r/tw", ["20230101123456789.json"; "photo_20230101123456789_1.jpg"])].

Lemma exclusive_classification_witness :
  let db' := fst (run_scan_body demo_env (make_tasks tweet_walk stale_store) stale_store) in
  In "/r/tw/photo_20230101123456789_1.jpg" (map tm_file_path (tweet_media db')) /\
  ~ In "/r/tw/photo_20230101123456789_1.jpg" (map ow_file_path (other_works db')).
Proof.
  intros db'.
  assert (H : In "/r/tw/photo_20230101123456789_1.jpg" (map tm_file_path (tweet_media db')))
    by (vm_compute; now left).
  split; [exact H|].
  apply (exclusive_classification demo_env (make_tasks tweet_walk stale_store) stale_store).
  right. exact H.
Defined.

(** ** Dense page numbers *)

(** Stability: the elements of any one key keep their order. *)
Lemma insert_by_stable {A} (key : A -> Z) k x l :
  filter (fun y => key y =? k) (insert_by (fun a b => key a <=? key b) x l)
  = filter (fun y => key y =? k) (x :: l).
Proof.
  induction l as [|y r IH]; [reflexivity|].
  cbn [insert_by]. destruct (key x <=? key y) eqn:Hle; [reflexivity|].
  apply Z.leb_gt in Hle.
  cbn [filter] in *. rewrite IH.
  destruct (key x =? k) eqn:Hx; destruct (key y =? k) eqn:Hy; try reflexivity.
  apply Z.eqb_eq in Hx, Hy. lia.
Qed.

Lemma stable_sort_stable {A} (key : A -> Z) k l :
  filter (fun y => key y =? k) (stable_sort (fun a b => key a <=? key b) l)
  = filter (fun y => key y =? k) l.
Proof.
  induction l as [|x r IH]; [reflexivity|].
  cbn [stable_sort fold_right]. fold (stable_sort (fun a b => key a <=? key b) r).
  rewrite insert_by_stable. cbn [filter]. now rewrite IH.
Qed.

Lemma map_fst_combine {A B} (l1 : list A) (l2 : list B) :
  List.length l1 = List.length l2 -> map fst (combine l1 l2) = l1.
Proof.
  revert l2. induction l1 as [|a r IH]; intros [|b r2]; simpl; try easy.
  intros H. f_equal. apply IH. now injection H.
Qed.

Lemma map_snd_combine {A B} (l1 : list A) (l2 : list B) :
  List.length l1 = List.length l2 -> map snd (combine l1 l2) = l2.
Proof.
  revert l2. induction l1 as [|a r IH]; intros [|b r2]; simpl; try easy.
  intros H. f_equal. apply IH. now injection H.
Qed.

Lemma final_pages_nums wid pages :
  map pp_page_num (final_pages_of wid pages) = map Z.of_nat (seq 0 (List.length pages)).
Proof.
  unfold final_pages_of. rewrite map_map.
  rewrite <- (map_fst_combine (seq 0 (List.length pages)) (stable_sort page_le pages)) at 2
    by now rewrite length_seq, stable_sort_length.
  rewrite map_map. apply map_ext. now intros [i p].
Qed.

Lemma final_pages_content wid pages :
  map (fun p => (pp_work_id p, pp_file_path p, pp_media_type p)) (final_pages_of wid pages)
  = map (fun p => (wid, snd (fst p), snd p)) (stable_sort page_le pages).
Proof.
  unfold final_pages_of. rewrite map_map.
  rewrite <- (map_snd_combine (seq 0 (List.length pages)) (stable_sort page_le pages)) at 2
    by now rewrite length_seq, stable_sort_length.
  rewrite map_map. apply map_ext. now intros [i p].
Qed.

Lemma final_pages_length wid pages :
  List.length (final_pages_of wid pages) = List.length pages.
Proof.
  unfold final_pages_of.
  rewrite length_map, length_combine, length_seq, stable_sort_length. lia.
Qed.

Lemma page_le_total a b : page_le a b = true \/ page_le b a = true.
Proof. unfold page_le. rewrite !Z.leb_le. lia. Qed.

Lemma page_le_trans a b c : page_le a b = true -> page_le b c = true -> page_le a c = true.
Proof. unfold page_le. rewrite !Z.leb_le. lia. Qed.

Definition art_walk : list (string * list string) :=
  [("/r/art_123", ["12345_p5.jpg"; "12345_p0.png"; "12345_p2.webm"])].


(** ** Loops *)

Lemma fold_left_invariant {S A} (step : S -> A -> S) (P : S -> Prop) l init :
  P init -> (forall s a, In a l -> P s -> P (step s a)) -> P (fold_left step l init).
Proof.
  revert init. induction l as [|a r IH]; simpl; intros init H0 Hstep; [assumption|].
  apply IH; [apply Hstep; auto | intros; apply Hstep; auto].
Qed.

(** What the step at [a] establishes, and later steps keep, holds at the end. *)
Lemma fold_left_establish {S A} (step : S -> A -> S) (Q : A -> S -> Prop) l init a :
  In a l ->
  (forall s, Q a (step s a)) ->
  (forall s b, Q a s -> Q a (step s b)) ->
  Q a (fold_left step l init).
Proof.
  intros Hin Hest Hkeep. revert init. induction l as [|b r IH]; simpl; intros init; [easy|].
  destruct Hin as [->|Hin].
  - apply fold_left_invariant; [apply Hest | intros; now apply Hkeep].
  - now apply IH.
Qed.

Lemma fold_opt_cons {S A} (step : S -> A -> option S) a l init :
  fold_opt step (a :: l) init
  = match step init a with Some s => fold_opt step l s | None => None end.
Proof.
  unfold fold_opt. simpl. destruct (step init a); [reflexivity|].
  induction l; simpl; auto.
Qed.

Lemma fold_opt_invariant {S A} (step : S -> A -> option S) (P : S -> Prop) l init final :
  P init ->
  (forall s a s', In a l -> P s -> step s a = Some s' -> P s') ->
  fold_opt step l init = Some final -> P final.
Proof.
  revert init. induction l as [|a r IH]; intros init H0 Hstep Hf.
  - injection Hf as <-. assumption.
  - rewrite fold_opt_cons in Hf. destruct (step init a) as [s|] eqn:Hs; [|discriminate].
    apply (IH s); [eapply Hstep; eauto; now left | | assumption].
    intros; eapply Hstep; eauto. now right.
Qed.

Lemma fold_opt_establish {S A} (step : S -> A -> option S) (Q : A -> S -> Prop) l init final a :
  In a l ->
  (forall s s', step s a = Some s' -> Q a s') ->
  (forall s b s', Q a s -> step s b = Some s' -> Q a s') ->
  fold_opt step l init = Some final -> Q a final.
Proof.
  intros Hin Hest Hkeep. revert init. induction l as [|b r IH]; intros init Hf; [easy|].
  rewrite fold_opt_cons in Hf. destruct (step init b) as [s|] eqn:Hs; [|discriminate].
  destruct Hin as [->|Hin].
  - eapply (fold_opt_invariant step (Q a)); [eapply Hest; eassumption | | eassumption].
    intros; eapply Hkeep; eassumption.
  - now apply (IH Hin s).
Qed.

(** ** The classifier worker: posts *)

(** The [tweet_media] row of a media file attached to the post [tid]. *)
Definition tm_of (root tid mf : string) : tweet_medium :=
  {| tm_tweet_id := tid; tm_file_path := path_join root mf; tm_media_type := media_type_of mf |}.

(** The id of a sidecar: [nums[0]]. *)
Definition sidecar_id (jf : string) : option string := hd_error (findall_digits14 jf).

(** The sidecar can be loaded and its modification time read. *)
Definition sidecar_readable (E : Env) (root jf : string) : bool :=
  match load_sidecar E (path_join root jf), getmtime_ms E (path_join root jf) with
  | Some _, Some _ => true
  | _, _ => false
  end.

Section TweetPhase.
Variable E : Env.
Variables root folder_name : string.
Variable existing_tweets : list string.
Variable media_files : list string.

Let step := tweet_step E root folder_name existing_tweets media_files.
Let media := media_for_tweet media_files.

Lemma tweet_step_shape st jf :
  ((sidecar_id jf = None \/
    exists tid, sidecar_id jf = Some tid /\ mem tid existing_tweets = false /\
                sidecar_readable E root jf = false) /\
   step st jf = st)
  \/ (exists tid, sidecar_id jf = Some tid /\ mem tid existing_tweets = true /\
                  step st jf = (fst st, (snd st ++ media tid)%list))
  \/ (exists tid tw, sidecar_id jf = Some tid /\ mem tid existing_tweets = false /\
                     sidecar_readable E root jf = true /\
                     step st jf = ((fst st ++ [(tw, map (tm_of root tid) (media tid))])%list,
                                   (snd st ++ media tid)%list) /\
                     tw_id tw = tid /\ tw_is_liked tw = 0).
Proof.
  unfold step, tweet_step, sidecar_id, sidecar_readable. destruct st as [tb used].
  destruct (findall_digits14 jf) as [|tid rest]; [left; split; [now left | reflexivity]|]. simpl.
  destruct (mem tid existing_tweets) eqn:Hex.
  - right. left. now exists tid.
  - destruct (load_sidecar E (path_join root jf)) as [data|];
      [|left; split; [right; now exists tid | reflexivity]].
    destruct (getmtime_ms E (path_join root jf)) as [mtime|];
      [|left; split; [right; now exists tid | reflexivity]].
    right. right. eexists tid, _.
    split; [reflexivity|]. split; [exact Hex|]. split; [reflexivity|].
    split; [reflexivity|]. split; reflexivity.
Qed.

(** Entries and consumed files only accumulate. *)
Lemma tweet_step_grows st jf :
  incl (fst st) (fst (step st jf)) /\ incl (snd st) (snd (step st jf)).
Proof.
  destruct (tweet_step_shape st jf) as [[_ ->]|[[tid [_ [_ ->]]]|[tid [tw [_ [_ [_ [-> _]]]]]]]];
    simpl; split; try apply incl_refl; apply incl_appl, incl_refl.
Qed.

(** What every entry of [tweet_buffer] looks like. *)
Definition tweet_entry_ok (json_files : list string) (e : tweet * list tweet_medium) : Prop :=
  mem (tw_id (fst e)) existing_tweets = false /\
  snd e = map (tm_of root (tw_id (fst e))) (media (tw_id (fst e))) /\
  tw_is_liked (fst e) = 0 /\
  exists jf, In jf json_files /\ sidecar_id jf = Some (tw_id (fst e)) /\
             sidecar_readable E root jf = true.

Lemma tweet_phase_sound json_files :
  Forall (tweet_entry_ok json_files)
         (fst (tweet_phase E root folder_name existing_tweets json_files media_files)).
Proof.
  unfold tweet_phase. fold step.
  apply (fold_left_invariant step (fun st => Forall (tweet_entry_ok json_files) (fst st))).
  - constructor.
  - intros st jf Hjf Hst.
    destruct (tweet_step_shape st jf)
      as [[_ ->]|[[tid [_ [_ ->]]]|[tid [tw [Hid [Hex [Hrd [-> [Htw Hl]]]]]]]]]; simpl; auto.
    apply Forall_app. split; [assumption|]. constructor; [|constructor].
    unfold tweet_entry_ok. simpl. subst tid. repeat split; auto. now exists jf.
Qed.

(** The consumed files are media files that name the id of a sidecar which
    is in the snapshot or can be read. *)
Definition consumed_by (json_files : list string) (f : string) : Prop :=
  In f media_files /\
  exists jf tid, In jf json_files /\ sidecar_id jf = Some tid /\ tweet_id_of f = Some tid /\
                 (mem tid existing_tweets = true \/ sidecar_readable E root jf = true).

Lemma tweet_phase_used json_files f :
  In f (snd (tweet_phase E root folder_name existing_tweets json_files media_files)) ->
  consumed_by json_files f.
Proof.
  unfold tweet_phase. fold step. revert f.
  apply (fold_left_invariant step
           (fun st => forall f, In f (snd st) -> consumed_by json_files f)).
  - simpl. tauto.
  - intros st jf Hjf Hst f.
    assert (Hm : forall tid, sidecar_id jf = Some tid ->
                 (mem tid existing_tweets = true \/ sidecar_readable E root jf = true) ->
                 In f (media tid) -> consumed_by json_files f).
    { intros tid Hid Hwhy Hf. unfold media, media_for_tweet in Hf. apply filter_In in Hf.
      destruct Hf as [Hf Heq]. split; [assumption|]. exists jf, tid. repeat split; auto.
      unfold opt_string_eqb in Heq. destruct (tweet_id_of f) as [x|]; [|discriminate].
      apply String.eqb_eq in Heq. now subst. }
    destruct (tweet_step_shape st jf)
      as [[_ ->]|[[tid [Hid [Hex ->]]]|[tid [tw [Hid [_ [Hrd [-> _]]]]]]]]; simpl; auto;
      intros Hf; apply in_app_or in Hf; destruct Hf as [Hf|Hf]; eauto.
Qed.

(** A sidecar whose id is new and which can be read yields an entry with
    all the media of its id, and these are consumed. *)
Lemma tweet_phase_complete json_files jf tid :
  In jf json_files -> sidecar_id jf = Some tid ->
  let st := tweet_phase E root folder_name existing_tweets json_files media_files in
  (mem tid existing_tweets = true \/ sidecar_readable E root jf = true ->
   incl (media tid) (snd st)) /\
  (mem tid existing_tweets = false -> sidecar_readable E root jf = true ->
   exists tw, tw_id tw = tid /\ In (tw, map (tm_of root tid) (media tid)) (fst st)).
Proof.
  intros Hjf Hid st. subst st. unfold tweet_phase. fold step.
  apply (fold_left_establish step
          (fun jf st =>
             (mem tid existing_tweets = true \/ sidecar_readable E root jf = true ->
              incl (media tid) (snd st)) /\
             (mem tid existing_tweets = false -> sidecar_readable E root jf = true ->
              exists tw, tw_id tw = tid /\ In (tw, map (tm_of root tid) (media tid)) (fst st)))
          json_files ([], []) jf Hjf).
  - intros s.
    destruct (tweet_step_shape s jf)
      as [[Hno Hs]|[[tid' [Hid' [Hex Hs]]]|[tid' [tw [Hid' [Hex [Hrd [Hs [Htw _]]]]]]]]].
    + destruct Hno as [Hno|[tid' [Hid' [Hex Hrd]]]]; [congruence|].
      rewrite Hid in Hid'. injection Hid' as <-.
      split; [intros [H|H]; congruence | congruence].
    + rewrite Hid in Hid'. injection Hid' as <-. rewrite Hs. simpl. split.
      * intros _. apply incl_appr, incl_refl.
      * congruence.
    + rewrite Hid in Hid'. injection Hid' as <-. rewrite Hs. simpl. split.
      * intros _. apply incl_appr, incl_refl.
      * intros _ _. exists tw. split; [assumption|]. apply in_or_app. right. now left.
  - intros s b [Hu Ht]. destruct (tweet_step_grows s b) as [Hg1 Hg2]. split.
    + intros H. eapply incl_tran; [apply Hu, H | apply Hg2].
    + intros H1 H2. destruct (Ht H1 H2) as [tw [Htw Hin]]. exists tw. split; auto.
Qed.

End TweetPhase.

(** ** The classifier worker: artworks and the fallback *)

Lemma buffer_add_keys wid fresh mtime page buf :
  In wid (map fst (buffer_add wid fresh mtime page buf)) /\
  incl (map fst buf) (map fst (buffer_add wid fresh mtime page buf)).
Proof.
  induction buf as [|[k b] r [IH1 IH2]]; simpl.
  - split; [now left | easy].
  - destruct (String.eqb_spec k wid) as [->|Hne]; simpl.
    + split; [now left | apply incl_refl].
    + split; [now right|]. intros x [<-|Hx]; [now left | right; now apply IH2].
Qed.

Lemma buffer_add_In wid fresh mtime page buf k b' :
  In (k, b') (buffer_add wid fresh mtime page buf) ->
  In (k, b') buf \/
  (k = wid /\ (b' = bucket_add_page mtime page fresh \/
               exists b, In (wid, b) buf /\ b' = bucket_add_page mtime page b)).
Proof.
  induction buf as [|[k0 b0] r IH]; simpl.
  - intros [H|[]]. injection H as <- <-. right. split; [reflexivity | now left].
  - destruct (String.eqb_spec k0 wid) as [->|Hne]; simpl.
    + intros [H|H].
      * injection H as <- <-. right. split; [reflexivity|]. right. exists b0. split; auto.
      * left. now right.
    + intros [H|H]; [left; now left|].
      destruct (IH H) as [Hin|[-> [Hb|[b [Hb1 Hb2]]]]].
      * left. now right.
      * right. split; [reflexivity | now left].
      * right. split; [reflexivity|]. right. exists b. split; [now right | assumption].
Qed.

(** The row of an unclassified file. *)
Definition other_row_of (E : Env) (root folder_name mf : string) (mtime : Z) : other_work :=
  {| ow_id := md5_hex E (path_join root mf); ow_filename := mf; ow_folder_name := folder_name;
     ow_file_path := path_join root mf; ow_media_type := media_type_of mf;
     ow_file_mtime := mtime; ow_is_liked := 0 |}.

Section ArtworkPhase.
Variable E : Env.
Variables root folder_name aid author : string.
Variable existing_pixiv : list string.
Variable media_files : list string.
Variable used0 : list string.

Let pstep := pixiv_step E root folder_name aid author existing_pixiv.

(** A page of a bucket comes from a media file that resolves to the key and
    that was not consumed when the phase began. *)
Definition page_ok (wid : string) (page : Z * string * string) : Prop :=
  exists mf, In mf media_files /\ ~ In mf used0 /\ fst (resolve_work E aid mf) = wid /\
             page = (snd (resolve_work E aid mf), path_join root mf, media_type_of mf).

Definition bucket_ok (wb : string * bucket) : Prop :=
  mem (fst wb) existing_pixiv = false /\ bk_pages (snd wb) <> [] /\
  Forall (page_ok (fst wb)) (bk_pages (snd wb)).

Lemma pixiv_step_shape buf used mf st' :
  pstep (buf, used) mf = Some st' ->
  (mem mf used = true /\ st' = (buf, used))
  \/ (mem mf used = false /\ mem (fst (resolve_work E aid mf)) existing_pixiv = true /\
      st' = (buf, (used ++ [mf])%list))
  \/ (exists mtime fresh,
        mem mf used = false /\ mem (fst (resolve_work E aid mf)) existing_pixiv = false /\
        getmtime_ms E (path_join root mf) = Some mtime /\ bk_pages fresh = [] /\
        st' = (buffer_add (fst (resolve_work E aid mf)) fresh mtime
                 (snd (resolve_work E aid mf), path_join root mf, media_type_of mf) buf,
               (used ++ [mf])%list)).
Proof.
  unfold pstep, pixiv_step. destruct (mem mf used) eqn:Hu.
  - intros H. injection H as <-. now left.
  - destruct (resolve_work E aid mf) as [wid p_num]. simpl.
    destruct (mem wid existing_pixiv) eqn:Hex.
    + intros H. injection H as <-. right. now left.
    + destruct (getmtime_ms E (path_join root mf)) as [mtime|]; [|discriminate].
      intros H. injection H as <-. right. right. eexists mtime, _.
      split; [reflexivity|]. split; [reflexivity|]. split; [reflexivity|].
      apply and_comm. split; reflexivity.
Qed.

Lemma pixiv_loop_sound l buf used buf' used' :
  incl l media_files ->
  incl used0 used ->
  Forall bucket_ok buf ->
  fold_opt pstep l (buf, used) = Some (buf', used') ->
  Forall bucket_ok buf' /\ incl (map fst buf) (map fst buf') /\ incl used used' /\
  incl l used'.
Proof.
  revert buf used. induction l as [|mf r IH]; intros buf used Hl H0 Hok Hf.
  - injection Hf as <- <-. repeat split; auto using incl_refl. easy.
  - rewrite fold_opt_cons in Hf.
    destruct (pstep (buf, used) mf) as [[buf1 used1]|] eqn:Hs; [|discriminate].
    assert (Hr : incl r media_files) by (intros x Hx; apply Hl; now right).
    assert (Hmf : In mf media_files) by (apply Hl; now left).
    apply pixiv_step_shape in Hs.
    destruct Hs as [[Hu H]|[[Hu [Hex H]]|[mtime [fresh [Hu [Hex [Hm [Hfresh H]]]]]]]];
      injection H as -> ->.
    + destruct (IH _ _ Hr H0 Hok Hf) as [H1 [H2 [H3 H4]]]. repeat split; auto.
      intros x [<-|Hx]; [apply H3; now apply mem_In | now apply H4].
    + assert (H0' : incl used0 (used ++ [mf])) by (apply incl_appl, H0).
      destruct (IH _ _ Hr H0' Hok Hf) as [H1 [H2 [H3 H4]]]. repeat split; auto.
      * eapply incl_tran; [apply incl_appl, incl_refl | exact H3].
      * intros x [<-|Hx]; [apply H3, in_or_app; right; now left | now apply H4].
    + assert (Hok1 : Forall bucket_ok
                (buffer_add (fst (resolve_work E aid mf)) fresh mtime
                   (snd (resolve_work E aid mf), path_join root mf, media_type_of mf) buf)).
      { apply Forall_forall. intros [k b'] Hin. apply buffer_add_In in Hin.
        rewrite Forall_forall in Hok.
        assert (Hpage : page_ok (fst (resolve_work E aid mf))
                  (snd (resolve_work E aid mf), path_join root mf, media_type_of mf))
          by (exists mf; repeat split; auto; intros Hin0; apply mem_false in Hu; auto).
        destruct Hin as [Hin|[-> [->|[b [Hb ->]]]]]; [now apply Hok| |].
        - unfold bucket_ok. simpl. rewrite Hfresh. simpl. repeat split; auto. discriminate.
        - destruct (Hok _ Hb) as [Hk [Hne Hall]]. unfold bucket_ok. simpl in *.
          repeat split; auto.
          + intros Habs. apply app_eq_nil in Habs. now destruct Habs.
          + apply Forall_app. split; auto. }
      assert (H0' : incl used0 (used ++ [mf])) by (apply incl_appl, H0).
      destruct (IH _ _ Hr H0' Hok1 Hf) as [H1 [H2 [H3 H4]]]. repeat split; auto.
      * eapply incl_tran; [apply buffer_add_keys | exact H2].
      * eapply incl_tran; [apply incl_appl, incl_refl | exact H3].
      * intros x [<-|Hx]; [apply H3, in_or_app; right; now left | now apply H4].
Qed.

End ArtworkPhase.

Section OthersPhase.
Variable E : Env.
Variables root folder_name : string.
Variables existing_others used_media : list string.

Let ostep := other_step E root folder_name existing_others used_media.

Lemma other_step_shape buf mf buf' :
  ostep buf mf = Some buf' ->
  ((mem mf used_media = true \/ mem (md5_hex E (path_join root mf)) existing_others = true) /\
   buf' = buf)
  \/ (exists mtime, mem mf used_media = false /\
                    mem (md5_hex E (path_join root mf)) existing_others = false /\
                    getmtime_ms E (path_join root mf) = Some mtime /\
                    buf' = (buf ++ [other_row_of E root folder_name mf mtime])%list).
Proof.
  unfold ostep, other_step. destruct (mem mf used_media) eqn:Hu.
  - intros H. injection H as <-. left. auto.
  - destruct (mem (md5_hex E (path_join root mf)) existing_others) eqn:Hex.
    + intros H. injection H as <-. left. auto.
    + destruct (getmtime_ms E (path_join root mf)) as [mtime|]; [|discriminate].
      intros H. injection H as <-. right. now exists mtime.
Qed.

Definition other_ok (l : list string) (o : other_work) : Prop :=
  exists mf mtime, In mf l /\ mem mf used_media = false /\
                   mem (ow_id o) existing_others = false /\
                   o = other_row_of E root folder_name mf mtime.

Lemma others_loop_sound l buf :
  fold_opt ostep l [] = Some buf -> Forall (other_ok l) buf.
Proof.
  apply (fold_opt_invariant ostep (fun b => Forall (other_ok l) b)); [constructor|].
  intros s mf s' Hmf Hs Hstep. apply other_step_shape in Hstep.
  destruct Hstep as [[_ ->]|[mtime [Hu [Hex [_ ->]]]]]; [assumption|].
  apply Forall_app. split; [assumption|]. constructor; [|constructor].
  exists mf, mtime. repeat split; auto.
Qed.

(** Every file that is not consumed either has its id in the snapshot or
    gets a row. *)
Lemma others_loop_complete l buf mf :
  fold_opt ostep l [] = Some buf -> In mf l -> mem mf used_media = false ->
  mem (md5_hex E (path_join root mf)) existing_others = true \/
  exists mtime, In (other_row_of E root folder_name mf mtime) buf.
Proof.
  intros Hf Hin Hu.
  apply (fold_opt_establish ostep
           (fun mf b => mem (md5_hex E (path_join root mf)) existing_others = true \/
                        exists mtime, In (other_row_of E root folder_name mf mtime) b)
           l [] buf mf Hin); [| |assumption].
  - intros s s' Hs. apply other_step_shape in Hs.
    destruct Hs as [[[H|H] _]|[mtime [_ [_ [_ ->]]]]]; [congruence | now left |].
    right. exists mtime. apply in_or_app. right. now left.
  - intros s b s' [H|[mtime H]] Hs; [now left|]. right. exists mtime.
    apply other_step_shape in Hs.
    destruct Hs as [[_ ->]|[mt [_ [_ [_ ->]]]]]; [assumption | apply in_or_app; now left].
Qed.

End OthersPhase.

(** ** The classifier worker as a whole *)

Lemma scan_worker_phases E args tb pb ob :
  scan_worker E args = Some (tb, pb, ob) ->
  exists used1 used2,
    tweet_phase E (t_root args) (basename (t_root args)) (t_existing_tweets args)
                (json_files_of (t_files args)) (media_files_of (t_files args)) = (tb, used1) /\
    pixiv_phase E (t_root args) (basename (t_root args)) (t_existing_pixiv args)
                (media_files_of (t_files args)) used1 = Some (pb, used2) /\
    fold_opt (other_step E (t_root args) (basename (t_root args)) (t_existing_others args) used2)
             (media_files_of (t_files args)) [] = Some ob.
Proof.
  unfold scan_worker.
  destruct (tweet_phase _ _ _ _ _ _) as [tb0 used1] eqn:Ht.
  destruct (pixiv_phase _ _ _ _ _ _) as [[pb0 used2]|] eqn:Hp; [|discriminate].
  destruct (fold_opt _ _ _) as [ob0|] eqn:Ho; [|discriminate].
  intros H. injection H as <- <- <-. exists used1, used2. auto.
Qed.

Lemma pixiv_phase_sound E root folder_name existing_pixiv media_files used pb used' :
  pixiv_phase E root folder_name existing_pixiv media_files used = Some (pb, used') ->
  incl used used' /\
  ((pixiv_folder_match folder_name = None /\ pb = [] /\ used' = used) \/
   (exists aid, pixiv_folder_match folder_name = Some aid /\
                Forall (bucket_ok E root aid existing_pixiv media_files used) pb /\
                incl media_files used')).
Proof.
  unfold pixiv_phase. destruct (pixiv_folder_match folder_name) as [aid|].
  - intros H. apply pixiv_loop_sound with (media_files := media_files) (used0 := used) in H;
      [|apply incl_refl|apply incl_refl|constructor].
    destruct H as [H1 [_ [H3 H4]]]. split; [assumption|]. right. now exists aid.
  - intros H. injection H as <- <-. split; [apply incl_refl|]. now left.
Qed.

(** The three buffers a worker returns. *)
Lemma scan_worker_sound E args tb pb ob :
  scan_worker E args = Some (tb, pb, ob) ->
  let root := t_root args in
  let mfs := media_files_of (t_files args) in
  Forall (tweet_entry_ok E root (t_existing_tweets args) mfs (json_files_of (t_files args))) tb /\
  exists used1 used2,
    tweet_phase E root (basename root) (t_existing_tweets args)
                (json_files_of (t_files args)) mfs = (tb, used1) /\
    incl used1 used2 /\
    (pb = [] \/ exists aid, Forall (bucket_ok E root aid (t_existing_pixiv args) mfs used1) pb) /\
    Forall (other_ok E root (basename root) (t_existing_others args) used2 mfs) ob.
Proof.
  intros H root mfs. apply scan_worker_phases in H.
  destruct H as [used1 [used2 [Ht [Hp Ho]]]].
  split.
  - pose proof (tweet_phase_sound E root (basename root) (t_existing_tweets args) mfs
                  (json_files_of (t_files args))) as Hs.
    subst root mfs. now rewrite Ht in Hs.
  - exists used1, used2. split; [exact Ht|].
    apply pixiv_phase_sound in Hp. destruct Hp as [Hincl Hp]. split; [assumption|]. split.
    + destruct Hp as [[_ [-> _]]|[aid [_ [Hb _]]]]; [now left | right; now exists aid].
    + now apply others_loop_sound in Ho.
Qed.

Lemma final_pages_In wid pages p :
  In p (final_pages_of wid pages) ->
  pp_work_id p = wid /\
  exists page, In page pages /\ pp_file_path p = snd (fst page) /\ pp_media_type p = snd page.
Proof.
  unfold final_pages_of. intros H. apply in_map_iff in H.
  destruct H as [[i page] [<- Hin]]. apply in_combine_r in Hin.
  apply stable_sort_In in Hin. split; [reflexivity|]. now exists page.
Qed.

(** ** Media kinds *)

Lemma media_type_cases f :
  (media_type_of f = "video" /\ endswith_any (lower f) video_exts = true) \/
  (media_type_of f = "image" /\ endswith_any (lower f) video_exts = false).
Proof. unfold media_type_of. destruct (endswith_any (lower f) video_exts); auto. Qed.

Definition is_kind (k : string) : Prop := k = "video" \/ k = "image".

Lemma media_type_is_kind f : is_kind (media_type_of f).
Proof. destruct (media_type_cases f) as [[-> _]|[-> _]]; [now left | now right]. Qed.

(** The three media-kind columns of the database. *)
Definition kinds_ok (db : store) : Prop :=
  Forall (fun p => is_kind (pp_media_type p)) (pixiv_pages db) /\
  Forall (fun m => is_kind (tm_media_type m)) (tweet_media db) /\
  Forall (fun o => is_kind (ow_media_type o)) (other_works db).

(** Every artwork has a page. *)
Definition works_have_pages (db : store) : Prop :=
  forall w, In w (pixiv_works db) -> exists p, In p (pixiv_pages db) /\ pp_work_id p = pw_id w.

Definition store_ok (db : store) : Prop := kinds_ok db /\ works_have_pages db.

(** What the rows of one result look like. *)
Definition result_ok (r : worker_result) : Prop :=
  Forall (fun p => is_kind (pp_media_type p)) (res_pages r) /\
  Forall (fun m => is_kind (tm_media_type m)) (res_tweet_media r) /\
  Forall (fun o => is_kind (ow_media_type o)) (res_others r) /\
  forall w, In w (res_works r) -> exists p, In p (res_pages r) /\ pp_work_id p = pw_id w.

Lemma scan_worker_result_ok E args r : scan_worker E args = Some r -> result_ok r.
Proof.
  destruct r as [[tb pb] ob]. intros H. apply scan_worker_sound in H.
  destruct H as [Ht [used1 [used [_ [_ [Hp Ho]]]]]].
  assert (Hpb : forall wid b, In (wid, b) pb ->
            bk_pages b <> [] /\ Forall (fun page => is_kind (snd page)) (bk_pages b)).
  { intros wid b Hin. destruct Hp as [->|[aid Hp]]; [easy|].
    rewrite Forall_forall in Hp. destruct (Hp _ Hin) as [_ [Hne Hall]]. split; [assumption|].
    eapply Forall_impl; [|exact Hall]. intros page [mf [_ [_ [_ ->]]]]. apply media_type_is_kind. }
  unfold result_ok, res_pages, res_tweet_media, res_others, res_works. simpl.
  split; [|split; [|split]].
  - apply Forall_forall. intros p Hin. apply in_flat_map in Hin.
    destruct Hin as [[wid b] [Hwb Hin]]. apply final_pages_In in Hin.
    destruct Hin as [_ [page [Hpage [_ ->]]]].
    destruct (Hpb _ _ Hwb) as [_ Hall]. rewrite Forall_forall in Hall. now apply Hall.
  - apply Forall_forall. intros m Hin. apply in_flat_map in Hin.
    destruct Hin as [[tw ms] [Hin Hm]]. rewrite Forall_forall in Ht.
    destruct (Ht _ Hin) as [_ [Hms _]]. simpl in *. rewrite Hms in Hm.
    apply in_map_iff in Hm. destruct Hm as [mf [<- _]]. apply media_type_is_kind.
  - eapply Forall_impl; [|exact Ho]. intros o [mf [mtime [_ [_ [_ ->]]]]].
    apply media_type_is_kind.
  - intros w Hin. apply in_map_iff in Hin. destruct Hin as [[wid b] [<- Hwb]].
    destruct (Hpb _ _ Hwb) as [Hne _]. simpl.
    destruct (final_pages_of wid (bk_pages b)) as [|p ps] eqn:Hfp.
    + apply (f_equal (@List.length _)) in Hfp. rewrite final_pages_length in Hfp.
      destruct (bk_pages b); [congruence | discriminate].
    + exists p. split.
      * apply in_flat_map. exists (wid, b). split; [assumption|]. simpl. rewrite Hfp. now left.
      * assert (Hp' : In p (final_pages_of wid (bk_pages b))) by (rewrite Hfp; now left).
        now apply final_pages_In in Hp'.
Qed.

Lemma results_of_In E completed r :
  In r (results_of E completed) <-> exists t, In t completed /\ scan_worker E t = Some r.
Proof.
  unfold results_of. rewrite in_flat_map. split.
  - intros [t [Ht Hr]]. exists t. split; [assumption|].
    destruct (scan_worker E t); [destruct Hr as [->|[]]; reflexivity | destruct Hr].
  - intros [t [Ht Hr]]. exists t. split; [assumption|]. rewrite Hr. now left.
Qed.

Lemma insert_or_ignore_In {A} (key : A -> string) tbl row x :
  In x (insert_or_ignore key tbl row) -> In x tbl \/ x = row.
Proof.
  unfold insert_or_ignore. destruct (mem (key row) (map key tbl)); [now left|].
  intros H. apply in_app_or in H. destruct H as [H|[H|[]]]; auto.
Qed.

Lemma executemany_insert_In {A} (key : A -> string) tbl rows x :
  In x (executemany_insert key tbl rows) -> In x tbl \/ In x rows.
Proof.
  unfold executemany_insert. revert tbl. induction rows as [|r rs IH]; simpl; intros tbl H.
  - now left.
  - apply IH in H. destruct H as [H|H]; [|right; now right].
    apply insert_or_ignore_In in H. destruct H as [H|H]; [now left | right; now left].
Qed.

Lemma insert_or_ignore_incl {A} (key : A -> string) tbl row : incl tbl (insert_or_ignore key tbl row).
Proof.
  unfold insert_or_ignore. destruct (mem (key row) (map key tbl));
    [apply incl_refl | apply incl_appl, incl_refl].
Qed.

Lemma executemany_insert_incl {A} (key : A -> string) tbl rows :
  incl tbl (executemany_insert key tbl rows).
Proof.
  unfold executemany_insert. revert tbl. induction rows as [|r rs IH]; simpl; intros tbl.
  - apply incl_refl.
  - eapply incl_tran; [apply insert_or_ignore_incl | apply IH].
Qed.

Lemma written_store_ok db rs :
  store_ok db -> Forall result_ok rs -> store_ok (written db rs).
Proof.
  intros [[Kp [Kt Ko]] Hw] Hrs. rewrite Forall_forall in Hrs.
  split; [split; [|split]|]; unfold written; simpl.
  - apply Forall_app. split; [assumption|]. apply Forall_flat_map, Forall_forall.
    intros r Hr. apply (Hrs r Hr).
  - apply Forall_app. split; [assumption|]. apply Forall_flat_map, Forall_forall.
    intros r Hr. apply (Hrs r Hr).
  - apply Forall_forall. intros o Ho. apply executemany_insert_In in Ho.
    destruct Ho as [Ho|Ho].
    + rewrite Forall_forall in Ko. auto.
    + apply in_flat_map in Ho. destruct Ho as [r [Hr Ho]].
      destruct (Hrs r Hr) as [_ [_ [Hk _]]]. rewrite Forall_forall in Hk. auto.
  - intros w Hin. apply executemany_insert_In in Hin. destruct Hin as [Hin|Hin].
    + destruct (Hw w Hin) as [p [Hp1 Hp2]]. exists p. split; [|assumption].
      apply in_or_app. now left.
    + apply in_flat_map in Hin. destruct Hin as [r [Hr Hin]].
      destruct (Hrs r Hr) as [_ [_ [_ Hpages]]]. destruct (Hpages w Hin) as [p [Hp1 Hp2]].
      exists p. split; [|assumption]. apply in_or_app. right.
      apply in_flat_map. now exists r.
Qed.

Lemma reconcile_store_ok db : store_ok db -> store_ok (fst (reconcile db)).
Proof.
  intros [[Kp [Kt Ko]] Hw]. split; [split; [|split]|]; simpl; auto.
  apply Forall_forall. intros o Ho. apply filter_In in Ho. rewrite Forall_forall in Ko.
  now apply Ko.
Qed.

Lemma run_scan_body_store_ok E completed db :
  store_ok db -> store_ok (fst (run_scan_body E completed db)).
Proof.
  intros H. rewrite run_scan_body_written. apply reconcile_store_ok, written_store_ok; auto.
  apply Forall_forall. intros r Hr. apply results_of_In in Hr. destruct Hr as [t [_ Hr]].
  now apply scan_worker_result_ok in Hr.
Qed.

Lemma update_liked_map {A B} (key : A -> string) set v id (f : A -> B) tbl :
  (forall r, f (set v r) = f r) -> map f (update_liked key set v id tbl) = map f tbl.
Proof.
  intros H. unfold update_liked. rewrite map_map. apply map_ext. intros r.
  destruct (String.eqb (key r) id); auto.
Qed.

Lemma toggle_like_store_ok type id liked db :
  store_ok db -> store_ok (fst (toggle_like type id liked db)).
Proof.
  intros [[Kp [Kt Ko]] Hw]. unfold toggle_like. cbn [fst].
  destruct (String.eqb type "pixiv"); [|destruct (String.eqb type "tweet")].
  - split; [now split|]. intros w Hin. simpl in *. unfold update_liked in Hin.
    apply in_map_iff in Hin. destruct Hin as [w0 [Hw0 Hin]].
    destruct (Hw w0 Hin) as [p [Hp1 Hp2]]. exists p. split; [assumption|].
    rewrite Hp2. destruct (String.eqb (pw_id w0) id); now subst.
  - split; [now split|]. exact Hw.
  - split; [|exact Hw]. split; [assumption|split; [assumption|]]. simpl.
    unfold update_liked. apply Forall_forall. intros o Hin. apply in_map_iff in Hin.
    destruct Hin as [o0 [Ho0 Hin]]. rewrite Forall_forall in Ko. specialize (Ko o0 Hin).
    destruct (String.eqb (ow_id o0) id); now subst.
Qed.

Lemma reachable_store_ok db : reachable db -> store_ok db.
Proof.
  induction 1 as [|E walk db db' _ IH [completed [_ ->]]|type id liked db _ IH].
  - split; [repeat split; constructor | intros w []].
  - now apply run_scan_body_store_ok.
  - now apply toggle_like_store_ok.
Qed.

(** ** Primary keys *)

(** No two rows of a top-level table share their id. *)
Definition ids_unique (db : store) : Prop :=
  NoDup (map pw_id (pixiv_works db)) /\ NoDup (map tw_id (tweets db)) /\
  NoDup (map ow_id (other_works db)).

Lemma insert_or_ignore_NoDup {A} (key : A -> string) tbl row :
  NoDup (map key tbl) -> NoDup (map key (insert_or_ignore key tbl row)).
Proof.
  intros H. unfold insert_or_ignore. destruct (mem (key row) (map key tbl)) eqn:Hm; [assumption|].
  rewrite map_app. simpl. apply NoDup_app; [assumption | repeat constructor; easy |].
  intros x Hx [<-|[]]. apply mem_false in Hm. contradiction.
Qed.

Lemma executemany_insert_NoDup {A} (key : A -> string) tbl rows :
  NoDup (map key tbl) -> NoDup (map key (executemany_insert key tbl rows)).
Proof.
  unfold executemany_insert. revert tbl. induction rows as [|r rs IH]; simpl; intros tbl H.
  - assumption.
  - apply IH. now apply insert_or_ignore_NoDup.
Qed.

Lemma filter_NoDup_map {A} (key : A -> string) (f : A -> bool) l :
  NoDup (map key l) -> NoDup (map key (filter f l)).
Proof.
  induction l as [|x r IH]; simpl; intros H; [constructor|].
  inversion H as [|? ? Hx Hr]; subst. destruct (f x); simpl; [|auto].
  constructor; [|auto]. intros Hin. apply Hx. apply in_map_iff in Hin.
  destruct Hin as [y [Hy Hin]]. apply filter_In in Hin. apply in_map_iff. exists y. tauto.
Qed.

Lemma written_ids_unique db rs : ids_unique db -> ids_unique (written db rs).
Proof.
  intros [Hp [Ht Ho]]. repeat split; simpl; now apply executemany_insert_NoDup.
Qed.

Lemma reconcile_ids_unique db : ids_unique db -> ids_unique (fst (reconcile db)).
Proof.
  intros [Hp [Ht Ho]]. repeat split; simpl; auto. now apply filter_NoDup_map.
Qed.

Lemma run_scan_body_ids_unique E completed db :
  ids_unique db -> ids_unique (fst (run_scan_body E completed db)).
Proof.
  intros H. rewrite run_scan_body_written. now apply reconcile_ids_unique, written_ids_unique.
Qed.

Lemma toggle_like_ids_unique type id liked db :
  ids_unique db -> ids_unique (fst (toggle_like type id liked db)).
Proof.
  intros [Hp [Ht Ho]]. unfold toggle_like. cbn [fst].
  destruct (String.eqb type "pixiv"); [|destruct (String.eqb type "tweet")];
    repeat split; simpl; auto; rewrite update_liked_map; auto.
Qed.

Lemma reachable_ids_unique db : reachable db -> ids_unique db.
Proof.
  induction 1 as [|E walk db db' _ IH [completed [_ ->]]|type id liked db _ IH].
  - repeat split; constructor.
  - now apply run_scan_body_ids_unique.
  - now apply toggle_like_ids_unique.
Qed.

(** [fetchone] on a primary key finds the row itself. *)
Lemma find_by_key {A} (key : A -> string) l r :
  NoDup (map key l) -> In r l -> find (fun x => String.eqb (key x) (key r)) l = Some r.
Proof.
  induction l as [|x rest IH]; simpl; intros Hnd Hin; [easy|].
  inversion Hnd as [|? ? Hx Hr]; subst.
  destruct Hin as [->|Hin]; [now rewrite String.eqb_refl|].
  destruct (String.eqb_spec (key x) (key r)) as [Heq|Hne]; [|auto].
  exfalso. apply Hx. rewrite Heq. now apply in_map.
Qed.

Lemma media_files_of_In files mf :
  In mf (media_files_of files) -> In mf files /\ is_media_file mf = true.
Proof.
  unfold media_files_of, visible_files. intros H. apply filter_In in H.
  destruct H as [H1 H2]. apply filter_In in H1. tauto.
Qed.

Lemma media_for_tweet_In media_files tid mf :
  In mf (media_for_tweet media_files tid) <-> In mf media_files /\ tweet_id_of mf = Some tid.
Proof.
  unfold media_for_tweet. rewrite filter_In. unfold opt_string_eqb.
  destruct (tweet_id_of mf) as [x|].
  - rewrite String.eqb_eq. split; intros [H1 H2]; split; congruence.
  - split; intros [H1 H2]; discriminate.
Qed.

(** C10.  A file counts as a media file only if its lowercased name ends
    with one of the six extensions; the kind given to a file is ["video"]
    exactly when the lowercased name ends with [.mp4] or [.webm] and
    ["image"] exactly when it does not; every post medium, artwork page and
    unclassified row a worker returns belongs to a media file of the
    directory and carries the kind of that file; and in every database the
    program builds the three kind columns hold nothing but ["video"] and
    ["image"]. *)
Theorem media_kinds :
  (forall f, is_media_file f = true ->
             endswith_any (lower f) [".jpg"; ".jpeg"; ".png"; ".gif"; ".mp4"; ".webm"] = true) /\
  (forall f,
      let video_ext := endswith (lower f) ".mp4" = true \/ endswith (lower f) ".webm" = true in
      (media_type_of f = "video" <-> video_ext) /\ (media_type_of f = "image" <-> ~ video_ext)) /\
  (forall E args tb pb ob,
      scan_worker E args = Some (tb, pb, ob) ->
      let root := t_root args in
      let mfs := media_files_of (t_files args) in
      (forall tw ms m, In (tw, ms) tb -> In m ms ->
          exists mf, In mf mfs /\ is_media_file mf = true /\ m = tm_of root (tw_id tw) mf) /\
      (forall wid b p, In (wid, b) pb -> In p (final_pages_of wid (bk_pages b)) ->
          exists mf, In mf mfs /\ is_media_file mf = true /\
                     pp_file_path p = path_join root mf /\ pp_media_type p = media_type_of mf) /\
      (forall o, In o ob ->
          In (ow_filename o) mfs /\ is_media_file (ow_filename o) = true /\
          ow_file_path o = path_join root (ow_filename o) /\
          ow_media_type o = media_type_of (ow_filename o))) /\
  (forall db, reachable db -> kinds_ok db).
Proof.
  split; [|split; [|split]].
  - intros f H. unfold is_media_file in H. apply andb_true_iff in H. apply H.
  - intros f video_ext. subst video_ext. unfold media_type_of, endswith_any, video_exts.
    cbn [existsb]. rewrite orb_false_r.
    destruct (endswith (lower f) ".mp4"); destruct (endswith (lower f) ".webm"); simpl;
      (split; split; intros H; try reflexivity; try discriminate; try tauto;
       try (destruct H; discriminate); try (exfalso; apply H; tauto);
       try (intros [H'|H']; discriminate)).
  - intros E args tb pb ob H root mfs. apply scan_worker_sound in H.
    destruct H as [Ht [used1 [used [_ [_ [Hp Ho]]]]]]. fold root mfs in Ht, Hp, Ho.
    split; [|split].
    + intros tw ms m Hin Hm. rewrite Forall_forall in Ht. destruct (Ht _ Hin) as [_ [Hms _]].
      simpl in Hms. rewrite Hms in Hm. apply in_map_iff in Hm. destruct Hm as [mf [<- Hmf]].
      apply media_for_tweet_In in Hmf. destruct Hmf as [Hmf _]. exists mf.
      split; [assumption|]. split; [|reflexivity]. now apply media_files_of_In in Hmf.
    + intros wid b p Hin Hp'. destruct Hp as [->|[aid Hp]]; [easy|].
      rewrite Forall_forall in Hp. destruct (Hp _ Hin) as [_ [_ Hall]]. simpl in Hall.
      apply final_pages_In in Hp'. destruct Hp' as [_ [page [Hpage [Hpath Hkind]]]].
      rewrite Forall_forall in Hall. destruct (Hall _ Hpage) as [mf [Hmf [_ [_ ->]]]].
      exists mf. split; [assumption|]. split; [now apply media_files_of_In in Hmf|].
      now rewrite Hpath, Hkind.
    + intros o Hin. rewrite Forall_forall in Ho.
      destruct (Ho _ Hin) as [mf [mtime [Hmf [_ [_ ->]]]]]. simpl.
      split; [assumption|]. split; [now apply media_files_of_In in Hmf|]. now split.
  - intros db H. apply reachable_store_ok in H. apply H.
Qed.

Definition mixed_task : task :=
  {| t_root := "/r/mix"; t_files := ["clip.MP4"; "pic.PNG"; "notes.txt"; ".hidden.jpg"];
     t_existing_pixiv := []; t_existing_tweets := []; t_existing_others := [] |}.

Lemma media_kinds_witness :
  match scan_worker demo_env mixed_task with
  | Some (_, _, ob) => map (fun o => (ow_filename o, ow_media_type o)) ob
                       = [("clip.MP4", "video"); ("pic.PNG", "image")]
  | None => False
  end /\
  kinds_ok (fst (run_scan_body demo_env (make_tasks art_walk empty_store) empty_store)).
Proof.
  destruct media_kinds as [_ [_ [Hworker Hdb]]]. split.
  - destruct (scan_worker demo_env mixed_task) as [[[tb pb] ob]|] eqn:Hw;
      [|vm_compute in Hw; discriminate].
    destruct (Hworker demo_env mixed_task tb pb ob Hw) as [_ [_ Ho]].
    vm_compute in Hw. injection Hw as _ _ <-. reflexivity.
  - apply Hdb. eapply reach_scan; [apply reach_init|].
    exists (make_tasks art_walk empty_store). split; [apply Permutation_refl | reflexivity].
Defined.

(** ** Content filters *)

Lemma final_ids_In like db P x :
  In x (final_ids like db P) ->
  exists fetch_dir fetch_limit fetch_target,
    In x (fetch_ids like db P fetch_dir fetch_limit fetch_target).
Proof.
  unfold final_ids.
  destruct (sp_target_date P) as [target|];
    [destruct (String.eqb (sp_direction P) "around")|];
    try destruct (String.eqb (sp_direction P) "newer");
    try destruct (String.eqb (sp_sort P) "desc");
    intros H; rewrite ?in_app_iff, <- ?in_rev in H;
    try destruct H as [H|H]; eauto.
Qed.

Lemma build_query_video P op fetch_target t :
  sp_filter_type P = "video" -> In CVideo (build_query P op fetch_target t).
Proof.
  intros H. unfold build_query. rewrite H. simpl.
  rewrite !in_app_iff. right. right. now left.
Qed.

Lemma build_query_image P op fetch_target t :
  sp_filter_type P = "image" -> In CImage (build_query P op fetch_target t).
Proof.
  intros H. unfold build_query. rewrite H. simpl.
  rewrite !in_app_iff. right. right. now left.
Qed.

(** A returned record is the hydration of a row that passed [where]. *)
Lemma get_stream_inv like to_url db P rec :
  ids_unique db ->
  In rec (get_stream like to_url db P) ->
  exists t r op fetch_target,
    In r (rows_of db t) /\
    hydrate to_url db (type_label t, row_id r, row_mtime r) = [rec] /\
    forall c, In c (build_query P op fetch_target t) -> eval_cond like db r c = true.
Proof.
  intros Hu H. unfold get_stream in H. apply in_flat_map in H. destruct H as [x [Hx Hrec]].
  apply final_ids_In in Hx. destruct Hx as [dir [lim [tgt Hx]]].
  apply fetch_ids_inv in Hx. destruct Hx as [t [r [_ [Hr [-> Hc]]]]].
  exists t, r, (fst (select_op (sp_sort P) dir)), tgt. split; [assumption|]. split; [|assumption].
  destruct Hu as [Hp [Ht Ho]].
  destruct t; simpl in Hr; apply in_map_iff in Hr; destruct Hr as [w [<- Hw]];
    unfold hydrate in *; simpl in *.
  - rewrite (find_by_key pw_id _ w Hp Hw) in *. now destruct Hrec as [<-|[]].
  - rewrite (find_by_key tw_id _ w Ht Hw) in *. now destruct Hrec as [<-|[]].
  - rewrite (find_by_key ow_id _ w Ho Hw) in *. now destruct Hrec as [<-|[]].
Qed.

Lemma existsb_video_pages db wid :
  existsb (fun p => String.eqb (pp_media_type p) "video") (pages_of db wid) = true ->
  exists p, In p (pages_of db wid) /\ pp_media_type p = "video".
Proof.
  intros H. apply existsb_exists in H. destruct H as [p [Hp Hk]].
  apply String.eqb_eq in Hk. now exists p.
Qed.

Lemma existsb_video_media db tid :
  existsb (fun m => String.eqb (tm_media_type m) "video") (media_of db tid) = true <->
  exists m, In m (media_of db tid) /\ tm_media_type m = "video".
Proof.
  rewrite existsb_exists. split; intros [m [Hm Hk]]; exists m; split; auto;
    now apply String.eqb_eq.
Qed.


Definition video_walk : list (string * list string) :=
  [("/r/tw", ["20230101123456789.json"; "v_20230101123456789.mp4"]);
   ("/r/art_123", ["12345_p0.png"; "12345_p1.jpg"])].

Definition video_store : store :=
  fst (run_scan_body demo_env (make_tasks video_walk empty_store) empty_store).

Definition stream_of (filter_type : string) : stream_params :=
  {| sp_limit := 50; sp_offset := 0; sp_source := "all"; sp_q := None; sp_sort := "desc";
     sp_folder := None; sp_filter_type := filter_type; sp_target_date := None;
     sp_direction := "older" |}.

Lemma video_store_reachable : reachable video_store.
Proof.
  eapply reach_scan; [apply reach_init|].
  exists (make_tasks video_walk empty_store). split; [apply Permutation_refl | reflexivity].
Qed.


(** ** Post media *)

Lemma string_app_inj (r a b : string) : r ++ a = r ++ b -> a = b.
Proof. induction r as [|c r IH]; simpl; intros H; [assumption|]. injection H as H. auto. Qed.

Lemma path_join_inj root a b : path_join root a = path_join root b -> a = b.
Proof.
  unfold path_join. destruct (String.eqb root ""); [easy|].
  destruct (endswith root "/"); intros H; apply string_app_inj in H; [assumption|].
  now apply (string_app_inj "/") in H.
Qed.

Definition sidecar_task : task :=
  {| t_root := "/r/tw";
     t_files := ["20230101123456789.json"; "photo_20230101123456789_1.jpg";
                 "IMG20230101123456789.jpg"];
     t_existing_pixiv := []; t_existing_tweets := []; t_existing_others := [] |}.




(** ** Single flight *)

Definition pc_eq_dec (a b : pc) : {a = b} + {a <> b}.
Proof. decide equality. Defined.

Definition count_pc (p : pc) (ths : list pc) : nat := count_occ pc_eq_dec ths p.

Lemma active_scans_count s :
  active_scans s = (count_pc InTry (sys_threads s) + count_pc InFinally (sys_threads s))%nat.
Proof.
  unfold active_scans, count_pc. induction (sys_threads s) as [|a r IH]; [reflexivity|].
  destruct a; simpl; rewrite ?IH; lia.
Qed.

Lemma nth_error_set_pc ths i j p :
  nth_error (set_pc j p ths) i
  = if Nat.eqb i j then match nth_error ths i with Some _ => Some p | None => None end
    else nth_error ths i.
Proof.
  revert i j. induction ths as [|a r IH]; intros i j.
  - destruct j; destruct i; simpl; try reflexivity. now destruct (Nat.eqb i j).
  - destruct j as [|j]; destruct i as [|i]; simpl; try reflexivity. apply IH.
Qed.

Definition b2n (b : bool) : nat := if b then 1%nat else 0%nat.

Lemma count_set_pc ths i old p x :
  nth_error ths i = Some old ->
  (count_pc x (set_pc i p ths) + b2n (if pc_eq_dec old x then true else false)
   = count_pc x ths + b2n (if pc_eq_dec p x then true else false))%nat.
Proof.
  unfold count_pc. revert i. induction ths as [|a r IH]; intros i H.
  - now destruct i.
  - destruct i as [|i]; simpl in H |- *.
    + injection H as ->.
      destruct (pc_eq_dec old x); destruct (pc_eq_dec p x); simpl; lia.
    + specialize (IH i H). destruct (pc_eq_dec a x); simpl in *; lia.
Qed.

Lemma count_pc_nth ths i x : nth_error ths i = Some x -> (1 <= count_pc x ths)%nat.
Proof.
  unfold count_pc. intros H. apply nth_error_In in H.
  now apply (count_occ_In pc_eq_dec) in H.
Qed.

Lemma count_pc_app x ths p :
  count_pc x (ths ++ [p]) = (count_pc x ths + b2n (if pc_eq_dec p x then true else false))%nat.
Proof.
  unfold count_pc. rewrite count_occ_app. simpl. destruct (pc_eq_dec p x); simpl; lia.
Qed.

(** The flag counts the threads inside a pass, and a thread about to run
    its [finally] has left a final status. *)
Definition flag_inv (s : system) : Prop :=
  (count_pc InTry (sys_threads s) + count_pc InFinally (sys_threads s)
   = b2n (is_scanning (sys_g s)))%nat /\
  ((0 < count_pc InFinally (sys_threads s))%nat ->
   is_final (scan_status_msg (sys_g s)) = true).

Ltac count_step H p :=
  let Ht := fresh "Ht" in
  let Hf := fresh "Hf" in
  pose proof (count_set_pc _ _ _ p InTry H) as Ht;
  pose proof (count_set_pc _ _ _ p InFinally H) as Hf;
  pose proof (count_pc_nth _ _ _ H);
  simpl in Ht, Hf.

Lemma step_flag_inv s s' : flag_inv s -> step s s' -> flag_inv s'.
Proof.
  intros [Hsum Hfin] Hstep. unfold flag_inv in *.
  destruct Hstep as [g ths|g ths i Hi Hflag|g ths i Hi Hflag|g ths i db' msg' Hi Hmsg
                    |g ths i p t o d Hi|g ths i e Hi|g ths i Hi|g ths type id liked];
    simpl in *.
  - rewrite !count_pc_app. simpl. rewrite !Nat.add_0_r. auto.
  - count_step Hi Returned. simpl in *.
    split; [lia|]. intros H0. apply Hfin. lia.
  - count_step Hi InTry. simpl in *.
    rewrite Hflag in Hsum. simpl in Hsum. split; [lia|]. intros H0. lia.
  - pose proof (count_pc_nth _ _ _ Hi). split; [assumption|]. intros H0.
    destruct (is_scanning g); simpl in Hsum; lia.
  - count_step Hi InFinally. simpl in *.
    split; [lia | reflexivity].
  - count_step Hi InFinally. simpl in *.
    split; [lia | reflexivity].
  - count_step Hi Returned. simpl in *.
    destruct (is_scanning g); simpl in Hsum; split; try lia.
  - auto.
Qed.

Lemma reachable_flag_inv s : sys_reachable s -> flag_inv s.
Proof.
  induction 1 as [|s s' _ IH Hstep]; [|now apply (step_flag_inv s)].
  split; [reflexivity | simpl; lia].
Qed.

(** What one step does to a given thread. *)
Lemma step_thread s s' i a :
  step s s' -> nth_error (sys_threads s) i = Some a ->
  nth_error (sys_threads s') i = Some a \/
  (a = AtLock /\ is_scanning (sys_g s) = true /\
   nth_error (sys_threads s') i = Some Returned /\ sys_g s' = sys_g s /\
   sys_threads s' = set_pc i Returned (sys_threads s)) \/
  (a = AtLock /\ is_scanning (sys_g s) = false /\ nth_error (sys_threads s') i = Some InTry) \/
  (a = InTry /\ nth_error (sys_threads s') i = Some InFinally) \/
  (a = InFinally /\ nth_error (sys_threads s') i = Some Returned /\
   is_scanning (sys_g s') = false /\
   scan_status_msg (sys_g s') = scan_status_msg (sys_g s)).
Proof.
  intros Hstep Hi.
  destruct Hstep as [g ths|g ths j Hj Hflag|g ths j Hj Hflag|g ths j db' msg' Hj Hmsg
                    |g ths j p t o d Hj|g ths j e Hj|g ths j Hj|g ths type id liked];
    simpl in *.
  - left. rewrite nth_error_app1; [assumption|]. apply nth_error_Some. congruence.
  - rewrite nth_error_set_pc. destruct (Nat.eqb_spec i j) as [->|Hne]; [|now left].
    rewrite Hi in Hj. injection Hj as ->. rewrite Hi. right. left. repeat split; auto.
  - rewrite nth_error_set_pc. destruct (Nat.eqb_spec i j) as [->|Hne]; [|now left].
    rewrite Hi in Hj. injection Hj as ->. rewrite Hi. right. right. left. repeat split; auto.
  - now left.
  - rewrite nth_error_set_pc. destruct (Nat.eqb_spec i j) as [->|Hne]; [|now left].
    rewrite Hi in Hj. injection Hj as ->. rewrite Hi. right. right. right. left. now split.
  - rewrite nth_error_set_pc. destruct (Nat.eqb_spec i j) as [->|Hne]; [|now left].
    rewrite Hi in Hj. injection Hj as ->. rewrite Hi. right. right. right. left. now split.
  - rewrite nth_error_set_pc. destruct (Nat.eqb_spec i j) as [->|Hne]; [|now left].
    rewrite Hi in Hj. injection Hj as ->. rewrite Hi. right. right. right. right.
    repeat split; auto.
  - now left.
Qed.


Definition demo_globals (flag : bool) (msg : status) : globals :=
  {| is_scanning := flag; scan_status_msg := msg; g_db := empty_store |}.

Definition demo_system (ths : list pc) (flag : bool) (msg : status) : system :=
  {| sys_g := demo_globals flag msg; sys_threads := ths |}.

Lemma demo_running_reachable : sys_reachable (demo_system [InTry; AtLock] true MsgNone).
Proof.
  apply (sys_reach_step (demo_system [AtLock; AtLock] false MsgNone)).
  - apply (sys_reach_step (demo_system [AtLock] false MsgNone)).
    + apply (sys_reach_step init_system); [constructor|].
      apply (step_spawn (demo_globals false MsgNone) []).
    + apply (step_spawn (demo_globals false MsgNone) [AtLock]).
  - apply (step_enter (demo_globals false MsgNone) [AtLock; AtLock] 0); reflexivity.
Qed.


(** ** The "around" request *)

Lemma ordered_app {A} (le : A -> A -> bool) l1 l2 :
  ordered le l1 -> ordered le l2 ->
  (forall x y, In x l1 -> In y l2 -> le x y = true) ->
  ordered le (l1 ++ l2).
Proof.
  induction 1 as [|x l Hx Hl IH]; simpl; intros H2 Hc; [assumption|].
  constructor.
  - apply Forall_app. split; [assumption|]. apply Forall_forall. intros y Hy.
    apply Hc; [now left | assumption].
  - apply IH; [assumption|]. intros a b Ha Hb. apply Hc; [now right | assumption].
Qed.

Lemma ordered_rev o l : ordered (key_le o) l ->
  ordered (key_le match o with ASC => DESC | DESC => ASC end) (rev l).
Proof.
  induction 1 as [|x l Hx Hl IH]; simpl; [constructor|].
  apply ordered_app; [assumption | repeat constructor |].
  intros a b Ha [<-|[]]. apply in_rev in Ha. rewrite Forall_forall in Hx.
  specialize (Hx a Ha). now destruct o.
Qed.

Lemma fetch_ids_length like db P fetch_dir fetch_limit fetch_target :
  0 <= fetch_limit ->
  Z.of_nat (List.length (fetch_ids like db P fetch_dir fetch_limit fetch_target)) <= fetch_limit.
Proof.
  intros H. unfold fetch_ids. destruct (select_op (sp_sort P) fetch_dir) as [op order_s].
  now apply py_slice_length.
Qed.

(** Under the newest-first mode an "around" request with a page size
    [0 <= N] returns at most [N] elements, newest first: the elements above
    the anchor, then those at or below it. *)
Lemma around_newest_first like db P target :
  sp_direction P = "around" -> sp_sort P = "desc" -> sp_target_date P = Some target ->
  0 <= sp_limit P ->
  Z.of_nat (List.length (final_ids like db P)) <= sp_limit P /\
  ordered (key_le DESC) (final_ids like db P) /\
  exists newer older,
    final_ids like db P = (newer ++ older)%list /\
    Forall (fun x => target < item_key x) newer /\
    Forall (fun x => item_key x <= target) older.
Proof.
  intros Hd Hs Ht Hl. unfold final_ids. rewrite Ht, Hd, Hs. simpl.
  set (half := sp_limit P / 2).
  assert (Hhalf : 0 <= half /\ 2 * half <= sp_limit P).
  { unfold half. split; [apply Z.div_pos; lia|]. apply Z.mul_div_le. lia. }
  pose proof (fetch_ids_cmp like db P "newer" half target) as Hn1.
  pose proof (fetch_ids_ordered like db P "newer" half (Some target)) as Hn2.
  pose proof (fetch_ids_cmp like db P "older" half target) as Ho1.
  pose proof (fetch_ids_ordered like db P "older" half (Some target)) as Ho2.
  rewrite Hs in Hn1, Hn2, Ho1, Ho2. simpl in Hn1, Hn2, Ho1, Ho2.
  assert (Hn : Forall (fun x => target < item_key x)
                 (rev (fetch_ids like db P "newer" half (Some target)))).
  { apply Forall_rev. eapply Forall_impl; [|exact Hn1]. intros x Hx. simpl in Hx.
    now apply Z.ltb_lt. }
  assert (Ho : Forall (fun x => item_key x <= target)
                 (fetch_ids like db P "older" half (Some target))).
  { eapply Forall_impl; [|exact Ho1]. intros x Hx. simpl in Hx. now apply Z.leb_le. }
  split; [|split].
  - rewrite length_app, length_rev.
    pose proof (fetch_ids_length like db P "newer" half (Some target) (proj1 Hhalf)).
    pose proof (fetch_ids_length like db P "older" half (Some target) (proj1 Hhalf)). lia.
  - apply ordered_app; [apply (ordered_rev ASC), Hn2 | exact Ho2 |].
    intros x y Hx Hy. rewrite Forall_forall in Hn, Ho.
    specialize (Hn x Hx). specialize (Ho y Hy). simpl. apply Z.leb_le. lia.
  - eexists _, _. split; [reflexivity|]. split; assumption.
Qed.

(** A world in which the modification time of a file is the length of its
    path, and a directory of eight unclassified files. *)
Definition length_env : Env :=
  {| md5_hex := fun s => "md5:" ++ s;
     getmtime_ms := fun p => Some (Z.of_nat (String.length p));
     load_sidecar := fun _ => None |}.

Definition misc_walk : list (string * list string) :=
  [("/r/misc", ["a.png"; "bb.png"; "ccc.png"; "dddd.png"; "eeeee.png"; "ffffff.png";
                "ggggggg.png"; "hhhhhhhh.png"])].

Definition misc_store : store :=
  fst (run_scan_body length_env (make_tasks misc_walk empty_store) empty_store).

Definition around_request (sort : string) : stream_params :=
  {| sp_limit := 6; sp_offset := 0; sp_source := "all"; sp_q := None; sp_sort := sort;
     sp_folder := None; sp_filter_type := "all"; sp_target_date := Some 17;
     sp_direction := "around" |}.

(** C7, where the code departs from it.  Eight files with the modification
    times 13 to 20, anchor 17, page size 6.  Newest first the page reads
    20 19 18 | 17 16 15.  Oldest first the two halves hold 14 15 16 and
    17 18 19, but the page reads 16 15 14 19 18 17: each half runs against
    the display order, so the page is not in ascending order. *)
Theorem around_oldest_first_order :
  map row_mtime (rows_of misc_store OtherWorks) = [13; 14; 15; 16; 17; 18; 19; 20] /\
  map item_key (final_ids (fun _ _ => true) misc_store (around_request "desc"))
  = [20; 19; 18; 17; 16; 15] /\
  map item_key (final_ids (fun _ _ => true) misc_store (around_request "asc"))
  = [16; 15; 14; 19; 18; 17] /\
  ~ ordered (key_le ASC) (final_ids (fun _ _ => true) misc_store (around_request "asc")).
Proof.
  split; [vm_compute; reflexivity|]. split; [vm_compute; reflexivity|].
  split; [vm_compute; reflexivity|].
  intros H.
  assert (Hk : exists a b rest,
             final_ids (fun _ _ => true) misc_store (around_request "asc") = a :: b :: rest /\
             item_key a = 16 /\ item_key b = 15).
  { vm_compute. eexists _, _, _. split; [reflexivity|]. split; reflexivity. }
  destruct Hk as [a [b [rest [Heq [Ha Hb]]]]]. rewrite Heq in H.
  inversion H as [|? ? Hall _]; subst. inversion Hall as [|? ? Hab _]; subst.
  simpl in Hab. rewrite Ha, Hb in Hab. discriminate.
Qed.

(** ** Scanning an unchanged tree again *)

Lemma pixiv_loop_used E root folder_name aid author existing_pixiv media_files used0 buf' used' :
  fold_opt (pixiv_step E root folder_name aid author existing_pixiv) media_files ([], used0)
  = Some (buf', used') ->
  forall f, In f used' ->
    In f used0 \/
    (In f media_files /\
     (mem (fst (resolve_work E aid f)) existing_pixiv = true \/
      In (fst (resolve_work E aid f)) (map fst buf'))).
Proof.
  intros H.
  apply (fold_opt_invariant (pixiv_step E root folder_name aid author existing_pixiv)
           (fun st => forall f, In f (snd st) ->
              In f used0 \/
              (In f media_files /\
               (mem (fst (resolve_work E aid f)) existing_pixiv = true \/
                In (fst (resolve_work E aid f)) (map fst (fst st)))))
           media_files ([], used0) (buf', used')); [simpl; auto | | exact H].
  intros [buf used] mf st' Hmf Hst Hstep. apply pixiv_step_shape in Hstep.
  destruct Hstep as [[_ ->]|[[_ [Hex ->]]|[mtime [fresh [_ [_ [_ [_ ->]]]]]]]]; simpl in *.
  - exact Hst.
  - intros f Hf. apply in_app_or in Hf. destruct Hf as [Hf|[<-|[]]]; [now apply Hst|].
    right. split; [assumption | now left].
  - intros f Hf. apply in_app_or in Hf. destruct Hf as [Hf|[<-|[]]].
    + destruct (Hst f Hf) as [H0|[H1 [H2|H2]]]; [now left | right; split; auto |].
      right. split; [assumption|]. right.
      now apply (proj2 (buffer_add_keys _ _ _ _ _)).
    + right. split; [assumption|]. right.
      apply (proj1 (buffer_add_keys _ _ _ _ _)).
Qed.

Lemma insert_or_ignore_key {A} (key : A -> string) tbl row :
  In (key row) (map key (insert_or_ignore key tbl row)).
Proof.
  unfold insert_or_ignore. destruct (mem (key row) (map key tbl)) eqn:H.
  - now apply mem_In.
  - rewrite map_app. apply in_or_app. right. now left.
Qed.

Lemma executemany_insert_key {A} (key : A -> string) tbl rows r :
  In r rows -> In (key r) (map key (executemany_insert key tbl rows)).
Proof.
  unfold executemany_insert. revert tbl. induction rows as [|x rs IH]; simpl; intros tbl H; [easy|].
  destruct H as [->|H]; [|now apply IH].
  pose proof (insert_or_ignore_key key tbl r) as Hk. apply in_map_iff in Hk.
  destruct Hk as [x [<- Hx]]. apply in_map.
  now apply (executemany_insert_incl key (insert_or_ignore key tbl r) rs).
Qed.

Section RescanWorker.
Variable E : Env.
Variable root : string.
Variable files : list string.
Variables xp1 xt1 xo1 xp2 xt2 xo2 : list string.
Variable was_claimed : string -> bool.
Variable tb1 : list (tweet * list tweet_medium).
Variable pb1 : pixiv_buffer.
Variable ob1 : list other_work.

Let t1 := {| t_root := root; t_files := files; t_existing_pixiv := xp1;
             t_existing_tweets := xt1; t_existing_others := xo1 |}.
Let t2 := {| t_root := root; t_files := files; t_existing_pixiv := xp2;
             t_existing_tweets := xt2; t_existing_others := xo2 |}.
Let jfs := json_files_of files.
Let mfs := media_files_of files.
Let folder := basename root.

Hypothesis first_pass : scan_worker E t1 = Some (tb1, pb1, ob1).
Hypothesis tweets_kept : forall id, mem id xt1 = true -> mem id xt2 = true.
Hypothesis tweets_added : forall e, In e tb1 -> mem (tw_id (fst e)) xt2 = true.
Hypothesis works_kept : forall id, mem id xp1 = true -> mem id xp2 = true.
Hypothesis works_added : forall wb, In wb pb1 -> mem (fst wb) xp2 = true.
Hypothesis others_settled :
  forall mf, In mf mfs ->
    (mem (md5_hex E (path_join root mf)) xo1 = true \/
     exists mtime, In (other_row_of E root folder mf mtime) ob1) ->
    mem (md5_hex E (path_join root mf)) xo2 = false ->
    was_claimed (path_join root mf) = true.

(** With the ids of the first pass in the snapshot, the worker finds no new
    post and no new artwork, and the unclassified rows it proposes are for
    files that are claimed. *)
Lemma rescan_worker r2 :
  scan_worker E t2 = Some r2 ->
  fst (fst r2) = [] /\ snd (fst r2) = [] /\
  Forall (fun o => was_claimed (ow_file_path o) = true) (snd r2).
Proof.
  destruct r2 as [[tb2 pb2] ob2]. intros Hw2. simpl.
  apply scan_worker_phases in first_pass. destruct first_pass as [u1 [u1' [Ht1 [Hp1 Ho1]]]].
  apply scan_worker_phases in Hw2. destruct Hw2 as [u2 [u2' [Ht2 [Hp2 Ho2]]]].
  simpl in Ht1, Hp1, Ho1, Ht2, Hp2, Ho2. fold jfs mfs folder in Ht1, Hp1, Ho1, Ht2, Hp2, Ho2.
  (* posts *)
  assert (Htb2 : tb2 = []).
  { pose proof (tweet_phase_sound E root folder xt2 mfs jfs) as Hs. rewrite Ht2 in Hs.
    simpl in Hs. destruct tb2 as [|e rest]; [reflexivity|]. exfalso.
    inversion Hs as [|? ? [Hex [_ [_ [jf [Hjf [Hid Hrd]]]]]] _]; subst.
    destruct (tweet_phase_complete E root folder xt1 mfs jfs jf _ Hjf Hid) as [_ Hentry].
    rewrite Ht1 in Hentry. simpl in Hentry.
    destruct (mem (tw_id (fst e)) xt1) eqn:Hx1.
    - apply tweets_kept in Hx1. congruence.
    - destruct (Hentry eq_refl Hrd) as [tw [Htw Hin]].
      apply tweets_added in Hin. simpl in Hin. congruence. }
  assert (Hu : incl u1 u2).
  { intros f Hf.
    pose proof (tweet_phase_used E root folder xt1 mfs jfs f) as Hc. rewrite Ht1 in Hc.
    destruct (Hc Hf) as [Hmf [jf [tid [Hjf [Hid [Hfid Hwhy]]]]]].
    destruct (tweet_phase_complete E root folder xt2 mfs jfs jf tid Hjf Hid) as [Hused _].
    rewrite Ht2 in Hused. simpl in Hused. apply Hused.
    - destruct Hwhy as [Hx|Hrd]; [left; now apply tweets_kept | now right].
    - now apply media_for_tweet_In. }
  (* artworks *)
  pose proof (pixiv_phase_sound _ _ _ _ _ _ _ _ Hp1) as [Hi1 Hs1].
  pose proof (pixiv_phase_sound _ _ _ _ _ _ _ _ Hp2) as [Hi2 Hs2].
  assert (Hpix : pb2 = [] /\ incl u1' u2').
  { destruct Hs2 as [[Hno2 [-> ->]]|[aid [Haid [Hok2 Hall2]]]].
    - split; [reflexivity|].
      destruct Hs1 as [[_ [_ ->]]|[aid [Haid _]]]; [assumption | congruence].
    - destruct Hs1 as [[Hno1 _]|[aid' [Haid' [Hok1 Hall1]]]]; [congruence|].
      rewrite Haid in Haid'. injection Haid' as <-.
      unfold pixiv_phase in Hp1. rewrite Haid in Hp1.
      pose proof (pixiv_loop_used _ _ _ _ _ _ _ _ _ _ Hp1) as Hused1.
      split.
      + destruct pb2 as [|[wid b] rest]; [reflexivity|]. exfalso.
        inversion Hok2 as [|? ? [Hex [Hne Hpages]] _]; subst. simpl in Hex, Hne, Hpages.
        destruct (bk_pages b) as [|page ps]; [congruence|].
        inversion Hpages as [|? ? [mf [Hmf [Hnew [Hwid _]]]] _]; subst.
        destruct (Hused1 mf (Hall1 mf Hmf)) as [H0|[_ [Hx|Hk]]].
        * apply Hnew, Hu, H0.
        * apply works_kept in Hx. congruence.
        * apply in_map_iff in Hk. destruct Hk as [wb [Hwb Hin]].
          apply works_added in Hin. rewrite Hwb in Hin. congruence.
      + intros f Hf. destruct (Hused1 f Hf) as [H0|[Hmf _]];
          [apply Hi2, Hu, H0 | now apply Hall2]. }
  destruct Hpix as [Hpb2 Hu'].
  split; [assumption|]. split; [assumption|].
  (* the fallback *)
  apply others_loop_sound in Ho2. eapply Forall_impl; [|exact Ho2].
  intros o [mf [mtime [Hmf [Hnu [Hnx ->]]]]]. simpl in *.
  apply others_settled; [assumption| |assumption].
  apply (others_loop_complete E root folder xo1 u1' mfs ob1 mf Ho1 Hmf).
  apply mem_false. intros Hin. apply mem_false in Hnu. apply Hnu, Hu', Hin.
Qed.

End RescanWorker.

(** The ids of the unclassified rows are the hashes of their paths. *)
Definition others_hashed (E : Env) (db : store) : Prop :=
  forall o, In o (other_works db) -> ow_id o = md5_hex E (ow_file_path o).

(** The path of a file that the walk lists. *)
Definition scanned_path (walk : list (string * list string)) (p : string) : Prop :=
  exists root files f, In (root, files) walk /\ In f files /\ p = path_join root f.

(** No two paths at hand, of a row or of a file, share their hash. *)
Definition hash_injective (E : Env) (walk : list (string * list string)) (db : store) : Prop :=
  forall p q,
    In p (map ow_file_path (other_works db)) \/ scanned_path walk p ->
    In q (map ow_file_path (other_works db)) \/ scanned_path walk q ->
    md5_hex E p = md5_hex E q -> p = q.

Definition task_of (db : store) (root : string) (files : list string) : task :=
  {| t_root := root; t_files := files;
     t_existing_pixiv := map pw_id (pixiv_works db);
     t_existing_tweets := map tw_id (tweets db);
     t_existing_others := map ow_id (other_works db) |}.

Lemma make_tasks_In walk db t :
  In t (make_tasks walk db) <->
  exists root files, In (root, files) walk /\
                     negb (nonempty files) || in_hidden_dir root = false /\
                     t = task_of db root files.
Proof.
  unfold make_tasks. rewrite in_flat_map. split.
  - intros [[root files] [Hin Ht]]. exists root, files.
    destruct (negb (nonempty files) || in_hidden_dir root); [easy|].
    destruct Ht as [<-|[]]. auto.
  - intros [root [files [Hin [Hc ->]]]]. exists (root, files). split; [assumption|].
    rewrite Hc. now left.
Qed.

Lemma flat_map_nil {A B} (f : A -> list B) l :
  (forall x, In x l -> f x = []) -> flat_map f l = [].
Proof.
  induction l as [|x r IH]; simpl; intros H; [reflexivity|].
  rewrite (H x) by now left. apply IH. intros; apply H; now right.
Qed.

Lemma executemany_insert_split {A} (key : A -> string) tbl rows :
  exists extra, executemany_insert key tbl rows = (tbl ++ extra)%list /\ incl extra rows.
Proof.
  unfold executemany_insert. revert tbl. induction rows as [|r rs IH]; simpl; intros tbl.
  - exists []. split; [now rewrite app_nil_r | easy].
  - destruct (IH (insert_or_ignore key tbl r)) as [extra [Heq Hincl]].
    unfold insert_or_ignore in *. destruct (mem (key r) (map key tbl)).
    + exists extra. split; [assumption | now apply incl_tl].
    + exists (r :: extra). split.
      * rewrite Heq, <- app_assoc. reflexivity.
      * intros x [<-|Hx]; [now left | right; now apply Hincl].
Qed.

Lemma filter_idem {A} (f : A -> bool) l : filter f (filter f l) = filter f l.
Proof.
  induction l as [|x r IH]; simpl; [reflexivity|].
  destruct (f x) eqn:Hx; simpl; rewrite ?Hx, IH; reflexivity.
Qed.

Lemma filter_none {A} (f : A -> bool) l : (forall x, In x l -> f x = false) -> filter f l = [].
Proof.
  induction l as [|x r IH]; simpl; intros H; [reflexivity|].
  rewrite (H x) by now left. apply IH. intros; apply H; now right.
Qed.

Lemma executemany_insert_ids_incl {A} (key : A -> string) tbl rows id :
  mem id (map key tbl) = true -> mem id (map key (executemany_insert key tbl rows)) = true.
Proof.
  rewrite !mem_In. intros H. apply in_map_iff in H. destruct H as [x [<- Hx]].
  apply in_map. now apply executemany_insert_incl.
Qed.

Lemma written_others_hashed E db completed :
  others_hashed E db -> others_hashed E (written db (results_of E completed)).
Proof.
  intros H o Ho. simpl in Ho. apply executemany_insert_In in Ho. destruct Ho as [Ho|Ho].
  - now apply H.
  - apply in_flat_map in Ho. destruct Ho as [[[tb pb] ob] [Hr Ho]].
    apply results_of_In in Hr. destruct Hr as [t [_ Hr]].
    apply scan_worker_sound in Hr. destruct Hr as [_ [u1 [u2 [_ [_ [_ Hob]]]]]].
    rewrite Forall_forall in Hob. destruct (Hob o Ho) as [mf [mtime [_ [_ [_ ->]]]]].
    reflexivity.
Qed.

Lemma reconcile_others_hashed E db : others_hashed E db -> others_hashed E (fst (reconcile db)).
Proof. intros H o Ho. simpl in Ho. apply filter_In in Ho. now apply H. Qed.

Lemma reconcile_settled db :
  filter (fun o => negb (claimed (fst (reconcile db)) (ow_file_path o)))
         (other_works (fst (reconcile db)))
  = other_works (fst (reconcile db)).
Proof.
  change (filter (fun o => negb (claimed db (ow_file_path o)))
            (filter (fun o => negb (claimed db (ow_file_path o))) (other_works db))
          = filter (fun o => negb (claimed db (ow_file_path o))) (other_works db)).
  apply filter_idem.
Qed.

Section Rescan.
Variable E : Env.
Variable walk : list (string * list string).
Variable db0 : store.
Variables c1 c2 : list task.

Let rs1 := results_of E c1.
Let pre1 := written db0 rs1.
Let db1 := fst (reconcile pre1).

Hypothesis hashed0 : others_hashed E db0.
Hypothesis inj0 : hash_injective E walk db0.
Hypothesis order1 : Permutation c1 (make_tasks walk db0).
Hypothesis no_failure : forall t, In t c1 -> scan_worker E t <> None.
Hypothesis order2 : Permutation c2 (make_tasks walk db1).

Lemma first_pass_row_path o :
  In o (other_works pre1) ->
  In (ow_file_path o) (map ow_file_path (other_works db0)) \/
  scanned_path walk (ow_file_path o).
Proof.
  intros Ho. simpl in Ho. apply executemany_insert_In in Ho. destruct Ho as [Ho|Ho].
  - left. now apply in_map.
  - right. apply in_flat_map in Ho. destruct Ho as [[[tb pb] ob] [Hr Ho]].
    apply results_of_In in Hr. destruct Hr as [t [Ht Hr]].
    apply (Permutation_in _ order1), make_tasks_In in Ht.
    destruct Ht as [root [files [Hw [_ ->]]]].
    apply scan_worker_sound in Hr. destruct Hr as [_ [u1 [u2 [_ [_ [_ Hob]]]]]].
    rewrite Forall_forall in Hob. destruct (Hob o Ho) as [mf [mtime [Hmf [_ [_ ->]]]]].
    simpl in *. apply media_files_of_In in Hmf. exists root, files, mf. tauto.
Qed.

Lemma second_pass_result r2 :
  In r2 (results_of E c2) ->
  fst (fst r2) = [] /\ snd (fst r2) = [] /\
  Forall (fun o => claimed db1 (ow_file_path o) = true) (snd r2).
Proof.
  intros Hr2. apply results_of_In in Hr2. destruct Hr2 as [t2 [Ht2 Hw2]].
  apply (Permutation_in _ order2), make_tasks_In in Ht2.
  destruct Ht2 as [root [files [Hwalk [Hc ->]]]].
  assert (Ht1 : In (task_of db0 root files) c1).
  { apply (Permutation_in _ (Permutation_sym order1)), make_tasks_In.
    now exists root, files. }
  destruct (scan_worker E (task_of db0 root files)) as [[[tb1 pb1] ob1]|] eqn:Hw1;
    [|now elim (no_failure _ Ht1)].
  assert (Hr1 : In (tb1, pb1, ob1) rs1) by (apply results_of_In; eauto).
  apply (rescan_worker E root files
           (map pw_id (pixiv_works db0)) (map tw_id (tweets db0)) (map ow_id (other_works db0))
           (map pw_id (pixiv_works db1)) (map tw_id (tweets db1)) (map ow_id (other_works db1))
           (claimed db1) tb1 pb1 ob1 Hw1); [| | | | |exact Hw2].
  - intros id. apply executemany_insert_ids_incl.
  - intros e He. apply mem_In. apply (executemany_insert_key tw_id).
    apply in_flat_map. exists (tb1, pb1, ob1). split; [assumption|].
    unfold res_tweets. simpl. now apply in_map.
  - intros id. apply executemany_insert_ids_incl.
  - intros wb Hwb. apply mem_In.
    apply (executemany_insert_key pw_id _ _ (work_row_of (fst wb) (snd wb))).
    apply in_flat_map. exists (tb1, pb1, ob1). split; [assumption|].
    unfold res_works. simpl. now apply (in_map (fun wd => work_row_of (fst wd) (snd wd))).
  - intros mf Hmf Hwas Hnot.
    assert (Hrow : exists o', In o' (other_works pre1) /\
                              ow_id o' = md5_hex E (path_join root mf)).
    { destruct Hwas as [Hx|[mtime Hx]].
      - apply mem_In, in_map_iff in Hx. destruct Hx as [o' [Hid Ho']]. exists o'.
        split; [|assumption]. simpl. now apply executemany_insert_incl.
      - assert (Hk : In (ow_id (other_row_of E root (basename root) mf mtime))
                       (map ow_id (other_works pre1))).
        { assert (Hin : In (other_row_of E root (basename root) mf mtime)
                           (flat_map res_others rs1))
            by (apply in_flat_map; exists (tb1, pb1, ob1); split; assumption).
          exact (executemany_insert_key ow_id (other_works db0) _ _ Hin). }
        apply in_map_iff in Hk. destruct Hk as [o' [Hid Ho']]. exists o'. split; assumption. }
    destruct Hrow as [o' [Ho' Hid]].
    assert (Hclaimed : claimed pre1 (ow_file_path o') = true).
    { destruct (claimed pre1 (ow_file_path o')) eqn:Hcl; [reflexivity|]. exfalso.
      apply mem_false in Hnot. apply Hnot. rewrite <- Hid. apply in_map.
      simpl. apply filter_In. split; [assumption|]. now rewrite Hcl. }
    assert (Hpath : ow_file_path o' = path_join root mf).
    { apply inj0.
      - now apply first_pass_row_path.
      - right. apply media_files_of_In in Hmf. exists root, files, mf. tauto.
      - rewrite <- Hid. symmetry. apply (written_others_hashed E db0 c1 hashed0 o' Ho'). }
    rewrite <- Hpath. exact Hclaimed.
Qed.

(** The second pass changes nothing. *)
Lemma second_pass_fixpoint : fst (run_scan_body E c2 db1) = db1.
Proof.
  rewrite run_scan_body_written.
  set (rs2 := results_of E c2).
  assert (Hw : flat_map res_works rs2 = [] /\ flat_map res_pages rs2 = [] /\
               flat_map res_tweets rs2 = [] /\ flat_map res_tweet_media rs2 = []).
  { repeat split; apply flat_map_nil; intros r Hr;
      destruct (second_pass_result r Hr) as [Ht [Hp _]];
      unfold res_works, res_pages, res_tweets, res_tweet_media; rewrite ?Ht, ?Hp; reflexivity. }
  destruct Hw as [Hw1 [Hw2 [Hw3 Hw4]]].
  destruct (executemany_insert_split ow_id (other_works db1) (flat_map res_others rs2))
    as [extra [Hsplit Hextra]].
  assert (Hcl : forall o, In o extra -> claimed db1 (ow_file_path o) = true).
  { intros o Ho. apply Hextra, in_flat_map in Ho. destruct Ho as [r [Hr Ho]].
    destruct (second_pass_result r Hr) as [_ [_ Hall]]. rewrite Forall_forall in Hall.
    now apply Hall. }
  unfold reconcile, written, claimed. cbn [fst pixiv_works pixiv_pages tweets tweet_media other_works].
  rewrite Hw1, Hw2, Hw3, Hw4, Hsplit, !app_nil_r. cbn [executemany_insert fold_left].
  rewrite filter_app.
  replace (filter _ extra) with (@nil other_work).
  - rewrite app_nil_r.
    pose proof (reconcile_settled pre1) as Hfix. fold db1 in Hfix. unfold claimed in Hfix.
    rewrite Hfix. apply store_eta.
  - symmetry. apply filter_none. intros o Ho. specialize (Hcl o Ho).
    unfold claimed in Hcl. now rewrite Hcl.
Qed.

End Rescan.

Lemma worker_skips_snapshot E db root files r :
  scan_worker E (task_of db root files) = Some r ->
  Forall (fun tw => ~ In (tw_id tw) (map tw_id (tweets db))) (res_tweets r) /\
  Forall (fun w => ~ In (pw_id w) (map pw_id (pixiv_works db))) (res_works r) /\
  Forall (fun o => ~ In (ow_id o) (map ow_id (other_works db)) /\
                   ow_id o = md5_hex E (ow_file_path o)) (res_others r).
Proof.
  destruct r as [[tb pb] ob]. intros H. apply scan_worker_sound in H.
  destruct H as [Ht [u1 [u2 [_ [_ [Hp Ho]]]]]]. simpl in Ht, Hp, Ho.
  unfold res_tweets, res_works, res_others. simpl. split; [|split].
  - apply Forall_forall. intros tw Hin. apply in_map_iff in Hin. destruct Hin as [e [<- He]].
    rewrite Forall_forall in Ht. destruct (Ht e He) as [Hex _]. now apply mem_false.
  - apply Forall_forall. intros w Hin. apply in_map_iff in Hin. destruct Hin as [wb [<- Hwb]].
    destruct Hp as [->|[aid Hp]]; [easy|]. rewrite Forall_forall in Hp.
    destruct (Hp wb Hwb) as [Hex _]. simpl. now apply mem_false.
  - eapply Forall_impl; [|exact Ho]. intros o [mf [mtime [_ [_ [Hex ->]]]]].
    split; [now apply mem_false | reflexivity].
Qed.

(** The two assumptions on the database are invariants of the program. *)
Lemma scan_keeps_hashed E walk db db' :
  others_hashed E db -> scan_of E walk db db' -> others_hashed E db'.
Proof.
  intros H [completed [_ ->]]. rewrite run_scan_body_written.
  now apply reconcile_others_hashed, written_others_hashed.
Qed.

Lemma toggle_like_keeps_hashed E type id liked db :
  others_hashed E db -> others_hashed E (fst (toggle_like type id liked db)).
Proof.
  intros H o. unfold toggle_like. cbn [fst].
  destruct (String.eqb type "pixiv"); [|destruct (String.eqb type "tweet")];
    simpl; try apply H.
  intros Ho. unfold update_liked in Ho. apply in_map_iff in Ho.
  destruct Ho as [o0 [<- Ho0]]. specialize (H o0 Ho0).
  now destruct (String.eqb (ow_id o0) id).
Qed.


Lemma demo_hash_injective walk db : hash_injective demo_env walk db.
Proof. intros p q _ _ H. now apply (string_app_inj "md5:"). Qed.


(** A tree with a file whose modification time cannot be read (a dangling
    link, say) next to a good file, and the same work id in a second
    folder. *)
Definition broken_env : Env :=
  {| md5_hex := fun s => "md5:" ++ s;
     getmtime_ms := fun p => if String.eqb p "/r/a_111/67890_p0.jpg" then None else Some 1000;
     load_sidecar := fun _ => None |}.

Definition broken_walk : list (string * list string) :=
  [("/r/a_111", ["12345_p0.jpg"; "67890_p0.jpg"]); ("/r/b_222", ["67890_p0.jpg"])].


(** * Further properties of the stream engine *)

Definition rec_id (r : record) : string :=
  match r with
  | RecPixiv id _ _ _ _ _ _ _ => id
  | RecTweet id _ _ _ _ _ _ _ _ => id
  | RecOther id _ _ _ _ _ => id
  end.

Definition rec_timestamp (r : record) : Z :=
  match r with
  | RecPixiv _ _ _ ts _ _ _ _ => ts
  | RecTweet _ ts _ _ _ _ _ _ _ => ts
  | RecOther _ ts _ _ _ _ => ts
  end.

Definition rec_liked (r : record) : bool :=
  match r with
  | RecPixiv _ _ _ _ l _ _ _ => l
  | RecTweet _ _ _ _ _ _ _ l _ => l
  | RecOther _ _ _ _ l _ => l
  end.

Definition rec_folder (r : record) : string :=
  match r with
  | RecPixiv _ _ _ _ _ f _ _ => f
  | RecTweet _ _ _ _ _ _ f _ _ => f
  | RecOther _ _ _ f _ _ => f
  end.

(** The media array that hydration builds for a row. *)
Definition row_media (to_url : string -> string) (db : store) (r : row) : list medium :=
  match r with
  | RowP w =>
      map (fun p => {| m_url := to_url (pp_file_path p); m_type := pp_media_type p;
                       m_index := Some (pp_page_num p) |})
          (stable_sort (fun a b => pp_page_num a <=? pp_page_num b) (pages_of db (pw_id w)))
  | RowT t =>
      map (fun m => {| m_url := to_url (tm_file_path m); m_type := tm_media_type m;
                       m_index := None |})
          (media_of db (tw_id t))
  | RowO o => [{| m_url := to_url (ow_file_path o); m_type := ow_media_type o;
                  m_index := None |}]
  end.

Definition row_table (r : row) : table :=
  match r with RowP _ => PixivWorks | RowT _ => Tweets | RowO _ => OtherWorks end.

Lemma rows_of_table db t r : In r (rows_of db t) -> row_table r = t.
Proof.
  destruct t; simpl; intros H; apply in_map_iff in H; destruct H as [x [<- _]]; reflexivity.
Qed.

(** With unique ids, the element of a row hydrates to one record, which
    shows that row. *)
Lemma hydrate_row to_url db t r k :
  ids_unique db -> In r (rows_of db t) ->
  exists rec,
    hydrate to_url db (type_label t, row_id r, k) = [rec] /\
    rec_type rec = type_label t /\ rec_id rec = row_id r /\
    rec_timestamp rec = row_mtime r /\ rec_folder rec = row_folder r /\
    rec_liked rec = negb (row_liked r =? 0) /\
    rec_media rec = row_media to_url db r.
Proof.
  intros [Hp [Ht Ho]] Hr.
  destruct t; simpl in Hr; apply in_map_iff in Hr; destruct Hr as [w [<- Hw]];
    unfold hydrate; simpl.
  - rewrite (find_by_key pw_id _ w Hp Hw). eexists. split; [reflexivity|]. repeat split.
  - rewrite (find_by_key tw_id _ w Ht Hw). eexists. split; [reflexivity|]. repeat split.
  - rewrite (find_by_key ow_id _ w Ho Hw). eexists. split; [reflexivity|]. repeat split.
Qed.

(** The elements of a page, each with the row it stands for. *)
Lemma final_ids_rows like db P x :
  In x (final_ids like db P) ->
  exists t r, In t (tables_of (sp_source P)) /\ In r (rows_of db t) /\
              x = (type_label t, row_id r, row_mtime r).
Proof.
  intros H. apply final_ids_In in H. destruct H as [dir [lim [tgt H]]].
  apply fetch_ids_inv in H. destruct H as [t [r [Ht [Hr [-> _]]]]]. now exists t, r.
Qed.

(** With unique ids a page has one record per element, in the same order. *)
Lemma get_stream_per_item like to_url db P :
  ids_unique db ->
  map (fun rec => (rec_type rec, rec_id rec, rec_timestamp rec)) (get_stream like to_url db P)
  = final_ids like db P.
Proof.
  intros Hu. unfold get_stream.
  assert (H : forall l, (forall x, In x l -> In x (final_ids like db P)) ->
            map (fun rec => (rec_type rec, rec_id rec, rec_timestamp rec))
                (flat_map (hydrate to_url db) l) = l).
  { induction l as [|x l IH]; intros Hl; [reflexivity|].
    cbn [flat_map]. rewrite map_app, IH by (intros; apply Hl; now right).
    destruct (final_ids_rows like db P x (Hl x (or_introl eq_refl))) as [t [r [_ [Hr ->]]]].
    destruct (hydrate_row to_url db t r (row_mtime r) Hu Hr)
      as [rec [-> [Hty [Hid [Hts _]]]]].
    simpl. now rewrite Hty, Hid, Hts. }
  apply H. auto.
Qed.

(** A returned record shows a row of a selected table that passes every
    entry of [where]. *)
Lemma get_stream_row like to_url db P rec :
  ids_unique db -> In rec (get_stream like to_url db P) ->
  exists t r op fetch_target,
    In t (tables_of (sp_source P)) /\ In r (rows_of db t) /\
    (forall c, In c (build_query P op fetch_target t) -> eval_cond like db r c = true) /\
    rec_type rec = type_label t /\ rec_id rec = row_id r /\
    rec_timestamp rec = row_mtime r /\ rec_folder rec = row_folder r /\
    rec_liked rec = negb (row_liked r =? 0) /\
    rec_media rec = row_media to_url db r.
Proof.
  intros Hu H. unfold get_stream in H. apply in_flat_map in H. destruct H as [x [Hx Hrec]].
  apply final_ids_In in Hx. destruct Hx as [dir [lim [tgt Hx]]].
  apply fetch_ids_inv in Hx. destruct Hx as [t [r [Ht [Hr [-> Hc]]]]].
  destruct (hydrate_row to_url db t r (row_mtime r) Hu Hr) as [rec' [Hh Hfacts]].
  rewrite Hh in Hrec. destruct Hrec as [<-|[]].
  exists t, r, (fst (select_op (sp_sort P) dir)), tgt. tauto.
Qed.

Lemma build_query_text P op fetch_target t :
  sp_filter_type P = "text" ->
  In (match t with Tweets => CNoMedia | _ => CFalse end) (build_query P op fetch_target t).
Proof.
  intros H. unfold build_query. rewrite H. simpl.
  rewrite !in_app_iff. right. right. left. destruct t; now left.
Qed.

Lemma build_query_liked P op fetch_target t :
  sp_filter_type P = "liked" -> In CLiked (build_query P op fetch_target t).
Proof.
  intros H. unfold build_query. rewrite H. simpl.
  rewrite !in_app_iff. right. right. now left.
Qed.

Lemma build_query_folder P op fetch_target t f :
  truthy (sp_folder P) = Some f -> f <> "ALL" -> In (CFolder f) (build_query P op fetch_target t).
Proof.
  intros H Hne. unfold build_query. rewrite H. apply String.eqb_neq in Hne. rewrite Hne.
  rewrite !in_app_iff. left. now left.
Qed.

Lemma build_query_q P op fetch_target t q :
  truthy (sp_q P) = Some q -> In (CQuery q) (build_query P op fetch_target t).
Proof.
  intros H. unfold build_query. rewrite H. rewrite !in_app_iff. right. left. now left.
Qed.

Definition text_walk : list (string * list string) :=
  [("/r/tw", ["20230101123456789.json"; "v_20230101123456789.mp4";
              "20240202123456789.json"])].

Definition text_store : store :=
  fst (run_scan_body demo_env (make_tasks text_walk empty_store) empty_store).

Lemma text_store_ids_unique : ids_unique text_store.
Proof. apply run_scan_body_ids_unique. repeat split; constructor. Qed.

(** X1.  With the content filter ["text"], on a database with unique ids,
    every returned record is a post and has no media: the other two tables
    get the always-false condition, and posts the [NOT EXISTS] test. *)
Theorem text_filter_exactness :
  forall like to_url db P rec,
    ids_unique db -> sp_filter_type P = "text" ->
    In rec (get_stream like to_url db P) ->
    rec_type rec = "tweet" /\ rec_media rec = [].
Proof.
  intros like to_url db P rec Hu Hf Hin.
  destruct (get_stream_row like to_url db P rec Hu Hin)
    as [t [r [op [tgt [_ [Hr [Hc [Hty [_ [_ [_ [_ Hmedia]]]]]]]]]]]].
  specialize (Hc _ (build_query_text P op tgt t Hf)).
  destruct t; simpl in Hr; apply in_map_iff in Hr; destruct Hr as [w [<- Hw]];
    simpl in Hc; try discriminate.
  split; [assumption|]. rewrite Hmedia. simpl.
  destruct (media_of db (tw_id w)); [reflexivity | discriminate].
Qed.

Lemma text_filter_exactness_witness :
  exists rec, In rec (get_stream (fun _ _ => true) (fun p => p) text_store (stream_of "text")) /\
              rec_id rec = "20240202123456789" /\ rec_type rec = "tweet" /\ rec_media rec = [].
Proof.
  destruct (get_stream (fun _ _ => true) (fun p => p) text_store (stream_of "text"))
    as [|rec rest] eqn:Hs; [vm_compute in Hs; discriminate|].
  exists rec. split; [now left|].
  split; [vm_compute in Hs; injection Hs as <- _; reflexivity|].
  apply (text_filter_exactness (fun _ _ => true) (fun p => p) text_store (stream_of "text") rec);
    [apply text_store_ids_unique | reflexivity | rewrite Hs; now left].
Defined.

(** X2.  On a database with unique ids every returned record belongs to a
    family that [source] selects, lies in the requested folder when a folder
    other than ["ALL"] is given, is liked when the content filter is
    ["liked"], and matches [%q%] in one of the text columns of its family when
    a query is given. *)
Theorem stream_filters_exact :
  forall like to_url db P rec,
    ids_unique db -> In rec (get_stream like to_url db P) ->
    (sp_source P = "all" \/
     sp_source P = match rec with
                   | RecPixiv _ _ _ _ _ _ _ _ => "pixiv"
                   | RecTweet _ _ _ _ _ _ _ _ _ => "tweets"
                   | RecOther _ _ _ _ _ _ => "others"
                   end) /\
    (forall f, truthy (sp_folder P) = Some f -> f <> "ALL" -> rec_folder rec = f) /\
    (sp_filter_type P = "liked" -> rec_liked rec = true) /\
    (forall q, truthy (sp_q P) = Some q ->
       match rec with
       | RecPixiv _ title author _ _ _ _ _ =>
           like ("%" ++ q ++ "%") title || like ("%" ++ q ++ "%") author = true
       | RecTweet _ _ user_name text _ _ _ _ _ =>
           like ("%" ++ q ++ "%") text || like ("%" ++ q ++ "%") user_name = true
       | RecOther _ _ title _ _ _ => like ("%" ++ q ++ "%") title = true
       end).
Proof.
  intros like to_url db P rec Hu Hin. unfold get_stream in Hin.
  apply in_flat_map in Hin. destruct Hin as [x [Hx Hrec]].
  apply final_ids_In in Hx. destruct Hx as [dir [lim [tgt Hx]]].
  apply fetch_ids_inv in Hx. destruct Hx as [t [r [Ht [Hr [-> Hc]]]]].
  destruct Hu as [Hp [Htw Ho]].
  assert (Hsrc : sp_source P = "all" \/
                 sp_source P = match t with
                               | PixivWorks => "pixiv" | Tweets => "tweets"
                               | OtherWorks => "others" end).
  { unfold tables_of in Ht. rewrite !in_app_iff in Ht.
    destruct Ht as [H|[H|H]];
      [destruct (mem (sp_source P) ["all"; "pixiv"]) eqn:Hm
      |destruct (mem (sp_source P) ["all"; "tweets"]) eqn:Hm
      |destruct (mem (sp_source P) ["all"; "others"]) eqn:Hm];
      try (now destruct H); destruct H as [<-|[]];
      apply mem_In in Hm; destruct Hm as [Hm|[Hm|[]]]; auto. }
  destruct t; simpl in Hr; apply in_map_iff in Hr; destruct Hr as [w [<- Hw]];
    unfold hydrate in Hrec; simpl in Hrec.
  - rewrite (find_by_key pw_id _ w Hp Hw) in Hrec. destruct Hrec as [<-|[]]. simpl.
    split; [exact Hsrc|]. split; [|split].
    + intros f Hf Hne. specialize (Hc _ (build_query_folder P _ tgt PixivWorks f Hf Hne)).
      simpl in Hc. now apply String.eqb_eq.
    + intros Hf. specialize (Hc _ (build_query_liked P _ tgt PixivWorks Hf)). simpl in Hc.
      apply Z.eqb_eq in Hc. now rewrite Hc.
    + intros q Hq. exact (Hc _ (build_query_q P _ tgt PixivWorks q Hq)).
  - rewrite (find_by_key tw_id _ w Htw Hw) in Hrec. destruct Hrec as [<-|[]]. simpl.
    split; [exact Hsrc|]. split; [|split].
    + intros f Hf Hne. specialize (Hc _ (build_query_folder P _ tgt Tweets f Hf Hne)).
      simpl in Hc. now apply String.eqb_eq.
    + intros Hf. specialize (Hc _ (build_query_liked P _ tgt Tweets Hf)). simpl in Hc.
      apply Z.eqb_eq in Hc. now rewrite Hc.
    + intros q Hq. exact (Hc _ (build_query_q P _ tgt Tweets q Hq)).
  - rewrite (find_by_key ow_id _ w Ho Hw) in Hrec. destruct Hrec as [<-|[]]. simpl.
    split; [exact Hsrc|]. split; [|split].
    + intros f Hf Hne. specialize (Hc _ (build_query_folder P _ tgt OtherWorks f Hf Hne)).
      simpl in Hc. now apply String.eqb_eq.
    + intros Hf. specialize (Hc _ (build_query_liked P _ tgt OtherWorks Hf)). simpl in Hc.
      apply Z.eqb_eq in Hc. now rewrite Hc.
    + intros q Hq. exact (Hc _ (build_query_q P _ tgt OtherWorks q Hq)).
Qed.

Definition liked_store : store :=
  fst (toggle_like "tweet" "20230101123456789" true video_store).

Definition liked_request : stream_params :=
  {| sp_limit := 50; sp_offset := 0; sp_source := "tweets"; sp_q := Some "u";
     sp_sort := "desc"; sp_folder := Some "tw"; sp_filter_type := "liked";
     sp_target_date := None; sp_direction := "older" |}.

Lemma stream_filters_exact_witness :
  exists rec, In rec (get_stream (fun _ _ => true) (fun p => p) liked_store liked_request) /\
              rec_type rec = "tweet" /\ rec_folder rec = "tw" /\ rec_liked rec = true.
Proof.
  destruct (get_stream (fun _ _ => true) (fun p => p) liked_store liked_request)
    as [|rec rest] eqn:Hs; [vm_compute in Hs; discriminate|].
  exists rec. split; [now left|].
  split; [vm_compute in Hs; injection Hs as <- _; reflexivity|].
  destruct (stream_filters_exact (fun _ _ => true) (fun p => p) liked_store liked_request rec)
    as [_ [Hfolder [Hliked _]]].
  - apply toggle_like_ids_unique, run_scan_body_ids_unique. repeat split; constructor.
  - rewrite Hs. now left.
  - split; [apply (Hfolder "tw"); [reflexivity | discriminate] | apply Hliked; reflexivity].
Defined.

(** ** Page size and page order *)

Lemma hydrate_length to_url db x : (List.length (hydrate to_url db x) <= 1)%nat.
Proof.
  destruct x as [[ty id] k]. unfold hydrate.
  destruct (String.eqb ty "pixiv"); [destruct (find _ _); simpl; lia|].
  destruct (String.eqb ty "tweet"); [destruct (find _ _); simpl; lia|].
  destruct (String.eqb ty "other"); [destruct (find _ _); simpl; lia|].
  simpl. lia.
Qed.

Lemma flat_map_length_le {A B} (f : A -> list B) l :
  (forall x, (List.length (f x) <= 1)%nat) ->
  (List.length (flat_map f l) <= List.length l)%nat.
Proof.
  intros H. induction l as [|x r IH]; simpl; [lia|].
  rewrite length_app. specialize (H x). lia.
Qed.

Lemma final_ids_length like db P :
  0 <= sp_limit P -> Z.of_nat (List.length (final_ids like db P)) <= sp_limit P.
Proof.
  intros Hl. unfold final_ids.
  assert (Hhalf : 0 <= sp_limit P / 2 /\ 2 * (sp_limit P / 2) <= sp_limit P)
    by (split; [apply Z.div_pos; lia | apply Z.mul_div_le; lia]).
  destruct (sp_target_date P) as [target|];
    [destruct (String.eqb (sp_direction P) "around")|];
    try destruct (String.eqb (sp_direction P) "newer");
    try destruct (String.eqb (sp_sort P) "desc");
    rewrite ?length_app, ?length_rev;
    try (apply fetch_ids_length; assumption);
    pose proof (fetch_ids_length like db P "newer" (sp_limit P / 2) (Some target) (proj1 Hhalf));
    pose proof (fetch_ids_length like db P "older" (sp_limit P / 2) (Some target) (proj1 Hhalf));
    lia.
Qed.

(** X3.  For a page size [0 <= limit], whatever the offset (negative ones
    included), the direction, the sort mode and the filters, a page holds at
    most [limit] records. *)
Theorem page_size_bound :
  forall like to_url db P,
    0 <= sp_limit P ->
    Z.of_nat (List.length (get_stream like to_url db P)) <= sp_limit P.
Proof.
  intros like to_url db P Hl. unfold get_stream.
  pose proof (flat_map_length_le (hydrate to_url db) (final_ids like db P)
                (hydrate_length to_url db)).
  pose proof (final_ids_length like db P Hl). lia.
Qed.

Definition small_page (offset : Z) : stream_params :=
  {| sp_limit := 3; sp_offset := offset; sp_source := "all"; sp_q := None; sp_sort := "desc";
     sp_folder := None; sp_filter_type := "all"; sp_target_date := None;
     sp_direction := "older" |}.

Lemma page_size_bound_witness :
  Z.of_nat (List.length (get_stream (fun _ _ => true) (fun p => p) misc_store (small_page (-2))))
  <= 3 /\
  List.length (get_stream (fun _ _ => true) (fun p => p) misc_store (small_page 0)) = 3%nat.
Proof.
  split.
  - apply (page_size_bound (fun _ _ => true) (fun p => p) misc_store (small_page (-2))).
    simpl. lia.
  - vm_compute. reflexivity.
Defined.

Lemma ordered_map {A B} (f : A -> B) (le : B -> B -> bool) l :
  ordered (fun a b => le (f a) (f b)) l <-> ordered le (map f l).
Proof.
  induction l as [|x r IH]; simpl; split; intros H; try constructor;
    inversion H as [|? ? Hall Hord]; subst.
  - apply Forall_map. exact Hall.
  - now apply IH.
  - apply Forall_map in Hall. exact Hall.
  - now apply IH.
Qed.

Lemma fetch_ids_bounds like db P half target x y :
  In x (fetch_ids like db P "newer" half (Some target)) ->
  In y (fetch_ids like db P "older" half (Some target)) ->
  if String.eqb (sp_sort P) "asc"
  then item_key x < target /\ target <= item_key y
  else target < item_key x /\ item_key y <= target.
Proof.
  intros Hx Hy.
  pose proof (fetch_ids_cmp like db P "newer" half target) as Hn.
  pose proof (fetch_ids_cmp like db P "older" half target) as Ho.
  rewrite Forall_forall in Hn, Ho. specialize (Hn x Hx). specialize (Ho y Hy).
  unfold select_op in Hn, Ho. destruct (String.eqb (sp_sort P) "asc"); simpl in Hn, Ho;
    rewrite ?Z.ltb_lt, ?Z.leb_le in Hn, Ho; lia.
Qed.

Lemma final_ids_order like db P :
  (sp_sort P = "desc" -> ordered (key_le DESC) (final_ids like db P)) /\
  (sp_sort P = "asc" -> sp_direction P = "newer" -> ordered (key_le DESC) (final_ids like db P)) /\
  (sp_sort P = "asc" -> sp_direction P <> "newer" ->
   sp_direction P <> "around" \/ sp_target_date P = None ->
   ordered (key_le ASC) (final_ids like db P)).
Proof.
  assert (Hold : forall lim tgt, sp_sort P = "desc" ->
            ordered (key_le DESC) (fetch_ids like db P "older" lim tgt)).
  { intros lim tgt Hs. pose proof (fetch_ids_ordered like db P "older" lim tgt) as H.
    now rewrite Hs in H. }
  assert (Hnew : forall lim tgt, sp_sort P = "desc" ->
            ordered (key_le DESC) (rev (fetch_ids like db P "newer" lim tgt))).
  { intros lim tgt Hs. pose proof (fetch_ids_ordered like db P "newer" lim tgt) as H.
    rewrite Hs in H. exact (ordered_rev ASC _ H). }
  split; [|split].
  - intros Hs. unfold final_ids. rewrite Hs. simpl.
    destruct (sp_target_date P) as [target|];
      [destruct (String.eqb (sp_direction P) "around") eqn:Hd|];
      [|destruct (String.eqb (sp_direction P) "newer"); auto
       |destruct (String.eqb (sp_direction P) "newer"); auto].
    apply ordered_app; auto. intros x y Hx Hy. apply in_rev in Hx.
    pose proof (fetch_ids_bounds like db P _ target x y Hx Hy) as Hb.
    rewrite Hs in Hb. simpl in Hb. simpl. apply Z.leb_le. lia.
  - intros Hs Hd. unfold final_ids. rewrite Hs, Hd. simpl.
    destruct (sp_target_date P) as [target|];
      pose proof (fetch_ids_ordered like db P "newer" (sp_limit P)) as H;
      rewrite Hs in H; apply H.
  - intros Hs Hd Ha. unfold final_ids. rewrite Hs. simpl.
    apply String.eqb_neq in Hd. rewrite Hd.
    assert (H : forall tgt, ordered (key_le ASC) (fetch_ids like db P "older" (sp_limit P) tgt)).
    { intros tgt. pose proof (fetch_ids_ordered like db P "older" (sp_limit P) tgt) as H.
      now rewrite Hs in H. }
    destruct (sp_target_date P) as [target|]; [|apply H].
    destruct Ha as [Ha|Ha]; [|discriminate]. apply String.eqb_neq in Ha. rewrite Ha. apply H.
Qed.

(** X4.  On a database with unique ids the timestamps of a page run as
    follows.  Newest first ([sort = "desc"]): never increasing, for every
    direction, "around" included.  Oldest first ([sort = "asc"]): never
    decreasing for a plain "older" request, but never increasing for a
    "newer" request, whose result is not reversed. *)
Theorem page_order :
  forall like to_url db P,
    ids_unique db ->
    let stamps := map rec_timestamp (get_stream like to_url db P) in
    (sp_sort P = "desc" -> ordered (fun a b => b <=? a) stamps) /\
    (sp_sort P = "asc" -> sp_direction P = "newer" -> ordered (fun a b => b <=? a) stamps) /\
    (sp_sort P = "asc" -> sp_direction P <> "newer" ->
     sp_direction P <> "around" \/ sp_target_date P = None ->
     ordered (fun a b => a <=? b) stamps).
Proof.
  intros like to_url db P Hu stamps.
  assert (Hst : stamps = map item_key (final_ids like db P)).
  { subst stamps. rewrite <- (get_stream_per_item like to_url db P Hu), map_map.
    reflexivity. }
  rewrite Hst. destruct (final_ids_order like db P) as [H1 [H2 H3]].
  split; [|split]; intros.
  - apply (ordered_map item_key (fun a b => b <=? a)). now apply H1.
  - apply (ordered_map item_key (fun a b => b <=? a)). now apply H2.
  - apply (ordered_map item_key (fun a b => a <=? b)). now apply H3.
Qed.

Lemma misc_store_ids_unique : ids_unique misc_store.
Proof. apply run_scan_body_ids_unique. repeat split; constructor. Qed.

Lemma page_order_witness :
  map rec_timestamp (get_stream (fun _ _ => true) (fun p => p) misc_store (around_request "desc"))
  = [20; 19; 18; 17; 16; 15] /\
  ordered (fun a b => b <=? a)
    (map rec_timestamp
       (get_stream (fun _ _ => true) (fun p => p) misc_store (around_request "desc"))).
Proof.
  split; [vm_compute; reflexivity|].
  destruct (page_order (fun _ _ => true) (fun p => p) misc_store (around_request "desc")
              misc_store_ids_unique) as [H _].
  apply H. reflexivity.
Defined.

(** ** The merge of the per-family pages *)

(** The inner [SELECT] of a family query, before [ORDER BY] and [LIMIT]. *)
Definition family_hits (like : string -> string -> bool) (db : store) (P : stream_params)
    (op : cmp_op) (fetch_target : option Z) (t : table) : list item :=
  map (fun r => (type_label t, row_id r, row_mtime r))
      (filter (fun r => forallb (eval_cond like db r) (build_query P op fetch_target t))
              (rows_of db t)).

(** [v] comes strictly later than [x] in the order [o]. *)
Definition before (o : sort_order) (v : Z) (x : item) : bool :=
  match o with ASC => item_key x <? v | DESC => v <? item_key x end.

Definition count_if {A} (p : A -> bool) (l : list A) : nat := List.length (filter p l).

Lemma count_if_app {A} (p : A -> bool) l1 l2 :
  count_if p (l1 ++ l2) = (count_if p l1 + count_if p l2)%nat.
Proof. unfold count_if. now rewrite filter_app, length_app. Qed.

Lemma count_if_perm {A} (p : A -> bool) l1 l2 :
  Permutation l1 l2 -> count_if p l1 = count_if p l2.
Proof.
  unfold count_if. induction 1 as [|x l l' _ IH|x y l|l l' l'' _ IH1 _ IH2]; simpl.
  - reflexivity.
  - destruct (p x); simpl; now rewrite IH.
  - destruct (p x); destruct (p y); reflexivity.
  - now rewrite IH1.
Qed.

Section MergeCore.
Variable o : sort_order.

(** A predicate that holds for everything before an element it holds for. *)
Definition down_closed (p : item -> bool) : Prop :=
  forall x y, key_le o x y = true -> p y = true -> p x = true.

Lemma before_down_closed v : down_closed (before o v).
Proof.
  intros x y. unfold before, key_le. destruct o; rewrite !Z.leb_le, !Z.ltb_lt; lia.
Qed.

Lemma count_if_none p x l :
  down_closed p -> p x = false -> Forall (fun y => key_le o x y = true) l -> count_if p l = 0%nat.
Proof.
  intros Hp Hx Hall. unfold count_if. rewrite filter_none; [reflexivity|].
  intros y Hy. rewrite Forall_forall in Hall. specialize (Hall y Hy).
  destruct (p y) eqn:Hpy; [|reflexivity]. rewrite (Hp x y Hall Hpy) in Hx. discriminate.
Qed.

(** In an ordered list the elements of a down-closed predicate come first. *)
Lemma count_if_firstn p n l :
  down_closed p -> ordered (key_le o) l ->
  count_if p (firstn n l) = Nat.min n (count_if p l).
Proof.
  intros Hp Hl. revert n. induction Hl as [|x l Hx Hl IH]; intros n.
  - rewrite firstn_nil. unfold count_if. simpl. lia.
  - destruct n as [|n]; [reflexivity|]. cbn [firstn].
    destruct (p x) eqn:Hpx.
    + unfold count_if in *. cbn [filter]. rewrite Hpx. cbn [List.length]. rewrite IH. lia.
    + assert (H0 : count_if p l = 0%nat) by now apply (count_if_none p x).
      assert (H1 : count_if p (firstn n l) = 0%nat).
      { apply (count_if_none p x); auto. apply Forall_forall. intros y Hy.
        rewrite Forall_forall in Hx. apply Hx. now apply In_firstn in Hy. }
      unfold count_if in *. cbn [filter]. rewrite Hpx, H0, H1. lia.
Qed.

(** Two ordered lists of one length that agree, for every [v], on the
    number of elements before [v], carry the same keys. *)
Lemma ordered_keys_unique l1 l2 :
  ordered (key_le o) l1 -> ordered (key_le o) l2 ->
  List.length l1 = List.length l2 ->
  (forall v, count_if (before o v) l1 = count_if (before o v) l2) ->
  map item_key l1 = map item_key l2.
Proof.
  intros H1. revert l2. induction H1 as [|x l1 Hx Hl1 IH]; intros l2 H2 Hlen Hc.
  - destruct l2; [reflexivity | discriminate].
  - destruct H2 as [|y l2 Hy Hl2]; [discriminate|].
    assert (Hk : item_key x = item_key y).
    { destruct (Z.eq_dec (item_key x) (item_key y)) as [|Hne]; [assumption|]. exfalso.
      assert (Hcase : before o (item_key y) x = true \/ before o (item_key x) y = true)
        by (unfold before; destruct o; rewrite !Z.ltb_lt; lia).
      destruct Hcase as [Hb|Hb].
      - specialize (Hc (item_key y)).
        assert (Hy0 : before o (item_key y) y = false)
          by (unfold before; destruct o; apply Z.ltb_irrefl).
        unfold count_if in Hc. cbn [filter] in Hc. rewrite Hb, Hy0 in Hc.
        pose proof (count_if_none (before o (item_key y)) y l2
                      (before_down_closed _) Hy0 Hy) as H0.
        unfold count_if in H0. rewrite H0 in Hc. discriminate.
      - specialize (Hc (item_key x)).
        assert (Hx0 : before o (item_key x) x = false)
          by (unfold before; destruct o; apply Z.ltb_irrefl).
        unfold count_if in Hc. cbn [filter] in Hc. rewrite Hb, Hx0 in Hc.
        pose proof (count_if_none (before o (item_key x)) x l1
                      (before_down_closed _) Hx0 Hx) as H0.
        unfold count_if in H0. rewrite H0 in Hc. discriminate. }
    cbn [map]. rewrite Hk. f_equal. apply IH; [assumption | now injection Hlen |].
    intros v. specialize (Hc v). unfold count_if in *. cbn [filter] in Hc.
    assert (Hb : before o v x = before o v y) by (unfold before; now rewrite Hk).
    rewrite Hb in Hc. destruct (before o v y); simpl in Hc; lia.
Qed.

Lemma sorted_count p l : count_if p (stable_sort (key_le o) l) = count_if p l.
Proof. apply count_if_perm, stable_sort_perm. Qed.

Lemma sorted_ordered l : ordered (key_le o) (stable_sort (key_le o) l).
Proof. apply stable_sort_ordered; [apply key_le_total | apply key_le_trans]. Qed.

(** Cutting every family at [n] rows does not change the first [n] keys of
    the merged, sorted list. *)
Lemma merge_of_limited {T} (hits : T -> list item) (ts : list T) n :
  map item_key
      (firstn n (stable_sort (key_le o)
                   (flat_map (fun t => firstn n (stable_sort (key_le o) (hits t))) ts)))
  = map item_key (firstn n (stable_sort (key_le o) (flat_map hits ts))).
Proof.
  assert (Hcount : forall p, down_closed p ->
            Nat.min n (count_if p (flat_map (fun t => firstn n (stable_sort (key_le o) (hits t))) ts))
            = Nat.min n (count_if p (flat_map hits ts))).
  { intros p Hp. induction ts as [|t ts IH]; [reflexivity|].
    cbn [flat_map]. rewrite !count_if_app, count_if_firstn, sorted_count
      by auto using sorted_ordered. lia. }
  apply ordered_keys_unique.
  - apply ordered_firstn, sorted_ordered.
  - apply ordered_firstn, sorted_ordered.
  - assert (Htrue : down_closed (fun _ => true)) by (intros x y _ _; reflexivity).
    specialize (Hcount _ Htrue). unfold count_if in Hcount.
    rewrite !length_firstn, !stable_sort_length.
    assert (Hall : forall l : list item, filter (fun _ => true) l = l)
      by (induction l; simpl; congruence).
    now rewrite !Hall in Hcount.
  - intros v. rewrite !count_if_firstn, !sorted_count
      by auto using sorted_ordered, before_down_closed.
    apply Hcount, before_down_closed.
Qed.

End MergeCore.

Lemma py_slice_nonneg {A} a n (l : list A) :
  0 <= a -> 0 <= n ->
  py_slice a (a + n) l = skipn (Z.to_nat a) (firstn (Z.to_nat (a + n)) l).
Proof.
  intros Ha Hn. unfold py_slice, slice_bound.
  destruct (a <? 0) eqn:H1; [apply Z.ltb_lt in H1; lia|].
  destruct (a + n <? 0) eqn:H2; [apply Z.ltb_lt in H2; lia|].
  replace (Z.to_nat (a + n)) with (Z.to_nat a + Z.to_nat n)%nat by lia.
  rewrite <- firstn_skipn_comm.
  set (len := List.length l).
  destruct (Z_lt_le_dec a (Z.of_nat len)) as [Hlt|Hge].
  - replace (Z.min a (Z.of_nat len)) with a by lia.
    destruct (Z_le_gt_dec (a + n) (Z.of_nat len)) as [Hle|Hgt].
    + replace (Z.min (a + n) (Z.of_nat len)) with (a + n) by lia. f_equal. lia.
    + replace (Z.min (a + n) (Z.of_nat len)) with (Z.of_nat len) by lia.
      rewrite !firstn_all2; [reflexivity | |]; rewrite length_skipn; fold len; lia.
  - replace (Z.min a (Z.of_nat len)) with (Z.of_nat len) by lia.
    rewrite !skipn_all2 by (fold len; lia). now rewrite !firstn_nil.
Qed.

(** X5.  For an offset and a page size that are not negative, the
    timestamps of what [fetch_ids] returns are those at the positions
    [offset .. offset + limit - 1] of the list of all matching rows of the
    selected families, sorted as a whole: cutting each family at
    [offset + limit] rows before the merge loses nothing. *)
Theorem bounded_merge :
  forall like db P fetch_dir fetch_limit fetch_target,
    0 <= sp_offset P -> 0 <= fetch_limit ->
    map item_key (fetch_ids like db P fetch_dir fetch_limit fetch_target)
    = map item_key
        (py_slice (sp_offset P) (sp_offset P + fetch_limit)
           (stable_sort (key_le (snd (select_op (sp_sort P) fetch_dir)))
              (flat_map (family_hits like db P (fst (select_op (sp_sort P) fetch_dir))
                           fetch_target)
                        (tables_of (sp_source P))))).
Proof.
  intros like db P fetch_dir fetch_limit fetch_target Ho Hl. unfold fetch_ids.
  destruct (select_op (sp_sort P) fetch_dir) as [op o]. cbn [fst snd].
  rewrite !py_slice_nonneg by assumption. rewrite <- !skipn_map. f_equal.
  replace (sp_offset P + fetch_limit) with (fetch_limit + sp_offset P) by lia.
  rewrite <- (merge_of_limited o (family_hits like db P op fetch_target)
                (tables_of (sp_source P)) (Z.to_nat (fetch_limit + sp_offset P))).
  do 3 f_equal. apply flat_map_ext. intros t. unfold family_query, family_hits, sql_limit.
  destruct (fetch_limit + sp_offset P <? 0) eqn:Hneg; [apply Z.ltb_lt in Hneg; lia|].
  reflexivity.
Qed.

Definition mixed_page : stream_params :=
  {| sp_limit := 2; sp_offset := 1; sp_source := "all"; sp_q := None; sp_sort := "desc";
     sp_folder := None; sp_filter_type := "all"; sp_target_date := None;
     sp_direction := "older" |}.

Lemma bounded_merge_witness :
  map item_key (fetch_ids (fun _ _ => true) misc_store mixed_page "older" 2 None) = [19; 18].
Proof.
  rewrite (bounded_merge (fun _ _ => true) misc_store mixed_page "older" 2 None);
    [vm_compute; reflexivity | simpl; lia | lia].
Defined.

(** ** No record twice *)

Lemma rows_of_ids_NoDup db t : ids_unique db -> NoDup (map row_id (rows_of db t)).
Proof.
  intros [Hp [Ht Ho]]. destruct t; simpl; rewrite map_map; assumption.
Qed.

Lemma NoDup_map_tag {A B C} (c : C) (g : A -> B) l :
  NoDup (map g l) -> NoDup (map (fun r => (c, g r)) l).
Proof.
  induction l as [|x r IH]; simpl; intros H; [constructor|].
  inversion H as [|? ? Hx Hr]; subst. constructor; [|auto].
  intros Hin. apply Hx. apply in_map_iff in Hin. destruct Hin as [y [Hy Hin]].
  injection Hy as Hy. rewrite <- Hy. now apply in_map.
Qed.

Lemma NoDup_map_firstn {A B} (f : A -> B) n l : NoDup (map f l) -> NoDup (map f (firstn n l)).
Proof.
  intros H. rewrite <- (firstn_skipn n l), map_app in H. now apply NoDup_app_remove_r in H.
Qed.

Lemma NoDup_map_skipn {A B} (f : A -> B) n l : NoDup (map f l) -> NoDup (map f (skipn n l)).
Proof.
  intros H. rewrite <- (firstn_skipn n l), map_app in H. now apply NoDup_app_remove_l in H.
Qed.

Lemma NoDup_map_perm {A B} (f : A -> B) l l' :
  Permutation l l' -> NoDup (map f l) -> NoDup (map f l').
Proof. intros Hp. apply Permutation_NoDup. now apply Permutation_map. Qed.

Lemma family_query_refs_NoDup like db P op order_s fetch_limit fetch_target t :
  ids_unique db ->
  NoDup (map fst (family_query like db P op order_s fetch_limit fetch_target t)).
Proof.
  intros Hu. unfold family_query, sql_limit.
  assert (H : NoDup (map fst
                (stable_sort (key_le order_s)
                   (map (fun r => (type_label t, row_id r, row_mtime r))
                      (filter (fun r => forallb (eval_cond like db r)
                                          (build_query P op fetch_target t))
                              (rows_of db t)))))).
  { apply (NoDup_map_perm fst _ _ (Permutation_sym (stable_sort_perm _ _))).
    rewrite map_map. cbn [fst]. apply NoDup_map_tag.
    apply filter_NoDup_map. now apply rows_of_ids_NoDup. }
  destruct (_ <? 0); [assumption | now apply NoDup_map_firstn].
Qed.

Lemma tables_of_NoDup source : NoDup (tables_of source).
Proof.
  unfold tables_of.
  destruct (mem source ["all"; "pixiv"]); destruct (mem source ["all"; "tweets"]);
    destruct (mem source ["all"; "others"]); simpl;
    repeat constructor; simpl; intuition discriminate.
Qed.

Lemma type_label_inj t t' : type_label t = type_label t' -> t = t'.
Proof. destruct t; destruct t'; simpl; intros H; try reflexivity; discriminate. Qed.

Lemma fetch_ids_refs_NoDup like db P fetch_dir fetch_limit fetch_target :
  ids_unique db ->
  NoDup (map fst (fetch_ids like db P fetch_dir fetch_limit fetch_target)).
Proof.
  intros Hu. unfold fetch_ids. destruct (select_op (sp_sort P) fetch_dir) as [op order_s].
  unfold py_slice. apply NoDup_map_firstn, NoDup_map_skipn.
  apply (NoDup_map_perm fst _ _ (Permutation_sym (stable_sort_perm _ _))).
  pose proof (tables_of_NoDup (sp_source P)) as Hts.
  induction (tables_of (sp_source P)) as [|t ts IH]; [constructor|].
  inversion Hts as [|? ? Ht Hts']; subst. cbn [flat_map]. rewrite map_app.
  apply NoDup_app; [now apply family_query_refs_NoDup | now apply IH |].
  intros ref Hin1 Hin2. apply in_map_iff in Hin1, Hin2.
  destruct Hin1 as [x [Hx Hin1]]. destruct Hin2 as [y [Hy Hin2]].
  apply family_query_inv in Hin1. destruct Hin1 as [r [_ [-> _]]].
  apply in_flat_map in Hin2. destruct Hin2 as [t' [Ht' Hin2]].
  apply family_query_inv in Hin2. destruct Hin2 as [r' [_ [-> _]]].
  subst ref. injection Hy as Hlab _. apply type_label_inj in Hlab. now subst.
Qed.

Lemma key_of_ref db x y :
  ids_unique db ->
  (exists t r, In r (rows_of db t) /\ x = (type_label t, row_id r, row_mtime r)) ->
  (exists t r, In r (rows_of db t) /\ y = (type_label t, row_id r, row_mtime r)) ->
  fst x = fst y -> item_key x = item_key y.
Proof.
  intros Hu [t [r [Hr ->]]] [t' [r' [Hr' ->]]] Heq. simpl in Heq. injection Heq as Hlab Hid.
  apply type_label_inj in Hlab. subst t'. unfold item_key. simpl.
  pose proof (rows_of_ids_NoDup db t Hu) as Hnd.
  assert (r = r'); [|now subst].
  clear Hu. induction (rows_of db t) as [|a l IH]; [easy|].
  simpl in Hnd. inversion Hnd as [|? ? Ha Hl]; subst.
  destruct Hr as [->|Hr]; destruct Hr' as [->|Hr']; auto.
  - exfalso. apply Ha. rewrite Hid. now apply in_map.
  - exfalso. apply Ha. rewrite <- Hid. now apply in_map.
Qed.

(** X6.  On a database with unique ids no page names a record twice: the
    pairs of family and id of the returned records are pairwise distinct,
    also for an "around" request, whose two halves cannot share a record. *)
Theorem page_without_repeats :
  forall like to_url db P,
    ids_unique db ->
    NoDup (map (fun rec => (rec_type rec, rec_id rec)) (get_stream like to_url db P)).
Proof.
  intros like to_url db P Hu.
  assert (Heq : map (fun rec => (rec_type rec, rec_id rec)) (get_stream like to_url db P)
                = map fst (final_ids like db P)).
  { rewrite <- (get_stream_per_item like to_url db P Hu), map_map. reflexivity. }
  rewrite Heq. unfold final_ids.
  assert (Hf : forall dir lim tgt, NoDup (map fst (fetch_ids like db P dir lim tgt)))
    by (intros; now apply fetch_ids_refs_NoDup).
  assert (Hr : forall dir lim tgt, NoDup (map fst (rev (fetch_ids like db P dir lim tgt)))).
  { intros. rewrite map_rev. apply (Permutation_NoDup (Permutation_rev _)), Hf. }
  assert (Hrow : forall dir lim tgt x, In x (fetch_ids like db P dir lim tgt) ->
            exists t r, In r (rows_of db t) /\ x = (type_label t, row_id r, row_mtime r)).
  { intros dir lim tgt x Hx. apply fetch_ids_inv in Hx.
    destruct Hx as [t [r [_ [Hr' [Hx _]]]]]. now exists t, r. }
  assert (Hdisj : forall half target ref,
            In ref (map fst (fetch_ids like db P "newer" half (Some target))) ->
            ~ In ref (map fst (fetch_ids like db P "older" half (Some target)))).
  { intros half target ref H1 H2. apply in_map_iff in H1, H2.
    destruct H1 as [x [Hx H1]]. destruct H2 as [y [Hy H2]].
    pose proof (fetch_ids_bounds like db P half target x y H1 H2) as Hb.
    assert (Hk : item_key x = item_key y)
      by (apply (key_of_ref db); eauto; congruence).
    destruct (String.eqb (sp_sort P) "asc"); lia. }
  destruct (sp_target_date P) as [target|];
    [destruct (String.eqb (sp_direction P) "around")|];
    [|destruct (String.eqb (sp_direction P) "newer"); [destruct (String.eqb (sp_sort P) "desc")|]
     |destruct (String.eqb (sp_direction P) "newer"); [destruct (String.eqb (sp_sort P) "desc")|]];
    auto.
  destruct (String.eqb (sp_sort P) "desc"); rewrite map_app; apply NoDup_app; auto.
  - intros ref H1. rewrite map_rev in H1. apply in_rev in H1. now apply Hdisj.
  - intros ref H1 H2. rewrite map_rev in H2. apply in_rev in H2.
    exact (Hdisj _ _ ref H1 H2).
Qed.

Lemma page_without_repeats_witness :
  NoDup (map (fun rec => (rec_type rec, rec_id rec))
           (get_stream (fun _ _ => true) (fun p => p) misc_store (around_request "asc"))) /\
  List.length (get_stream (fun _ _ => true) (fun p => p) misc_store (around_request "asc"))
  = 6%nat.
Proof.
  split; [|vm_compute; reflexivity].
  apply (page_without_repeats (fun _ _ => true) (fun p => p) misc_store (around_request "asc")).
  apply misc_store_ids_unique.
Defined.

(** * Likes and the stream *)

(** The [type] field of the records that come from the table
    [toggle_like] writes to. *)
Definition liked_label (type : string) : string :=
  if String.eqb type "pixiv" then "pixiv"
  else if String.eqb type "tweet" then "tweet" else "other".

Definition set_rec_liked (v : bool) (r : record) : record :=
  match r with
  | RecPixiv id title author ts _ folder media url =>
      RecPixiv id title author ts v folder media url
  | RecTweet id ts user text url avatar folder _ media =>
      RecTweet id ts user text url avatar folder v media
  | RecOther id ts title folder _ media => RecOther id ts title folder v media
  end.

(** A record as it reads once [toggle_like(type, id, v)] has run. *)
Definition relike (type id : string) (v : bool) (r : record) : record :=
  if String.eqb (rec_type r) (liked_label type) && String.eqb (rec_id r) id
  then set_rec_liked v r else r.

(** The same on the rows. *)
Definition toggle_row (type id : string) (val : Z) (r : row) : row :=
  match r with
  | RowP w =>
      if String.eqb type "pixiv" && String.eqb (pw_id w) id
      then RowP (set_liked_pixiv val w) else r
  | RowT t =>
      if negb (String.eqb type "pixiv") && String.eqb type "tweet" && String.eqb (tw_id t) id
      then RowT (set_liked_tweet val t) else r
  | RowO o =>
      if negb (String.eqb type "pixiv") && negb (String.eqb type "tweet")
         && String.eqb (ow_id o) id
      then RowO (set_liked_other val o) else r
  end.

Lemma toggle_like_rows type id liked db t :
  rows_of (fst (toggle_like type id liked db)) t
  = map (toggle_row type id (if liked then 1 else 0)) (rows_of db t).
Proof.
  unfold toggle_like, update_liked. cbn [fst].
  destruct (String.eqb type "pixiv") eqn:Hp; [|destruct (String.eqb type "tweet") eqn:Ht];
    destruct t; cbn [rows_of pixiv_works tweets other_works]; rewrite !map_map;
    apply map_ext; intros x; cbn [toggle_row]; rewrite ?Hp, ?Ht; cbn [negb andb];
    try reflexivity;
    match goal with |- context [String.eqb ?a ?b] => destruct (String.eqb a b) end;
    reflexivity.
Qed.

Lemma toggle_like_children type id liked db :
  pixiv_pages (fst (toggle_like type id liked db)) = pixiv_pages db /\
  tweet_media (fst (toggle_like type id liked db)) = tweet_media db.
Proof.
  unfold toggle_like. cbn [fst].
  destruct (String.eqb type "pixiv"); [|destruct (String.eqb type "tweet")]; split; reflexivity.
Qed.

Lemma toggle_row_facts type id val r :
  row_id (toggle_row type id val r) = row_id r /\
  row_mtime (toggle_row type id val r) = row_mtime r /\
  row_folder (toggle_row type id val r) = row_folder r.
Proof.
  destruct r; cbn [toggle_row];
    match goal with |- context [if ?c then _ else _] => destruct c end;
    repeat split.
Qed.

Lemma toggle_row_cond like type id liked db r c :
  c <> CLiked ->
  eval_cond like (fst (toggle_like type id liked db))
            (toggle_row type id (if liked then 1 else 0) r) c
  = eval_cond like db r c.
Proof.
  intros Hc. destruct (toggle_like_children type id liked db) as [Hpp Htm].
  destruct (toggle_row_facts type id (if liked then 1 else 0) r) as [Hid [Hmt Hfo]].
  destruct c; cbn [eval_cond]; rewrite ?Hmt, ?Hfo; try reflexivity; try congruence;
    unfold pages_of, media_of; rewrite ?Hpp, ?Htm;
    destruct r; cbn [toggle_row];
    match goal with |- context [if ?c then _ else _] => destruct c end;
    reflexivity.
Qed.

Lemma build_query_not_liked P op fetch_target t c :
  sp_filter_type P <> "liked" -> In c (build_query P op fetch_target t) -> c <> CLiked.
Proof.
  intros Hf Hin ->. apply String.eqb_neq in Hf. unfold build_query in Hin. rewrite Hf in Hin.
  rewrite !in_app_iff in Hin.
  destruct Hin as [Hin|[Hin|[Hin|Hin]]].
  - destruct (truthy (sp_folder P)) as [f|]; [destruct (String.eqb f "ALL")|];
      simpl in Hin; intuition discriminate.
  - destruct (truthy (sp_q P)); simpl in Hin; intuition discriminate.
  - destruct (String.eqb (sp_filter_type P) "text"); [destruct t|];
      [| | |destruct (String.eqb (sp_filter_type P) "video");
            [|destruct (String.eqb (sp_filter_type P) "image")]];
      simpl in Hin; intuition discriminate.
  - destruct fetch_target; simpl in Hin; intuition discriminate.
Qed.

Lemma map_filter_map {A B} (u : A -> A) (p p' : A -> bool) (f : A -> B) l :
  (forall x, p' (u x) = p x) -> (forall x, f (u x) = f x) ->
  map f (filter p' (map u l)) = map f (filter p l).
Proof.
  intros Hp Hf. induction l as [|x l IH]; [reflexivity|].
  simpl. rewrite Hp. destruct (p x); simpl; now rewrite ?Hf, IH.
Qed.

Lemma forallb_ext_in {A} (f g : A -> bool) l :
  (forall x, In x l -> f x = g x) -> forallb f l = forallb g l.
Proof.
  induction l as [|x l IH]; intros H; [reflexivity|].
  simpl. rewrite (H x (or_introl eq_refl)), IH; [reflexivity|]. intros; apply H; now right.
Qed.

Lemma fetch_ids_toggle like type id liked db P fetch_dir fetch_limit fetch_target :
  sp_filter_type P <> "liked" ->
  fetch_ids like (fst (toggle_like type id liked db)) P fetch_dir fetch_limit fetch_target
  = fetch_ids like db P fetch_dir fetch_limit fetch_target.
Proof.
  intros Hf. unfold fetch_ids. destruct (select_op (sp_sort P) fetch_dir) as [op order_s].
  f_equal. f_equal. apply flat_map_ext. intros t. unfold family_query. f_equal. f_equal.
  rewrite toggle_like_rows. apply map_filter_map.
  - intros r. apply forallb_ext_in. intros c Hc. apply toggle_row_cond.
    now apply (build_query_not_liked P op fetch_target t).
  - intros r. destruct (toggle_row_facts type id (if liked then 1 else 0) r) as [-> [-> _]].
    reflexivity.
Qed.

Lemma find_update_liked {A} (key : A -> string) set v id r_id (tbl : list A) :
  (forall x, key (set v x) = key x) ->
  find (fun w => String.eqb (key w) r_id) (update_liked key set v id tbl)
  = option_map (fun r => if String.eqb (key r) id then set v r else r)
               (find (fun w => String.eqb (key w) r_id) tbl).
Proof.
  intros Hk. unfold update_liked. induction tbl as [|x l IH]; [reflexivity|].
  simpl. destruct (String.eqb (key x) id) eqn:Hid; rewrite ?Hk;
    destruct (String.eqb (key x) r_id); simpl; rewrite ?Hid; auto.
Qed.

Lemma hydrate_toggle to_url type id liked db x :
  hydrate to_url (fst (toggle_like type id liked db)) x
  = map (relike type id liked) (hydrate to_url db x).
Proof.
  destruct x as [[r_type r_id] k].
  destruct (toggle_like_children type id liked db) as [Hpp Htm].
  unfold hydrate, pages_of, media_of. rewrite Hpp, Htm.
  unfold toggle_like, relike, liked_label. cbn [fst].
  destruct (String.eqb type "pixiv") eqn:Hp; [|destruct (String.eqb type "tweet") eqn:Ht];
    cbn [pixiv_works tweets other_works];
    (destruct (String.eqb r_type "pixiv") eqn:Rp;
     [|destruct (String.eqb r_type "tweet") eqn:Rt;
       [|destruct (String.eqb r_type "other") eqn:Ro; [|reflexivity]]]);
    rewrite ?find_update_liked by reflexivity;
    match goal with |- context [find ?f ?l] => destruct (find f l) as [w|] end;
    cbn [option_map map rec_type rec_id String.eqb Ascii.eqb Bool.eqb andb];
    try reflexivity;
    match goal with |- context [String.eqb ?a id] => destruct (String.eqb a id) end;
    cbn [set_rec_liked set_liked_pixiv set_liked_tweet set_liked_other
         pw_id pw_title pw_author pw_file_mtime pw_is_liked pw_folder_name
         tw_id tw_file_mtime tw_user_name tw_text tw_tweet_url tw_avatar_url
         tw_folder_name tw_is_liked
         ow_id ow_file_mtime ow_filename ow_folder_name ow_is_liked ow_file_path
         ow_media_type];
    try reflexivity; destruct liked; reflexivity.
Qed.

Lemma flat_map_map_out {A B} (f : A -> list B) (g : B -> B) l :
  flat_map (fun x => map g (f x)) l = map g (flat_map f l).
Proof.
  induction l as [|x l IH]; [reflexivity|]. simpl. now rewrite map_app, IH.
Qed.

(** X7.  Liking and streaming compose: for a request that does not filter
    on likes, the page after [toggle_like(type, id, v)] is the page before
    it, record by record and in the same order, with the like flag of the
    record of that family and id set to [v] and nothing else changed. *)
Theorem like_then_stream :
  forall like to_url type id v db P,
    sp_filter_type P <> "liked" ->
    get_stream like to_url (fst (toggle_like type id v db)) P
    = map (relike type id v) (get_stream like to_url db P).
Proof.
  intros like to_url type id v db P Hf. unfold get_stream.
  assert (Hids : final_ids like (fst (toggle_like type id v db)) P = final_ids like db P).
  { unfold final_ids. destruct (sp_target_date P); now rewrite !fetch_ids_toggle. }
  rewrite Hids, <- flat_map_map_out. apply flat_map_ext. intros x. apply hydrate_toggle.
Qed.

Lemma like_then_stream_witness :
  map rec_liked
    (get_stream (fun _ _ => true) (fun p => p)
       (fst (toggle_like "other" "md5:/r/misc/hhhhhhhh.png" true misc_store)) (small_page 0))
  = [true; false; false].
Proof.
  rewrite (like_then_stream (fun _ _ => true) (fun p => p) "other"
             "md5:/r/misc/hhhhhhhh.png" true misc_store (small_page 0)).
  - vm_compute. reflexivity.
  - simpl. discriminate.
Defined.

(** ** A page that is large enough is the whole stream *)

Lemma sql_limit_whole {A} n (l : list A) :
  Z.of_nat (List.length l) <= n -> sql_limit n l = l.
Proof.
  intros H. unfold sql_limit. destruct (n <? 0); [reflexivity|]. apply firstn_all2. lia.
Qed.

Lemma py_slice_whole {A} n (l : list A) :
  Z.of_nat (List.length l) <= n -> py_slice 0 (0 + n) l = l.
Proof.
  intros H. rewrite py_slice_nonneg by lia. simpl. apply firstn_all2. lia.
Qed.

Lemma length_flat_map_le {A B C} (f : A -> list B) (g : A -> list C) l :
  (forall x, (List.length (f x) <= List.length (g x))%nat) ->
  (List.length (flat_map f l) <= List.length (flat_map g l))%nat.
Proof.
  intros H. induction l as [|x l IH]; [auto|].
  simpl. rewrite !length_app. specialize (H x). lia.
Qed.

Lemma length_flat_map_In {A B} (g : A -> list B) l t :
  In t l -> (List.length (g t) <= List.length (flat_map g l))%nat.
Proof.
  induction l as [|x l IH]; [easy|]. simpl. rewrite length_app.
  intros [->|H]; [lia | specialize (IH H); lia].
Qed.

Lemma family_hits_length like db P op fetch_target t :
  (List.length (family_hits like db P op fetch_target t) <= List.length (rows_of db t))%nat.
Proof. unfold family_hits. rewrite length_map. apply filter_length_le. Qed.

Lemma family_query_length like db P op order_s fetch_limit fetch_target t :
  (List.length (family_query like db P op order_s fetch_limit fetch_target t)
   <= List.length (rows_of db t))%nat.
Proof.
  unfold family_query, sql_limit.
  destruct (_ <? 0); rewrite ?length_firstn, stable_sort_length, length_map;
    pose proof (filter_length_le
                  (fun r => forallb (eval_cond like db r) (build_query P op fetch_target t))
                  (rows_of db t)); lia.
Qed.

(** With no offset and a limit of at least the number of rows of the
    selected tables, [fetch_ids] returns every row that passes [where]. *)
Lemma fetch_ids_whole like db P fetch_dir fetch_limit fetch_target t x :
  sp_offset P = 0 ->
  Z.of_nat (List.length (flat_map (rows_of db) (tables_of (sp_source P)))) <= fetch_limit ->
  In t (tables_of (sp_source P)) ->
  In x (family_hits like db P (fst (select_op (sp_sort P) fetch_dir)) fetch_target t) ->
  In x (fetch_ids like db P fetch_dir fetch_limit fetch_target).
Proof.
  intros Hoff Hlim Ht Hx. unfold fetch_ids.
  destruct (select_op (sp_sort P) fetch_dir) as [op order_s]. cbn [fst] in Hx.
  rewrite Hoff, py_slice_whole.
  - apply stable_sort_In, in_flat_map. exists t. split; [assumption|].
    unfold family_query. rewrite sql_limit_whole.
    + apply stable_sort_In. exact Hx.
    + rewrite stable_sort_length. fold (family_hits like db P op fetch_target t).
      pose proof (family_hits_length like db P op fetch_target t).
      pose proof (length_flat_map_In (rows_of db) _ t Ht). lia.
  - rewrite stable_sort_length.
    pose proof (length_flat_map_le
                  (family_query like db P op order_s fetch_limit fetch_target)
                  (rows_of db) (tables_of (sp_source P))
                  (family_query_length like db P op order_s fetch_limit fetch_target)).
    lia.
Qed.

Lemma final_ids_whole like db P t r :
  sp_offset P = 0 -> sp_target_date P = None ->
  Z.of_nat (List.length (flat_map (rows_of db) (tables_of (sp_source P)))) <= sp_limit P ->
  In t (tables_of (sp_source P)) -> In r (rows_of db t) ->
  (forall c, In c (build_query P OpLe None t) -> eval_cond like db r c = true) ->
  In (type_label t, row_id r, row_mtime r) (final_ids like db P).
Proof.
  intros Hoff Htgt Hlim Ht Hr Hc.
  assert (Hhit : forall op,
            In (type_label t, row_id r, row_mtime r) (family_hits like db P op None t)).
  { intros op. unfold family_hits.
    apply (in_map (fun r => (type_label t, row_id r, row_mtime r))).
    apply filter_In. split; [assumption|]. apply forallb_forall. exact Hc. }
  assert (Hf : forall dir,
            In (type_label t, row_id r, row_mtime r)
               (fetch_ids like db P dir (sp_limit P) None))
    by (intros dir; apply (fetch_ids_whole like db P dir (sp_limit P) None t); auto).
  unfold final_ids. rewrite Htgt.
  destruct (String.eqb (sp_direction P) "newer"); [destruct (String.eqb (sp_sort P) "desc")|];
    try apply Hf.
  apply in_rev. rewrite rev_involutive. apply Hf.
Qed.



(** ** The favourites view *)

Lemma toggle_row_liked type id val db t r :
  In r (rows_of db t) -> type_label t = liked_label type -> row_id r = id ->
  row_liked (toggle_row type id val r) = val.
Proof.
  intros Hr Hlab Hid. unfold liked_label in Hlab.
  destruct t; simpl in Hr; apply in_map_iff in Hr; destruct Hr as [w [<- _]];
    simpl in Hid; cbn [toggle_row type_label] in *;
    apply String.eqb_eq in Hid; rewrite Hid;
    destruct (String.eqb type "pixiv"); try discriminate; try reflexivity;
    destruct (String.eqb type "tweet"); try discriminate; reflexivity.
Qed.



(** * The folder list *)

(** [get_folders(source)], lines 383-386: the tables that are read. *)
Definition targets_of (source : string) : list table :=
  if String.eqb source "all" then [PixivWorks; Tweets; OtherWorks]
  else if String.eqb source "pixiv" then [PixivWorks]
  else if String.eqb source "tweets" then [Tweets]
  else if String.eqb source "others" then [OtherWorks]
  else [].

(** [folders.update(names)] on a set kept as a list without repeats. *)
Definition set_update (folders names : list string) : list string :=
  fold_left (fun s x => if mem x s then s else (s ++ [x])%list) names folders.

(** [SELECT DISTINCT folder_name FROM t] *)
Definition distinct_folders (db : store) (t : table) : list string :=
  nodup string_dec (map row_folder (rows_of db t)).

(** [get_folders(source)]: [sorted(list(folders))].  Python orders strings
    by code point, which is the byte order of their UTF-8 encoding; the five
    tables exist once [init_db] has run, so that no [SELECT] fails. *)
Definition get_folders (source : string) (db : store) : list string :=
  stable_sort String.leb
    (fold_left (fun folders t => set_update folders (distinct_folders db t))
               (targets_of source) []).

Lemma ascii_compare_spec (a b : ascii) :
  CompareSpec (a = b) (N_of_ascii a < N_of_ascii b)%N (N_of_ascii b < N_of_ascii a)%N
              (Ascii.compare a b).
Proof.
  unfold Ascii.compare. destruct (BinNat.N.compare_spec (N_of_ascii a) (N_of_ascii b)) as [H|H|H];
    constructor; try assumption.
  rewrite <- (ascii_N_embedding a), <- (ascii_N_embedding b). now rewrite H.
Qed.

Lemma string_leb_trans (x y z : string) :
  String.leb x y = true -> String.leb y z = true -> String.leb x z = true.
Proof.
  unfold String.leb. revert y z.
  induction x as [|a x IH]; intros [|b y] [|c z]; simpl; try congruence.
  destruct (ascii_compare_spec a b) as [Hab|Hab|Hab]; try congruence;
    destruct (ascii_compare_spec b c) as [Hbc|Hbc|Hbc]; try congruence;
    destruct (ascii_compare_spec a c) as [Hac|Hac|Hac]; try congruence;
    subst; try (intros _ _; exfalso; lia).
  apply IH.
Qed.

Lemma set_update_In folders names x :
  In x (set_update folders names) <-> In x folders \/ In x names.
Proof.
  unfold set_update. revert folders.
  induction names as [|n names IH]; intros folders; simpl; [tauto|].
  rewrite IH. destruct (mem n folders) eqn:Hm.
  - apply mem_In in Hm. split; [tauto|]. intros [H|[<-|H]]; auto.
  - rewrite in_app_iff. simpl. tauto.
Qed.

Lemma set_update_NoDup folders names : NoDup folders -> NoDup (set_update folders names).
Proof.
  unfold set_update. revert folders.
  induction names as [|n names IH]; intros folders H; simpl; [assumption|].
  apply IH. destruct (mem n folders) eqn:Hm; [assumption|].
  apply mem_false in Hm. apply NoDup_app; [assumption | repeat constructor; easy |].
  intros a Ha [<-|[]]. contradiction.
Qed.

Lemma folders_loop_In db ts folders x :
  In x (fold_left (fun folders t => set_update folders (distinct_folders db t)) ts folders)
  <-> In x folders \/ exists t r, In t ts /\ In r (rows_of db t) /\ row_folder r = x.
Proof.
  revert folders. induction ts as [|t ts IH]; intros folders; simpl.
  - split; [tauto|]. intros [H|[t [r [[] _]]]]. assumption.
  - rewrite IH, set_update_In. unfold distinct_folders. rewrite nodup_In, in_map_iff.
    split.
    + intros [[H|[r [Hf Hr]]]|[t' [r [Ht [Hr Hf]]]]]; [now left | right | right].
      * exists t, r. auto.
      * exists t', r. auto.
    + intros [H|[t' [r [[<-|Ht] [Hr Hf]]]]]; [now left; left | left; right | right].
      * exists r. auto.
      * exists t', r. auto.
Qed.

Lemma folders_loop_NoDup db ts folders :
  NoDup folders ->
  NoDup (fold_left (fun folders t => set_update folders (distinct_folders db t)) ts folders).
Proof.
  revert folders. induction ts as [|t ts IH]; intros folders H; simpl; [assumption|].
  now apply IH, set_update_NoDup.
Qed.

Lemma targets_of_tables source : targets_of source = tables_of source.
Proof.
  unfold targets_of, tables_of, mem. cbn [existsb].
  destruct (String.eqb_spec source "all") as [->|_]; [reflexivity|].
  destruct (String.eqb_spec source "pixiv") as [->|_]; [reflexivity|].
  destruct (String.eqb_spec source "tweets") as [->|_]; [reflexivity|].
  destruct (String.eqb_spec source "others") as [->|_]; reflexivity.
Qed.

Lemma get_folders_In source db f :
  In f (get_folders source db) <->
  exists t r, In t (targets_of source) /\ In r (rows_of db t) /\ row_folder r = f.
Proof.
  unfold get_folders. rewrite stable_sort_In, folders_loop_In. simpl. tauto.
Qed.

(** X10.  The folder list is the set of folder names of the rows of the
    tables that [source] selects: each such name is listed, nothing else
    is, no name is listed twice and the list is in ascending order.  A
    [source] other than "all", "pixiv", "tweets" and "others" gives the
    empty list. *)
Theorem folder_list_exact :
  forall source db,
    (forall f, In f (get_folders source db) <->
               exists t r, In t (targets_of source) /\ In r (rows_of db t) /\ row_folder r = f) /\
    NoDup (get_folders source db) /\
    ordered String.leb (get_folders source db) /\
    (~ In source ["all"; "pixiv"; "tweets"; "others"] -> get_folders source db = []).
Proof.
  intros source db. split; [|split; [|split]].
  - intros f. apply get_folders_In.
  - unfold get_folders.
    apply (Permutation_NoDup (Permutation_sym (stable_sort_perm _ _))).
    apply folders_loop_NoDup. constructor.
  - unfold get_folders. apply stable_sort_ordered.
    + apply String.leb_total.
    + apply string_leb_trans.
  - intros Hs. unfold get_folders, targets_of.
    destruct (String.eqb_spec source "all") as [->|_]; [exfalso; apply Hs; simpl; auto|].
    destruct (String.eqb_spec source "pixiv") as [->|_]; [exfalso; apply Hs; simpl; auto|].
    destruct (String.eqb_spec source "tweets") as [->|_]; [exfalso; apply Hs; simpl; auto|].
    destruct (String.eqb_spec source "others") as [->|_]; [exfalso; apply Hs; simpl; auto|].
    reflexivity.
Qed.


Definition folder_request (f : string) : stream_params :=
  {| sp_limit := 50; sp_offset := 0; sp_source := "all"; sp_q := None; sp_sort := "desc";
     sp_folder := Some f; sp_filter_type := "all"; sp_target_date := None;
     sp_direction := "older" |}.


(** * Further properties of the classifier worker *)

Lemma fold_opt_total {S A} (step : S -> A -> option S) l init :
  (forall s a, In a l -> step s a <> None) -> fold_opt step l init <> None.
Proof.
  revert init. induction l as [|a r IH]; intros init H; [discriminate|].
  rewrite fold_opt_cons. destruct (step init a) as [s|] eqn:Hs.
  - apply IH. intros; apply H; now right.
  - exfalso. apply (H init a); [now left | assumption].
Qed.


(** An environment in which no sidecar can be opened. *)
Definition no_sidecar_env : Env :=
  {| md5_hex := fun s => "md5:" ++ s;
     getmtime_ms := fun p => if endswith p ".json" then None else Some 1000;
     load_sidecar := fun _ => None |}.



Definition art_task : task :=
  {| t_root := "/r/art_123"; t_files := ["12345_p0.png"; "cover.jpg"; "note.txt"];
     t_existing_pixiv := []; t_existing_tweets := []; t_existing_others := [] |}.


(** ** The row of a new artwork *)

(** What holds of every bucket while the artwork loop runs: the timestamp
    is the newest modification time among the files of its pages, the title
    is the name of the file of the first page, author and folder are those
    of the directory. *)
Definition bucket_dated (E : Env) (root folder_name author : string) (b : bucket) : Prop :=
  (forall page, In page (bk_pages b) ->
     exists m, getmtime_ms E (snd (fst page)) = Some m /\ m <= bk_timestamp b) /\
  (exists page, In page (bk_pages b) /\
                getmtime_ms E (snd (fst page)) = Some (bk_timestamp b)) /\
  (exists page rest, bk_pages b = page :: rest /\
                     snd (fst page) = path_join root (bk_title b)) /\
  bk_folder b = folder_name /\ bk_author b = author.

Lemma bucket_dated_fresh E root folder_name author mf mtime p_num kind :
  getmtime_ms E (path_join root mf) = Some mtime ->
  bucket_dated E root folder_name author
    (bucket_add_page mtime (p_num, path_join root mf, kind)
       {| bk_title := mf; bk_author := author; bk_timestamp := mtime;
          bk_folder := folder_name; bk_pages := [] |}).
Proof.
  intros Hm. unfold bucket_dated, bucket_add_page. cbn.
  rewrite Z.ltb_irrefl. repeat split.
  - intros page [<-|[]]. exists mtime. split; [assumption | lia].
  - eexists. split; [now left | assumption].
  - eexists _, _. split; reflexivity.
Qed.

Lemma bucket_dated_add E root folder_name author b mf mtime p_num kind :
  getmtime_ms E (path_join root mf) = Some mtime ->
  bucket_dated E root folder_name author b ->
  bucket_dated E root folder_name author
    (bucket_add_page mtime (p_num, path_join root mf, kind) b).
Proof.
  intros Hm [Hall [[top [Htop Htime]] [[first [rest [Hpages Hfirst]]] [Hfo Hau]]]].
  unfold bucket_dated, bucket_add_page. cbn [bk_pages bk_timestamp bk_title bk_folder bk_author].
  repeat split; auto.
  - intros page Hin. apply in_app_or in Hin. destruct Hin as [Hin|[<-|[]]].
    + destruct (Hall page Hin) as [m [Hpm Hle]]. exists m. split; [assumption|].
      destruct (bk_timestamp b <? mtime) eqn:Hlt; [apply Z.ltb_lt in Hlt|]; lia.
    + exists mtime. split; [assumption|].
      destruct (bk_timestamp b <? mtime) eqn:Hlt; [|apply Z.ltb_ge in Hlt]; lia.
  - destruct (bk_timestamp b <? mtime).
    + eexists. split; [apply in_or_app; right; now left | assumption].
    + exists top. split; [apply in_or_app; now left | assumption].
  - exists first, (rest ++ [(p_num, path_join root mf, kind)])%list.
    rewrite Hpages. split; [reflexivity | assumption].
Qed.

Lemma buffer_add_keys_exact wid fresh mtime page buf :
  map fst (buffer_add wid fresh mtime page buf)
  = if mem wid (map fst buf) then map fst buf else (map fst buf ++ [wid])%list.
Proof.
  induction buf as [|[k b] r IH]; [reflexivity|].
  simpl. unfold mem in *. simpl. rewrite (String.eqb_sym wid k).
  destruct (String.eqb k wid); simpl; [reflexivity|].
  rewrite IH. destruct (existsb (String.eqb wid) (map fst r)); reflexivity.
Qed.

Lemma buffer_add_NoDup wid fresh mtime page buf :
  NoDup (map fst buf) -> NoDup (map fst (buffer_add wid fresh mtime page buf)).
Proof.
  intros H. rewrite buffer_add_keys_exact. destruct (mem wid (map fst buf)) eqn:Hm; [assumption|].
  apply mem_false in Hm. apply NoDup_app; [assumption | repeat constructor; easy |].
  intros a Ha [<-|[]]. contradiction.
Qed.

Lemma pixiv_loop_dated E root folder_name aid author existing_pixiv l used0 buf' used' :
  fold_opt (pixiv_step E root folder_name aid author existing_pixiv) l ([], used0)
  = Some (buf', used') ->
  NoDup (map fst buf') /\
  Forall (fun wb => bucket_dated E root folder_name author (snd wb)) buf'.
Proof.
  intros H.
  apply (fold_opt_invariant (pixiv_step E root folder_name aid author existing_pixiv)
           (fun st => NoDup (map fst (fst st)) /\
                      Forall (fun wb => bucket_dated E root folder_name author (snd wb)) (fst st))
           l ([], used0) (buf', used')); [split; constructor | | exact H].
  intros [buf used] mf st' _ [Hnd Hall] Hstep. cbn [fst] in Hnd, Hall.
  unfold pixiv_step in Hstep.
  destruct (mem mf used); [injection Hstep as <-; split; assumption|].
  destruct (resolve_work E aid mf) as [wid p_num].
  destruct (mem wid existing_pixiv); [injection Hstep as <-; split; assumption|].
  destruct (getmtime_ms E (path_join root mf)) as [mtime|] eqn:Hm; [|discriminate].
  injection Hstep as <-. cbn [fst]. split; [now apply buffer_add_NoDup|].
  apply Forall_forall. intros [k b'] Hin. cbn [snd].
  rewrite Forall_forall in Hall.
  apply buffer_add_In in Hin. destruct Hin as [Hin|[_ [->|[b [Hb ->]]]]].
  - apply (Hall _ Hin).
  - now apply bucket_dated_fresh.
  - apply bucket_dated_add; [assumption | apply (Hall _ Hb)].
Qed.



(** ** No media file is lost by the worker *)

Lemma buffer_add_page_in wid fresh mtime page buf :
  exists b', In (wid, b') (buffer_add wid fresh mtime page buf) /\ In page (bk_pages b').
Proof.
  induction buf as [|[k b] r [b' [Hin Hp]]]; simpl.
  - eexists. split; [now left|]. simpl. apply in_or_app. right. now left.
  - destruct (String.eqb_spec k wid) as [->|Hne].
    + eexists. split; [now left|]. simpl. apply in_or_app. right. now left.
    + exists b'. split; [now right | assumption].
Qed.

Lemma buffer_add_keeps wid fresh mtime page buf k b pg :
  In (k, b) buf -> In pg (bk_pages b) ->
  exists b', In (k, b') (buffer_add wid fresh mtime page buf) /\ In pg (bk_pages b').
Proof.
  induction buf as [|[k0 b0] r IH]; simpl; [easy|].
  intros [Heq|Hin] Hpg.
  - injection Heq as -> ->. destruct (String.eqb k wid).
    + eexists. split; [now left|]. simpl. apply in_or_app. now left.
    + exists b. split; [now left | assumption].
  - destruct (IH Hin Hpg) as [b' [Hb' Hp']]. destruct (String.eqb k0 wid).
    + exists b. split; [now right | assumption].
    + exists b'. split; [now right | assumption].
Qed.

(** Every file the artwork loop has consumed was consumed before it began,
    belongs to a work of the snapshot, or is a page of the bucket of its
    work. *)
Lemma pixiv_loop_pages E root folder_name aid author existing_pixiv l used0 buf' used' :
  fold_opt (pixiv_step E root folder_name aid author existing_pixiv) l ([], used0)
  = Some (buf', used') ->
  forall f, In f used' ->
    In f used0 \/
    mem (fst (resolve_work E aid f)) existing_pixiv = true \/
    exists b, In (fst (resolve_work E aid f), b) buf' /\
              In (snd (resolve_work E aid f), path_join root f, media_type_of f) (bk_pages b).
Proof.
  intros H.
  apply (fold_opt_invariant (pixiv_step E root folder_name aid author existing_pixiv)
           (fun st => forall f, In f (snd st) ->
              In f used0 \/
              mem (fst (resolve_work E aid f)) existing_pixiv = true \/
              exists b, In (fst (resolve_work E aid f), b) (fst st) /\
                        In (snd (resolve_work E aid f), path_join root f, media_type_of f)
                           (bk_pages b))
           l ([], used0) (buf', used')); [simpl; auto | | exact H].
  intros [buf used] mf st' _ Hst Hstep. cbn [fst snd] in Hst. unfold pixiv_step in Hstep.
  destruct (mem mf used); [injection Hstep as <-; exact Hst|].
  destruct (resolve_work E aid mf) as [wid p_num] eqn:Hres.
  destruct (mem wid existing_pixiv) eqn:Hex.
  - injection Hstep as <-. cbn [fst snd]. intros f Hf.
    apply in_app_or in Hf. destruct Hf as [Hf|[<-|[]]]; [now apply Hst|].
    right. left. now rewrite Hres.
  - destruct (getmtime_ms E (path_join root mf)) as [mtime|]; [|discriminate].
    injection Hstep as <-. cbn [fst snd]. intros f Hf.
    apply in_app_or in Hf. destruct Hf as [Hf|[<-|[]]].
    + destruct (Hst f Hf) as [H0|[H1|[b [Hb Hpg]]]]; [now left | right; now left |].
      right. right. now apply buffer_add_keeps with b.
    + right. right. rewrite Hres. cbn [fst snd]. apply buffer_add_page_in.
Qed.

(** Where each media file of the directory has gone when the worker
    returns. *)
Lemma scan_worker_complete :
  forall E args tb pb ob mf,
    scan_worker E args = Some (tb, pb, ob) ->
    In mf (media_files_of (t_files args)) ->
    (exists tid, tweet_id_of mf = Some tid /\
                 (mem tid (t_existing_tweets args) = true \/
                  exists e, In e tb /\ tw_id (fst e) = tid /\
                            In (tm_of (t_root args) tid mf) (snd e)))
    \/ (exists aid, pixiv_folder_match (basename (t_root args)) = Some aid /\
                    (mem (fst (resolve_work E aid mf)) (t_existing_pixiv args) = true \/
                     exists b, In (fst (resolve_work E aid mf), b) pb /\
                               In (snd (resolve_work E aid mf), path_join (t_root args) mf,
                                   media_type_of mf) (bk_pages b)))
    \/ (mem (md5_hex E (path_join (t_root args) mf)) (t_existing_others args) = true \/
        exists mtime, In (other_row_of E (t_root args) (basename (t_root args)) mf mtime) ob).
Proof.
  intros E args tb pb ob mf Hw Hmf. apply scan_worker_phases in Hw.
  destruct Hw as [used1 [used2 [Ht [Hp Ho]]]].
  set (root := t_root args) in *. set (folder := basename root) in *.
  set (mfs := media_files_of (t_files args)) in *.
  set (jfs := json_files_of (t_files args)) in *.
  destruct (mem mf used1) eqn:Hu1.
  - left. apply mem_In in Hu1.
    pose proof (tweet_phase_used E root folder (t_existing_tweets args) mfs jfs mf) as Hc.
    rewrite Ht in Hc. destruct (Hc Hu1) as [_ [jf [tid [Hjf [Hid [Hfid Hwhy]]]]]].
    exists tid. split; [assumption|].
    destruct (mem tid (t_existing_tweets args)) eqn:Hex; [now left|]. right.
    destruct Hwhy as [Habs|Hrd]; [discriminate|].
    destruct (tweet_phase_complete E root folder (t_existing_tweets args) mfs jfs jf tid
                Hjf Hid) as [_ Hentry].
    rewrite Ht in Hentry. destruct (Hentry Hex Hrd) as [tw [Htw Hin]].
    exists (tw, map (tm_of root tid) (media_for_tweet mfs tid)).
    split; [assumption|]. split; [assumption|].
    cbn [snd]. apply in_map. now apply media_for_tweet_In.
  - right. unfold pixiv_phase in Hp.
    destruct (pixiv_folder_match folder) as [aid|] eqn:Hfolder.
    + left. exists aid. split; [reflexivity|].
      pose proof (pixiv_loop_sound E root folder aid (author_name_of folder)
                    (t_existing_pixiv args) mfs used1 mfs [] used1 pb used2
                    (incl_refl _) (incl_refl _) (Forall_nil _) Hp) as [_ [_ [_ Hall]]].
      destruct (pixiv_loop_pages _ _ _ _ _ _ _ _ _ _ Hp mf (Hall mf Hmf)) as [H0|[H1|H2]];
        [|now left | now right].
      apply mem_In in H0. congruence.
    + right. injection Hp as <- <-.
      now apply (others_loop_complete E root folder (t_existing_others args) used1 mfs ob mf).
Qed.



(** * Further properties of a scan pass *)

Lemma run_scan_body_others E completed db :
  other_works (fst (run_scan_body E completed db))
  = filter (fun o => negb (claimed (fst (run_scan_body E completed db)) (ow_file_path o)))
           (other_works (written db (results_of E completed))).
Proof. rewrite run_scan_body_written. reflexivity. Qed.


Lemma executemany_insert_length {A} (key : A -> string) tbl rows :
  (List.length tbl <= List.length (executemany_insert key tbl rows)
   <= List.length tbl + List.length rows)%nat.
Proof.
  unfold executemany_insert. revert tbl. induction rows as [|r rs IH]; simpl; intros tbl; [lia|].
  specialize (IH (insert_or_ignore key tbl r)). unfold insert_or_ignore in *.
  destruct (mem (key r) (map key tbl)); [lia|]. rewrite length_app in IH. simpl in IH. lia.
Qed.

Definition counts (s : scan_state) : Z * Z * Z := (cnt_p s, cnt_t s, cnt_o s).

Lemma counts_flush_tweets b s : counts (flush_tweets_if b s) = counts s.
Proof. now destruct b. Qed.

Lemma counts_flush_pixiv b s : counts (flush_pixiv_if b s) = counts s.
Proof. now destruct b. Qed.

Lemma counts_flush_others b s : counts (flush_others_if b s) = counts s.
Proof. now destruct b. Qed.

Lemma counts_report s : counts (report_progress s) = counts s.
Proof. unfold report_progress. now destruct (_ =? 0). Qed.

Lemma flush_counts s : counts (flush_rest s) = counts s.
Proof.
  unfold flush_rest.
  now rewrite counts_flush_others, counts_flush_pixiv, counts_flush_tweets.
Qed.

Lemma on_completed_counts E s t :
  let rs := match scan_worker E t with Some r => [r] | None => [] end in
  counts (on_completed E s t)
  = (cnt_p s + Z.of_nat (List.length (flat_map (fun r : worker_result => snd (fst r)) rs)),
     cnt_t s + Z.of_nat (List.length (flat_map (fun r : worker_result => fst (fst r)) rs)),
     cnt_o s + Z.of_nat (List.length (flat_map (fun r : worker_result => snd r) rs))).
Proof.
  unfold on_completed. destruct (scan_worker E t) as [[[tb pb] ob]|]; cbn [flat_map].
  - rewrite counts_report, counts_flush_others, counts_flush_pixiv, counts_flush_tweets.
    rewrite !app_nil_r. reflexivity.
  - unfold counts. cbn. now rewrite !Z.add_0_r.
Qed.

Lemma loop_counts E completed s :
  let rs := results_of E completed in
  counts (fold_left (on_completed E) completed s)
  = (cnt_p s + Z.of_nat (List.length (flat_map (fun r : worker_result => snd (fst r)) rs)),
     cnt_t s + Z.of_nat (List.length (flat_map (fun r : worker_result => fst (fst r)) rs)),
     cnt_o s + Z.of_nat (List.length (flat_map (fun r : worker_result => snd r) rs))).
Proof.
  revert s. induction completed as [|t r IH]; intros s; cbn -[on_completed].
  - unfold counts. now rewrite !Z.add_0_r.
  - cbn zeta in IH. rewrite IH.
    pose proof (on_completed_counts E s t) as H1. cbn zeta in H1. unfold counts in H1.
    injection H1 as -> -> ->.
    unfold results_of. rewrite !flat_map_app, !length_app, !Nat2Z.inj_add.
    f_equal; [f_equal|]; lia.
Qed.

(** The message a pass ends with. *)
Lemma run_scan_body_status E completed db :
  let rs := results_of E completed in
  snd (run_scan_body E completed db)
  = MsgDone (Z.of_nat (List.length (flat_map (fun r : worker_result => snd (fst r)) rs)))
            (Z.of_nat (List.length (flat_map (fun r : worker_result => fst (fst r)) rs)))
            (Z.of_nat (List.length (flat_map (fun r : worker_result => snd r) rs)))
            (snd (reconcile (written db rs))).
Proof.
  intros rs. unfold run_scan_body.
  set (s0 := scan_start (List.length completed) db).
  assert (Hp0 : buffers_paired s0) by (split; reflexivity).
  destruct (loop_settled E completed s0 Hp0) as [Hs Hp].
  rewrite <- flush_rest_settled in Hs by assumption.
  assert (Hs0 : settled s0 = db).
  { unfold settled, s0, write_others, write_pixiv, write_tweets. simpl.
    rewrite !app_nil_r. apply store_eta. }
  rewrite Hs0 in Hs.
  pose proof (flush_counts (fold_left (on_completed E) completed s0)) as Hc.
  rewrite (loop_counts E completed s0) in Hc. unfold counts in Hc.
  injection Hc as -> -> ->.
  rewrite Hs. fold rs. unfold reconcile. cbn [fst snd other_works cnt_p cnt_t cnt_o s0 scan_start].
  reflexivity.
Qed.


(** ** What a scan pass files, and what it leaves out *)

Lemma media_files_of_visible files mf :
  In mf (media_files_of files) -> startswith mf "." = false.
Proof.
  unfold media_files_of, visible_files. intros H. apply filter_In in H.
  destruct H as [H _]. apply filter_In in H. destruct H as [_ H].
  now apply negb_true_iff in H.
Qed.

(** A file of the walk that a pass may file: a visible media file of a
    directory that is not below a hidden one. *)
Definition scannable (walk : list (string * list string)) (p : string) : Prop :=
  exists root files f,
    In (root, files) walk /\ In f files /\ p = path_join root f /\
    startswith f "." = false /\ is_media_file f = true /\ in_hidden_dir root = false.

(** The paths in the rows of a worker's result. *)
Lemma scan_worker_paths E args r p :
  scan_worker E args = Some r ->
  In p (map pp_file_path (res_pages r)) \/ In p (map tm_file_path (res_tweet_media r)) \/
  In p (map ow_file_path (res_others r)) ->
  exists mf, In mf (media_files_of (t_files args)) /\ p = path_join (t_root args) mf.
Proof.
  destruct r as [[tb pb] ob]. intros Hw Hp. apply scan_worker_sound in Hw.
  destruct Hw as [Htb [u1 [u2 [_ [_ [Hpb Hob]]]]]].
  unfold res_pages, res_tweet_media, res_others in Hp. cbn [fst snd] in Hp.
  destruct Hp as [Hp|[Hp|Hp]]; apply in_map_iff in Hp; destruct Hp as [x [<- Hx]].
  - apply in_flat_map in Hx. destruct Hx as [[wid b] [Hwb Hx]]. cbn [fst snd] in Hx.
    apply final_pages_In in Hx. destruct Hx as [_ [page [Hpage [-> _]]]].
    destruct Hpb as [->|[aid Hpb]]; [destruct Hwb|].
    rewrite Forall_forall in Hpb. destruct (Hpb _ Hwb) as [_ [_ Hpages]].
    rewrite Forall_forall in Hpages. destruct (Hpages _ Hpage) as [mf [Hmf [_ [_ ->]]]].
    exists mf. auto.
  - apply in_flat_map in Hx. destruct Hx as [e [He Hx]].
    rewrite Forall_forall in Htb. destruct (Htb e He) as [_ [Hmedia _]].
    rewrite Hmedia in Hx. apply in_map_iff in Hx. destruct Hx as [mf [<- Hmf]].
    apply media_for_tweet_In in Hmf. exists mf. split; [tauto | reflexivity].
  - rewrite Forall_forall in Hob. destruct (Hob x Hx) as [mf [mtime [Hmf [_ [_ ->]]]]].
    exists mf. auto.
Qed.

(** X18.  What a scan pass never does.  Every file path that the database
    holds after a pass, in a page, a post medium or an unclassified row,
    was in the database before it or is the path of a media file of the
    walk whose name does not begin with a dot and whose directory has no
    hidden component: hidden files, hidden directories, sidecars and files
    of other kinds are never filed. *)
Theorem scan_files_only_visible_media :
  forall E walk db db' p,
    scan_of E walk db db' ->
    In p (map pp_file_path (pixiv_pages db')) \/ In p (map tm_file_path (tweet_media db')) \/
    In p (map ow_file_path (other_works db')) ->
    (In p (map pp_file_path (pixiv_pages db)) \/ In p (map tm_file_path (tweet_media db)) \/
     In p (map ow_file_path (other_works db)))
    \/ scannable walk p.
Proof.
  intros E walk db db' p [completed [Hperm ->]] Hp.
  rewrite run_scan_body_written in Hp.
  set (rs := results_of E completed) in *.
  assert (Hnew : forall r, In r rs ->
            In p (map pp_file_path (res_pages r)) \/ In p (map tm_file_path (res_tweet_media r)) \/
            In p (map ow_file_path (res_others r)) -> scannable walk p).
  { intros r Hr Hin. apply results_of_In in Hr. destruct Hr as [t [Ht Hw]].
    apply (Permutation_in _ Hperm), make_tasks_In in Ht.
    destruct Ht as [root [files [Hwalk [Hvis ->]]]].
    destruct (scan_worker_paths E _ r p Hw Hin) as [mf [Hmf ->]]. cbn in Hmf |- *.
    apply orb_false_iff in Hvis. destruct Hvis as [_ Hhid].
    exists root, files, mf. pose proof (media_files_of_visible files mf Hmf).
    apply media_files_of_In in Hmf. tauto. }
  destruct (reconcile_tables (written db rs)) as [_ [Hpp [_ [Htm Ho]]]].
  rewrite Hpp, Htm in Hp. cbn [written pixiv_pages tweet_media] in Hp.
  rewrite !map_app, !in_app_iff in Hp.
  destruct Hp as [[Hp|Hp]|[[Hp|Hp]|Hp]]; auto.
  - right. apply in_map_iff in Hp. destruct Hp as [x [<- Hx]].
    apply in_flat_map in Hx. destruct Hx as [r [Hr Hx]].
    apply (Hnew r Hr). left. now apply in_map.
  - right. apply in_map_iff in Hp. destruct Hp as [x [<- Hx]].
    apply in_flat_map in Hx. destruct Hx as [r [Hr Hx]].
    apply (Hnew r Hr). right. left. now apply in_map.
  - rewrite Ho in Hp. apply in_map_iff in Hp. destruct Hp as [o [<- Hin]].
    apply filter_In in Hin. destruct Hin as [Hin _].
    cbn [written other_works] in Hin. apply executemany_insert_In in Hin.
    destruct Hin as [Hin|Hin]; [left; right; right; now apply in_map|].
    right. apply in_flat_map in Hin. destruct Hin as [r [Hr Hx]].
    apply (Hnew r Hr). right. right. now apply in_map.
Qed.

Definition hidden_walk : list (string * list string) :=
  [("/r/.cache", ["a.png"]); ("/r/pics", [".thumb.jpg"; "b.png"; "b.json"; "b.txt"])].

Lemma scan_files_only_visible_media_witness :
  let db' := fst (run_scan_body demo_env (make_tasks hidden_walk empty_store) empty_store) in
  map ow_file_path (other_works db') = ["/r/pics/b.png"] /\ scannable hidden_walk "/r/pics/b.png".
Proof.
  intros db'. split; [vm_compute; reflexivity|].
  destruct (scan_files_only_visible_media demo_env hidden_walk empty_store db' "/r/pics/b.png")
    as [[[]|[[]|[]]]|H].
  - exists (make_tasks hidden_walk empty_store). split; [apply Permutation_refl | reflexivity].
  - right. right. vm_compute. left. reflexivity.
  - exact H.
Defined.

Lemma final_pages_has wid pages page :
  In page pages ->
  exists pp, In pp (final_pages_of wid pages) /\ pp_file_path pp = snd (fst page).
Proof.
  intros Hin.
  assert (H : In (wid, snd (fst page), snd page)
                 (map (fun p => (pp_work_id p, pp_file_path p, pp_media_type p))
                      (final_pages_of wid pages))).
  { rewrite final_pages_content.
    apply (in_map (fun p : Z * string * string => (wid, snd (fst p), snd p))).
    now apply stable_sort_In. }
  apply in_map_iff in H. destruct H as [pp [Heq Hpp]]. exists pp. split; [assumption|].
  now injection Heq.
Qed.

(** The unclassified rows written in a pass carry paths of the database or
    of the walk. *)
Lemma written_row_path E walk db completed o :
  Permutation completed (make_tasks walk db) ->
  In o (other_works (written db (results_of E completed))) ->
  In (ow_file_path o) (map ow_file_path (other_works db)) \/ scanned_path walk (ow_file_path o).
Proof.
  intros Hperm Ho. cbn [written other_works] in Ho. apply executemany_insert_In in Ho.
  destruct Ho as [Ho|Ho]; [left; now apply in_map|]. right.
  apply in_flat_map in Ho. destruct Ho as [r [Hr Ho]].
  apply results_of_In in Hr. destruct Hr as [t [Ht Hw]].
  apply (Permutation_in _ Hperm), make_tasks_In in Ht.
  destruct Ht as [root [files [Hwalk [_ ->]]]].
  destruct (scan_worker_paths E _ r (ow_file_path o) Hw) as [mf [Hmf ->]].
  - right. right. now apply in_map.
  - apply media_files_of_In in Hmf. exists root, files, mf. cbn. tauto.
Qed.



(** * Referential integrity, and the stream over a scanned tree *)

(** The two [FOREIGN KEY] clauses of [init_db], which SQLite does not
    enforce unless asked to: every page belongs to a stored artwork and
    every post medium to a stored post. *)
Definition children_owned (db : store) : Prop :=
  (forall p, In p (pixiv_pages db) -> In (pp_work_id p) (map pw_id (pixiv_works db))) /\
  (forall m, In m (tweet_media db) -> In (tm_tweet_id m) (map tw_id (tweets db))).

Lemma result_children_owned E args r :
  scan_worker E args = Some r ->
  (forall p, In p (res_pages r) -> In (pp_work_id p) (map pw_id (res_works r))) /\
  (forall m, In m (res_tweet_media r) -> In (tm_tweet_id m) (map tw_id (res_tweets r))).
Proof.
  destruct r as [[tb pb] ob]. intros Hw. apply scan_worker_sound in Hw.
  destruct Hw as [Htb _]. unfold res_pages, res_works, res_tweet_media, res_tweets.
  cbn [fst snd]. split.
  - intros p Hp. apply in_flat_map in Hp. destruct Hp as [[wid b] [Hwb Hp]].
    apply final_pages_In in Hp. destruct Hp as [-> _]. rewrite map_map.
    apply in_map_iff. exists (wid, b). split; [reflexivity | assumption].
  - intros m Hm. apply in_flat_map in Hm. destruct Hm as [e [He Hm]].
    rewrite Forall_forall in Htb. destruct (Htb e He) as [_ [Hmedia _]].
    rewrite Hmedia in Hm. apply in_map_iff in Hm. destruct Hm as [mf [<- _]].
    rewrite map_map. apply in_map_iff. exists e. split; [reflexivity | assumption].
Qed.

Lemma written_children_owned E db completed :
  children_owned db -> children_owned (written db (results_of E completed)).
Proof.
  intros [Hp Hm]. unfold children_owned. cbn [written pixiv_pages pixiv_works tweet_media tweets].
  split.
  - intros p Hin. apply in_app_or in Hin. destruct Hin as [Hin|Hin].
    + specialize (Hp p Hin). apply in_map_iff in Hp. destruct Hp as [w [<- Hw]].
      apply in_map. now apply executemany_insert_incl.
    + apply in_flat_map in Hin. destruct Hin as [r [Hr Hin]].
      pose proof Hr as Hr'. apply results_of_In in Hr'. destruct Hr' as [t [_ Hw]].
      destruct (result_children_owned E t r Hw) as [Hown _].
      specialize (Hown p Hin). apply in_map_iff in Hown. destruct Hown as [w [<- Hw']].
      apply executemany_insert_key. apply in_flat_map. now exists r.
  - intros m Hin. apply in_app_or in Hin. destruct Hin as [Hin|Hin].
    + specialize (Hm m Hin). apply in_map_iff in Hm. destruct Hm as [t [<- Ht]].
      apply in_map. now apply executemany_insert_incl.
    + apply in_flat_map in Hin. destruct Hin as [r [Hr Hin]].
      pose proof Hr as Hr'. apply results_of_In in Hr'. destruct Hr' as [t [_ Hw]].
      destruct (result_children_owned E t r Hw) as [_ Hown].
      specialize (Hown m Hin). apply in_map_iff in Hown. destruct Hown as [tw [<- Htw]].
      apply executemany_insert_key. apply in_flat_map. now exists r.
Qed.

Lemma toggle_like_children_owned type id liked db :
  children_owned db -> children_owned (fst (toggle_like type id liked db)).
Proof.
  intros [Hp Hm]. unfold children_owned, toggle_like. cbn [fst].
  destruct (String.eqb type "pixiv"); [|destruct (String.eqb type "tweet")];
    cbn [pixiv_pages pixiv_works tweet_media tweets];
    rewrite ?update_liked_map by reflexivity; split; assumption.
Qed.

Lemma reachable_children_owned db : reachable db -> children_owned db.
Proof.
  induction 1 as [|E walk db db' _ IH [completed [_ ->]]|type id liked db _ IH].
  - split; intros ? [].
  - rewrite run_scan_body_written.
    destruct (reconcile_tables (written db (results_of E completed)))
      as [Hw [Hpp [Ht [Htm _]]]].
    destruct (written_children_owned E db completed IH) as [H1 H2].
    unfold children_owned. rewrite Hw, Hpp, Ht, Htm. split; assumption.
  - now apply toggle_like_children_owned.
Qed.



(** The request for everything: all tables, no filter. *)
Definition unfiltered (P : stream_params) : Prop :=
  sp_source P = "all" /\ truthy (sp_folder P) = None /\ truthy (sp_q P) = None /\
  sp_filter_type P = "all" /\ sp_target_date P = None /\ sp_offset P = 0.



(** * The status endpoint *)

(** [get_status()]: the flag and the message; [target_dir] is read from the
    configuration, which plays no part here. *)
Definition get_status (g : globals) : bool * status :=
  (is_scanning g, scan_status_msg g).

(** With the flag down, the message is the empty one of the start or a
    final one. *)
Definition idle_inv (s : system) : Prop :=
  is_scanning (sys_g s) = false ->
  scan_status_msg (sys_g s) = MsgNone \/ is_final (scan_status_msg (sys_g s)) = true.

Lemma in_try_flag s i a :
  flag_inv s -> nth_error (sys_threads s) i = Some a -> pc_active a = true ->
  is_scanning (sys_g s) = true.
Proof.
  intros [Hsum _] Hi Ha. pose proof (count_pc_nth _ _ _ Hi) as Hc.
  destruct (is_scanning (sys_g s)); [reflexivity|]. simpl in Hsum.
  destruct a; try discriminate; lia.
Qed.

Lemma step_idle_inv s s' : flag_inv s -> idle_inv s -> step s s' -> idle_inv s'.
Proof.
  intros Hflag Hidle Hstep. unfold idle_inv in *.
  destruct Hstep as [g ths|g ths i Hi Hf|g ths i Hi Hf|g ths i db' msg' Hi Hmsg
                    |g ths i p t o d Hi|g ths i e Hi|g ths i Hi|g ths type id liked];
    cbn [sys_g is_scanning scan_status_msg] in *; auto; try discriminate.
  - intros Hoff. pose proof (in_try_flag _ i InTry Hflag Hi eq_refl) as Hon.
    cbn in Hon. congruence.
  - intros _. right. destruct Hflag as [_ Hfin]. apply Hfin.
    apply (count_pc_nth _ _ _ Hi).
Qed.

Lemma reachable_idle_inv s : sys_reachable s -> idle_inv s.
Proof.
  induction 1 as [|s s' Hs IH Hstep].
  - intros _. now left.
  - apply (step_idle_inv s); [now apply reachable_flag_inv | assumption | assumption].
Qed.

(** X22.  What the status endpoint can show.  In every state the process
    reaches, a status with [is_scanning] false carries the empty message of
    the start or a final message, of completion or of an error: a count of
    folders or a progress counter is only ever shown while a pass runs. *)
Theorem idle_status_is_final :
  forall s msg,
    sys_reachable s -> get_status (sys_g s) = (false, msg) ->
    msg = MsgNone \/ (exists p t o d, msg = MsgDone p t o d) \/ (exists e, msg = MsgError e).
Proof.
  intros s msg Hs Hst. unfold get_status in Hst. injection Hst as Hflag <-.
  destruct (reachable_idle_inv s Hs Hflag) as [H|H]; [now left|].
  right. destruct (scan_status_msg (sys_g s)); try discriminate.
  - left. now exists p, t, o, deleted.
  - right. now exists e.
Qed.

Lemma idle_status_is_final_witness :
  MsgDone 3 2 1 0 = MsgNone \/
  (exists p t o d, MsgDone 3 2 1 0 = MsgDone p t o d) \/
  (exists e, MsgDone 3 2 1 0 = MsgError e).
Proof.
  apply (idle_status_is_final (demo_system [Returned] false (MsgDone 3 2 1 0))).
  - apply (sys_reach_step (demo_system [InFinally] true (MsgDone 3 2 1 0))).
    + apply (sys_reach_step (demo_system [InTry] true (MsgProgress 100 0 0))).
      * apply (sys_reach_step (demo_system [InTry] true MsgNone)).
        -- apply (sys_reach_step (demo_system [AtLock] false MsgNone)).
           ++ apply (sys_reach_step init_system); [constructor|].
              apply (step_spawn (demo_globals false MsgNone) []).
           ++ apply (step_enter (demo_globals false MsgNone) [AtLock] 0); reflexivity.
        -- apply (step_work (demo_globals true MsgNone) [InTry] 0 empty_store
                    (MsgProgress 100 0 0)); reflexivity.
      * apply (step_done (demo_globals true (MsgProgress 100 0 0)) [InTry] 0 3 2 1 0).
        reflexivity.
    + apply (step_finally (demo_globals true (MsgDone 3 2 1 0)) [InFinally] 0). reflexivity.
  - reflexivity.
Defined.

(** * The rows of new posts and of unclassified files *)

(** The row of a post, read off its sidecar [jf]. *)
Definition post_row_of (E : Env) (root folder_name : string) (json_files : list string)
    (tw : tweet) : Prop :=
  exists jf data,
    In jf json_files /\ sidecar_id jf = Some (tw_id tw) /\
    load_sidecar E (path_join root jf) = Some data /\
    getmtime_ms E (path_join root jf) = Some (tw_file_mtime tw) /\
    tw_json_path tw = path_join root jf /\
    tw_timestamp tw = sc_timestamp data /\ tw_user_name tw = sc_user data /\
    tw_text tw = sc_text data /\ tw_avatar_url tw = sc_avatar data /\
    tw_tweet_url tw = match sc_url data with
                      | Some u => u
                      | None => "https://twitter.com/" ++ sc_user data ++ "/status/" ++ tw_id tw
                      end /\
    tw_folder_name tw = folder_name /\ tw_is_liked tw = 0.

Lemma tweet_phase_rows E root folder_name existing_tweets json_files media_files :
  Forall (fun e => post_row_of E root folder_name json_files (fst e))
         (fst (tweet_phase E root folder_name existing_tweets json_files media_files)).
Proof.
  unfold tweet_phase.
  apply (fold_left_invariant (tweet_step E root folder_name existing_tweets media_files)
           (fun st => Forall (fun e => post_row_of E root folder_name json_files (fst e))
                             (fst st))); [constructor|].
  intros [tb used] jf Hjf Hst. cbn [fst] in Hst. unfold tweet_step.
  destruct (findall_digits14 jf) as [|tid rest] eqn:Hnums; [exact Hst|].
  destruct (mem tid existing_tweets); [exact Hst|].
  destruct (load_sidecar E (path_join root jf)) as [data|] eqn:Hload; [|exact Hst].
  destruct (getmtime_ms E (path_join root jf)) as [mtime|] eqn:Hm; [|exact Hst].
  cbn [fst]. apply Forall_app. split; [exact Hst|]. constructor; [|constructor].
  exists jf, data. cbn. unfold sidecar_id. rewrite Hnums. repeat split; auto.
Qed.

Lemma others_loop_rows E root folder_name existing_others used_media l buf :
  fold_opt (other_step E root folder_name existing_others used_media) l [] = Some buf ->
  Forall (fun o => exists mf, In mf l /\
                     o = other_row_of E root folder_name mf (ow_file_mtime o) /\
                     getmtime_ms E (ow_file_path o) = Some (ow_file_mtime o)) buf.
Proof.
  apply (fold_opt_invariant (other_step E root folder_name existing_others used_media)
           (fun b => Forall (fun o => exists mf, In mf l /\
                                o = other_row_of E root folder_name mf (ow_file_mtime o) /\
                                getmtime_ms E (ow_file_path o) = Some (ow_file_mtime o)) b));
    [constructor|].
  intros s mf s' Hmf Hs Hstep. apply other_step_shape in Hstep.
  destruct Hstep as [[_ ->]|[mtime [_ [_ [Hm ->]]]]]; [assumption|].
  apply Forall_app. split; [assumption|]. constructor; [|constructor].
  exists mf. cbn. auto.
Qed.



(** * Repeated likes *)

Lemma update_liked_twice {A} (key : A -> string) set v v' id (tbl : list A) :
  (forall u x, key (set u x) = key x) ->
  (forall u u' x, set u (set u' x) = set u x) ->
  update_liked key set v id (update_liked key set v' id tbl) = update_liked key set v id tbl.
Proof.
  intros Hk Hs. unfold update_liked. rewrite map_map. apply map_ext. intros x.
  destruct (String.eqb (key x) id) eqn:Hx; [now rewrite Hk, Hx, Hs | now rewrite Hx].
Qed.

Lemma update_liked_swap {A} (key : A -> string) set v v' id id' (tbl : list A) :
  (forall u x, key (set u x) = key x) ->
  id <> id' ->
  update_liked key set v id (update_liked key set v' id' tbl)
  = update_liked key set v' id' (update_liked key set v id tbl).
Proof.
  intros Hk Hne. unfold update_liked. rewrite !map_map. apply map_ext. intros x.
  destruct (String.eqb_spec (key x) id) as [H1|H1];
    destruct (String.eqb_spec (key x) id') as [H2|H2];
    rewrite ?Hk; try congruence.
  - destruct (String.eqb_spec (key x) id); [|contradiction].
    destruct (String.eqb_spec (key x) id'); [contradiction | reflexivity].
  - destruct (String.eqb_spec (key x) id); [contradiction|].
    destruct (String.eqb_spec (key x) id'); [reflexivity | contradiction].
  - destruct (String.eqb_spec (key x) id); [contradiction|].
    destruct (String.eqb_spec (key x) id'); [contradiction | reflexivity].
Qed.

(** X24.  Repeated likes.  Of two [toggle_like] requests for the same
    family and id the later one decides; requests for different ids of
    one family, or for different families, can be served in either order;
    nothing but [is_liked] columns is written, so that every table keeps
    its ids in their order, and pages and post media stay as they are. *)
Theorem like_last_wins :
  forall type id v v' db,
    fst (toggle_like type id v (fst (toggle_like type id v' db)))
    = fst (toggle_like type id v db) /\
    (forall type' id',
       liked_label type <> liked_label type' \/ id <> id' ->
       fst (toggle_like type id v (fst (toggle_like type' id' v' db)))
       = fst (toggle_like type' id' v' (fst (toggle_like type id v db)))) /\
    map pw_id (pixiv_works (fst (toggle_like type id v db))) = map pw_id (pixiv_works db) /\
    map tw_id (tweets (fst (toggle_like type id v db))) = map tw_id (tweets db) /\
    map ow_id (other_works (fst (toggle_like type id v db))) = map ow_id (other_works db) /\
    pixiv_pages (fst (toggle_like type id v db)) = pixiv_pages db /\
    tweet_media (fst (toggle_like type id v db)) = tweet_media db.
Proof.
  intros type id v v' db. split; [|split].
  - unfold toggle_like. cbn [fst].
    destruct (String.eqb type "pixiv"); [|destruct (String.eqb type "tweet")];
      cbn [pixiv_works pixiv_pages tweets tweet_media other_works];
      now rewrite update_liked_twice.
  - intros type' id' Hdiff. unfold liked_label in Hdiff. unfold toggle_like. cbn [fst].
    destruct (String.eqb type "pixiv"); [|destruct (String.eqb type "tweet")];
      (destruct (String.eqb type' "pixiv"); [|destruct (String.eqb type' "tweet")]);
      cbn [pixiv_works pixiv_pages tweets tweet_media other_works]; try reflexivity;
      (destruct Hdiff as [Hdiff|Hdiff]; [congruence|]);
      now rewrite (update_liked_swap _ _ _ _ id id').
  - unfold toggle_like. cbn [fst].
    destruct (String.eqb type "pixiv"); [|destruct (String.eqb type "tweet")];
      cbn [pixiv_works pixiv_pages tweets tweet_media other_works];
      rewrite ?update_liked_map by reflexivity; repeat split.
Qed.

(** * The media of a record *)

Definition medium_of_page (to_url : string -> string) (p : pixiv_page) : medium :=
  {| m_url := to_url (pp_file_path p); m_type := pp_media_type p;
     m_index := Some (pp_page_num p) |}.

Definition medium_of_file (to_url : string -> string) (path kind : string) : medium :=
  {| m_url := to_url path; m_type := kind; m_index := None |}.

Lemma page_num_le_total (a b : pixiv_page) :
  (pp_page_num a <=? pp_page_num b) = true \/ (pp_page_num b <=? pp_page_num a) = true.
Proof. rewrite !Z.leb_le. lia. Qed.

Lemma page_num_le_trans (a b c : pixiv_page) :
  (pp_page_num a <=? pp_page_num b) = true -> (pp_page_num b <=? pp_page_num c) = true ->
  (pp_page_num a <=? pp_page_num c) = true.
Proof. rewrite !Z.leb_le. lia. Qed.



(** * The anchor, and requests at the edge *)

Lemma filter_split {A} (f g : A -> bool) l :
  Permutation (filter (fun x => f x && g x) l ++ filter (fun x => f x && negb (g x)) l)
              (filter f l).
Proof.
  induction l as [|x l IH]; [constructor|].
  simpl. destruct (f x); simpl; [|exact IH].
  destruct (g x); simpl.
  - now constructor.
  - eapply Permutation_trans; [apply Permutation_sym, Permutation_middle|]. now constructor.
Qed.

Lemma build_query_anchor P op target t :
  build_query P op (Some target) t = (build_query P op None t ++ [CMtime op target])%list.
Proof. unfold build_query. now rewrite !app_nil_r, !app_assoc. Qed.

Lemma build_query_no_anchor P op op' t : build_query P op None t = build_query P op' None t.
Proof. reflexivity. Qed.

Lemma select_op_complement sort x target :
  cmp_holds (fst (select_op sort "newer")) x target
  = negb (cmp_holds (fst (select_op sort "older")) x target).
Proof.
  unfold select_op. cbn [String.eqb Ascii.eqb Bool.eqb].
  destruct (String.eqb sort "asc"); cbn [fst cmp_holds].
  - rewrite Z.ltb_antisym. reflexivity.
  - rewrite Z.leb_antisym. now rewrite negb_involutive.
Qed.

(** X26.  An anchor splits the stream.  For each table, the rows that an
    anchored "older" request matches and those that the "newer" request
    with the same anchor matches are, together, the rows that the request
    without anchor matches, each once: scrolling away from an anchor in both
    directions neither misses nor repeats a row, in both sort modes. *)
Theorem anchor_splits_stream :
  forall like db P target t,
    Permutation
      (family_hits like db P (fst (select_op (sp_sort P) "older")) (Some target) t ++
       family_hits like db P (fst (select_op (sp_sort P) "newer")) (Some target) t)
      (family_hits like db P (fst (select_op (sp_sort P) "older")) None t).
Proof.
  intros like db P target t. unfold family_hits. rewrite <- map_app. apply Permutation_map.
  rewrite !build_query_anchor.
  rewrite (build_query_no_anchor P (fst (select_op (sp_sort P) "newer"))
             (fst (select_op (sp_sort P) "older")) t).
  set (base := build_query P (fst (select_op (sp_sort P) "older")) None t).
  assert (Ho : forall r,
            forallb (eval_cond like db r)
                    (base ++ [CMtime (fst (select_op (sp_sort P) "older")) target])
            = forallb (eval_cond like db r) base
              && cmp_holds (fst (select_op (sp_sort P) "older")) (row_mtime r) target).
  { intros r. rewrite forallb_app. cbn. now rewrite andb_true_r. }
  assert (Hn : forall r,
            forallb (eval_cond like db r)
                    (base ++ [CMtime (fst (select_op (sp_sort P) "newer")) target])
            = forallb (eval_cond like db r) base
              && negb (cmp_holds (fst (select_op (sp_sort P) "older")) (row_mtime r) target)).
  { intros r. rewrite forallb_app. cbn. now rewrite andb_true_r, select_op_complement. }
  rewrite (filter_ext _ _ Ho), (filter_ext _ _ Hn).
  apply (filter_split (fun r => forallb (eval_cond like db r) base)
           (fun r => cmp_holds (fst (select_op (sp_sort P) "older")) (row_mtime r) target)).
Qed.

Lemma fetch_ids_no_table like db P fetch_dir fetch_limit fetch_target :
  tables_of (sp_source P) = [] -> fetch_ids like db P fetch_dir fetch_limit fetch_target = [].
Proof.
  intros H. unfold fetch_ids. destruct (select_op (sp_sort P) fetch_dir) as [op order_s].
  rewrite H. cbn. unfold py_slice. rewrite skipn_nil. now rewrite firstn_nil.
Qed.

Lemma fetch_ids_zero like db P fetch_dir fetch_target :
  fetch_ids like db P fetch_dir 0 fetch_target = [].
Proof.
  assert (H : Z.of_nat (List.length (fetch_ids like db P fetch_dir 0 fetch_target)) <= 0).
  { unfold fetch_ids. destruct (select_op (sp_sort P) fetch_dir) as [op order_s].
    apply py_slice_length. lia. }
  destruct (fetch_ids like db P fetch_dir 0 fetch_target); [reflexivity | simpl in H; lia].
Qed.

Lemma py_slice_drop_last {A} (l : list A) : py_slice 0 (0 + -1) l = removelast l.
Proof.
  unfold py_slice, slice_bound. cbn [Z.add Z.ltb Z.compare].
  rewrite removelast_firstn_len. cbn [skipn Z.to_nat].
  replace (Z.min 0 (Z.of_nat (List.length l))) with 0 by lia.
  cbn [skipn Z.to_nat]. f_equal. lia.
Qed.


(** * Failing tasks *)

Definition returns (E : Env) (t : task) : bool :=
  match scan_worker E t with Some _ => true | None => false end.

Lemma results_of_returning E completed :
  results_of E (filter (returns E) completed) = results_of E completed.
Proof.
  unfold results_of, returns. induction completed as [|t l IH]; [reflexivity|].
  simpl. destruct (scan_worker E t) as [r|] eqn:Hw; simpl; rewrite ?Hw, IH; reflexivity.
Qed.

(** X28.  A task that raises is as if its directory had not been there:
    the database and the completion message of a pass are those of the pass
    over the tasks whose workers return, in the same order.  The rows of
    the other directories are written all the same. *)
Theorem task_errors_are_isolated :
  forall E completed db,
    run_scan_body E completed db = run_scan_body E (filter (returns E) completed) db.
Proof.
  intros E completed db.
  rewrite (surjective_pairing (run_scan_body E completed db)).
  rewrite (surjective_pairing (run_scan_body E (filter (returns E) completed) db)).
  rewrite !run_scan_body_written, !run_scan_body_status.
  cbn zeta. now rewrite results_of_returning.
Qed.

Definition all_but_one_page : stream_params :=
  {| sp_limit := -1; sp_offset := 0; sp_source := "all"; sp_q := None; sp_sort := "desc";
     sp_folder := None; sp_filter_type := "all"; sp_target_date := None;
     sp_direction := "older" |}.

